(** * WSN design-space exploration: ranking, trajectories, objectives

    A shallow embedding of the algorithmic parts of the repository:

    - [Pareto]: [dominates] and [fast_nondominated_sort] of
      [data/pareto_global.py] (the copy in
      [data/simulation/milp-mobile/pareto_analysis.py] is the same text);
    - [Trajectory]: the step budgeting, the round trip and the timeline
      merge of [generate_positions_from_json] in
      [batch_runner/lib/parse_json_pos_dat.py];
    - [Objectives]: [sum_all], [sum_last_minus_first] and the part of
      [compute_objectives] that uses them, in [batch_runner/batch_runner.py].

    Two further modules cover the callers: [Loaders], the loading of the
    populations and [main] in the two ranking scripts, and [CoojaFiles], the
    motes and the blank-line loop of [update_simulation_xml] in
    [batch_runner/lib/replace_xml.py] with [convert_simulation_files] of
    [batch_runner/lib/cooja_files.py].

    Numbers.  Python floats are modelled by [pyfloat]: the rational value of
    a finite float, or NaN.  Comparisons follow IEEE 754 (every comparison
    with NaN is false) and are exact.  In [Trajectory] the quotients and the
    product that decide the step counts are rounded as binary64 rounds them
    ([Binary64.round53]: to the nearest, ties to even, 53 significant bits,
    subnormals included), and a result beyond the largest float is the
    overflow on which [int] raises; the interpolated coordinates are kept
    exact, and only their number and order are used.  In [Objectives] sums
    and differences are exact: the statements that give the value of a sum
    are restricted to columns on which pandas, in int64 or in float64 and in
    any order of summation, adds and subtracts without rounding or
    wrap-around ([ObjectivesSpec.exact_cells]), and to node and time columns
    that are numeric ([ObjectivesSpec.numeric_keys]). *)

From Stdlib Require Import ZArith QArith Qround Qabs Lia Lqa.
From stdpp Require Import base option list gmap strings.

Local Open Scope Z_scope.

(** ** Floats *)

Inductive pyfloat : Type :=
| Fin (q : Q)
| NaN.

(** [a <= b] *)
Definition fle (a b : pyfloat) : bool :=
  match a, b with
  | Fin x, Fin y => Qle_bool x y
  | _, _ => false
  end.

(** [a < b] *)
Definition flt (a b : pyfloat) : bool :=
  match a, b with
  | Fin x, Fin y => negb (Qle_bool y x)
  | _, _ => false
  end.

(** [a >= b] and [a > b] *)
Definition fge (a b : pyfloat) : bool := fle b a.
Definition fgt (a b : pyfloat) : bool := flt b a.

(** ** Pareto ranking *)

Module Pareto.

(** The objective dictionary [{"latency": _, "energy": _, "throughput": _}]. *)
Record objective_vector : Type := mkObjectives {
  latency : pyfloat;
  energy : pyfloat;
  throughput : pyfloat
}.

(** A candidate is a Python dict with the keys ["id"] (here [cid]; ids are
    taken to be strings), ["generation"] (absent in the MILP-only script),
    ["origin"], ["objectives"] and, once ranked, ["rank"]. *)
Record candidate : Type := mkCandidate {
  cid : string;
  generation : option Z;
  origin : string;
  objectives : objective_vector;
  rank : option nat
}.

(** Candidates are mutable objects shared between the population, the
    lists in [S] and the fronts: they are kept in a heap and referred to
    by address. *)
Definition addr : Type := nat.
Definition heap : Type := addr -> candidate.

(** [q["rank"] = r] *)
Definition set_rank (h : heap) (a : addr) (r : nat) : heap :=
  fun b =>
    if Nat.eqb b a then
      {| cid := cid (h b); generation := generation (h b);
         origin := origin (h b); objectives := objectives (h b);
         rank := Some r |}
    else h b.

Definition dominates (a b : objective_vector) : bool :=
  let better_or_equal :=
    fle (latency a) (latency b) &&
    fle (energy a) (energy b) &&
    fge (throughput a) (throughput b) in
  let strictly_better :=
    flt (latency a) (latency b) ||
    flt (energy a) (energy b) ||
    fgt (throughput a) (throughput b) in
  better_or_equal && strictly_better.

(** The state of [fast_nondominated_sort]: the dictionaries [S] and [n]
    keyed by candidate id, the list [fronts], the heap, and a ghost log
    [calls] of the pairs [(a, b)] on which [dominates(a, b)] was
    evaluated. *)
Record state : Type := mkState {
  S : gmap string (list addr);
  n : gmap string Z;
  fronts : list (list addr);
  hp : heap;
  calls : list (addr * addr)
}.

(** [S[k]] and [n[k]].  The keys read by the code are ids of candidates of
    the population, which the first pass writes ([first_pass_keys]): the
    defaults stand for a [KeyError] that does not occur. *)
Definition S_at (st : state) (k : string) : list addr := default [] (S st !! k).
Definition n_at (st : state) (k : string) : Z := default 0 (n st !! k).

(** One iteration of the inner loop [for q in population] for a fixed [p]. *)
Definition compare_step (p : addr) (st : state) (q : addr) : state :=
  let pid := cid (hp st p) in
  if String.eqb pid (cid (hp st q)) then st
  else if dominates (objectives (hp st p)) (objectives (hp st q)) then
    {| S := <[pid := S_at st pid ++ [q]]> (S st); n := n st;
       fronts := fronts st; hp := hp st;
       calls := calls st ++ [(p, q)] |}
  else if dominates (objectives (hp st q)) (objectives (hp st p)) then
    {| S := S st; n := <[pid := n_at st pid + 1]> (n st);
       fronts := fronts st; hp := hp st;
       calls := calls st ++ [(p, q); (q, p)] |}
  else
    {| S := S st; n := n st; fronts := fronts st; hp := hp st;
       calls := calls st ++ [(p, q); (q, p)] |}.

(** [fronts[0].append(p)] *)
Definition append_front0 (fs : list (list addr)) (p : addr) : list (list addr) :=
  match fs with
  | [] => []
  | f0 :: rest => (f0 ++ [p]) :: rest
  end.

(** One iteration of the outer loop [for p in population]. *)
Definition count_step (population : list addr) (st : state) (p : addr) : state :=
  let pid := cid (hp st p) in
  let st0 := {| S := <[pid := []]> (S st); n := <[pid := 0]> (n st);
                fronts := fronts st; hp := hp st; calls := calls st |} in
  let st1 := fold_left (compare_step p) population st0 in
  if Z.eqb (n_at st1 pid) 0 then
    {| S := S st1; n := n st1; fronts := append_front0 (fronts st1) p;
       hp := set_rank (hp st1) p 0; calls := calls st1 |}
  else st1.

Definition init_state (h : heap) : state :=
  {| S := ∅; n := ∅; fronts := [[]]; hp := h; calls := [] |}.

Definition first_pass (h : heap) (population : list addr) : state :=
  fold_left (count_step population) population (init_state h).

(** The body of [for q in S[p["id"]]], with [i] the index of the current
    front and [next_front] threaded along. *)
Definition relax_step (i : nat) (acc : state * list addr) (q : addr)
  : state * list addr :=
  let '(st, next_front) := acc in
  let qid := cid (hp st q) in
  let st1 := {| S := S st; n := <[qid := n_at st qid - 1]> (n st);
                fronts := fronts st; hp := hp st; calls := calls st |} in
  if Z.eqb (n_at st1 qid) 0 then
    ({| S := S st1; n := n st1; fronts := fronts st1;
        hp := set_rank (hp st1) q (i + 1); calls := calls st1 |},
     next_front ++ [q])
  else (st1, next_front).

(** The body of [for p in fronts[i]]. *)
Definition front_step (i : nat) (acc : state * list addr) (p : addr)
  : state * list addr :=
  fold_left (relax_step i) (S_at (fst acc) (cid (hp (fst acc) p))) acc.

(** [while fronts[i]: ...].  The loop is given fuel; [None] stands for a
    run that has not left the loop when the fuel is spent. *)
Fixpoint sort_loop (fuel : nat) (i : nat) (st : state) : option state :=
  match fuel with
  | O => None
  | Datatypes.S fuel' =>
      match nth i (fronts st) [] with
      | [] => Some st
      | front_i =>
          let '(st1, next_front) := fold_left (front_step i) front_i (st, []) in
          sort_loop fuel' (i + 1)
            {| S := S st1; n := n st1; fronts := fronts st1 ++ [next_front];
               hp := hp st1; calls := calls st1 |}
      end
  end.

(** The fuel given to the loop: every front after the first takes its
    candidates from keys of [n] that have just reached zero, so the loop
    body runs at most once more than there are candidates. *)
Definition sort_fuel (population : list addr) : nat :=
  length population + 2.

(** [fast_nondominated_sort(population)]: the final state, whose heap
    carries the ranks, and the returned list [fronts[:-1]]. *)
Definition sort_state (h : heap) (population : list addr) : option state :=
  sort_loop (sort_fuel population) 0 (first_pass h population).

Definition fast_nondominated_sort (h : heap) (population : list addr)
  : option (heap * list (list addr)) :=
  match sort_state h population with
  | Some st => Some (hp st, removelast (fronts st))
  | None => None
  end.

End Pareto.
(** ** Vocabulary for the statements about [Pareto] *)

Module ParetoSpec.
Import Pareto.

(** The fields of a candidate other than its rank. *)
Definition data_eq (c c' : candidate) : Prop :=
  cid c' = cid c /\ generation c' = generation c /\
  origin c' = origin c /\ objectives c' = objectives c.

Definition same_data (h h' : heap) : Prop := forall a, data_eq (h a) (h' a).

(** [rival h p q]: the pair is not skipped by [if pid == q["id"]]. *)
Definition rival (h : heap) (p q : addr) : bool :=
  negb (String.eqb (cid (h p)) (cid (h q))).

Definition beats (h : heap) (p q : addr) : bool :=
  dominates (objectives (h p)) (objectives (h q)).

(** [edge h p q]: the first pass records that [p] dominates [q]. *)
Definition edge (h : heap) (p q : addr) : bool := rival h p q && beats h p q.

(** What the inner loop for [p] leaves in [S[pid]] and adds to [n[pid]]. *)
Definition dominated_by (h : heap) (population : list addr) (p : addr) : list addr :=
  filter (fun q => edge h p q) population.

Definition dominators (h : heap) (population : list addr) (p : addr) : list addr :=
  filter (fun q => edge h q p) population.

(** Number of keys of [n] whose counter is positive. *)
Definition pending (m : gmap string Z) : nat :=
  size (filter (fun kv => 0 < kv.2) m).

(** [p] has no dominator with another id: it joins front 0. *)
Definition unbeaten (h : heap) (population : list addr) (p : addr) : bool :=
  Nat.eqb (length (dominators h population p)) 0.

(** The last candidate of [l] that carries the id [k]. *)
Definition owner (h : heap) (l : list addr) (k : string) : option addr :=
  List.find (fun p => String.eqb (cid (h p)) k) (rev l).

(** Number of candidates of [l] that carry the id [k]. *)
Definition occ (h : heap) (k : string) (l : list addr) : nat :=
  length (filter (fun q => cid (h q) = k) l).

(** The invariant of [while fronts[i]] for a population with pairwise
    distinct ids: [fronts] is [Fs ++ [F]] with [F = fronts[i]]; the
    candidates of [Fs] have been processed. *)
Definition sort_inv (h : heap) (population : list addr) (i : nat) (st : state) : Prop :=
  exists Fs F,
    fronts st = Fs ++ [F] /\ length Fs = i /\
    same_data h (hp st) /\
    (forall q, q ∈ population -> S_at st (cid (h q)) = dominated_by h population q) /\
    NoDup (concat Fs ++ F) /\
    (forall p, p ∈ (concat Fs ++ F) -> p ∈ population) /\
    (forall q, q ∈ population ->
       n_at st (cid (h q)) =
       Z.of_nat (length (dominators h population q)) -
       Z.of_nat (length (filter (fun p => edge h p q) (concat Fs)))) /\
    (forall q, q ∈ population ->
       (q ∈ F <-> (q ∉ concat Fs) /\ n_at st (cid (h q)) = 0)) /\
    (forall q, q ∈ concat Fs -> n_at st (cid (h q)) = 0) /\
    (forall j Fj p, (Fs ++ [F]) !! j = Some Fj -> p ∈ Fj -> rank (hp st p) = Some j).

(** Two heaps hold the same ids, objectives and ranks at the addresses of
    [population]; origin and generation are left free. *)
Definition agree (population : list addr) (h1 h2 : heap) : Prop :=
  forall a, a ∈ population ->
    cid (h1 a) = cid (h2 a) /\ objectives (h1 a) = objectives (h2 a) /\
    rank (h1 a) = rank (h2 a).

(** The lists of [S] and of [fronts] hold candidates of the population. *)
Definition supported (population : list addr) (st : state) : Prop :=
  (forall k l x, S st !! k = Some l -> x ∈ l -> x ∈ population) /\
  (forall F x, F ∈ fronts st -> x ∈ F -> x ∈ population).

(** Two runs on heaps that agree. *)
Definition related (population : list addr) (st1 st2 : state) : Prop :=
  S st1 = S st2 /\ n st1 = n st2 /\ fronts st1 = fronts st2 /\
  agree population (hp st1) (hp st2) /\ supported population st1.

End ParetoSpec.

(** ** Populations used in examples *)

Module ParetoExamples.
Import Pareto.
Local Open Scope string_scope.

Definition objs (l e t : Z) : objective_vector :=
  {| latency := Fin (inject_Z l); energy := Fin (inject_Z e);
     throughput := Fin (inject_Z t) |}.

Definition cand (i : string) (l e t : Z) : candidate :=
  {| cid := i; generation := None; origin := "MILP";
     objectives := objs l e t; rank := None |}.

(** The ranking scenario: Y, W, X, Z at the addresses 0, 1, 2, 3. *)
Definition scenario : heap := fun a =>
  match a with
  | 0%nat => cand "Y" 4 4 60
  | 1%nat => cand "W" 3 8 55
  | 2%nat => cand "X" 5 5 50
  | _ => cand "Z" 10 10 10
  end.

Definition scenario_population : list addr := [0; 1; 2; 3]%nat.

(** The same scenario loaded from the two sources. *)
Definition scenario_mixed : heap := fun a =>
  {| cid := cid (scenario a);
     generation := Some (Z.of_nat a);
     origin := if Nat.even a then "SimLab" else "MILP";
     objectives := objectives (scenario a);
     rank := None |}.

(** Two candidates that carry the id ["A"]; the first dominates the second. *)
Definition twins : heap := fun a =>
  match a with
  | 0%nat => cand "A" 1 1 10
  | _ => cand "A" 3 3 1
  end.

Definition twins_population : list addr := [0; 1]%nat.

(** Two candidates with the id ["A"] and a third one between them in the
    dominance order. *)
Definition shadowed : heap := fun a =>
  match a with
  | 0%nat => cand "A" 1 1 10
  | 1%nat => cand "A" 3 3 1
  | _ => cand "B" 2 2 5
  end.

Definition shadowed_population : list addr := [0; 1; 2]%nat.

End ParetoExamples.

(** ** Binary64 rounding *)

(** The arithmetic of Python floats and numpy [float64]: a result is the
    real result rounded to the nearest number with 53 significant bits and
    an exponent of at least -1074 (so that subnormal numbers are covered),
    ties to the even one.  A rounded result of magnitude [2^1024] or more
    stands for an overflow to infinity. *)
Module Binary64.
Local Open Scope Q_scope.

(** [2^e] *)
Definition pow2 (e : Z) : Q :=
  if Z.leb 0 e then inject_Z (2 ^ e) else 1 # Z.to_pos (2 ^ (- e)).

(** The integer nearest to [x], ties to the even one. *)
Definition rne (x : Q) : Z :=
  let f := Qfloor x in
  match Qcompare (x - inject_Z f) (1 # 2) with
  | Lt => f
  | Eq => if Z.even f then f else (f + 1)%Z
  | Gt => (f + 1)%Z
  end.

(** [floor(log2 x)] for a positive [x]. *)
Definition ilog2 (x : Q) : Z :=
  let k := (Z.log2 (Qnum x) - Z.log2 (Zpos (Qden x)))%Z in
  if Qle_bool (pow2 k) x then k else (k - 1)%Z.

Definition round_pos (x : Q) : Q :=
  let e := Z.max (ilog2 x - 52) (-1074) in
  inject_Z (rne (x / pow2 e)) * pow2 e.

Definition round53 (x : Q) : Q :=
  let y := Qred x in
  match Qnum y with
  | Z0 => 0
  | Zpos _ => round_pos y
  | Zneg _ => - round_pos (- y)
  end.

(** The rounded result is a finite float. *)
Definition finite (x : Q) : bool :=
  negb (Qle_bool (pow2 1024) x) && negb (Qle_bool x (- pow2 1024)).

(** [a / b], [a * b] and [float(z)] *)
Definition fdiv (a b : Q) : Q := round53 (a / b).
Definition fmul (a b : Q) : Q := round53 (a * b).
Definition float_of_int (z : Z) : Q := round53 (inject_Z z).

End Binary64.

(** ** Trajectory synthesis *)

Module Trajectory.
Local Open Scope Q_scope.

(** A segment after its expressions have been evaluated (the loop
    [for x_expr, y_expr in path_segments]): the sampled coordinates and the
    arc length numpy computed from them.  [eval], the 100 sample points and
    the square roots of the arc length are inputs of the model, which starts
    from a path whose expressions evaluated to finite numbers: an expression
    that raises, or that yields NaN or an infinity, is outside it. *)
Record segment : Type := mkSegment {
  x_vals : list Q;
  y_vals : list Q;
  seg_dist : Q
}.

(** A mobile mote.  The numbers are the values of the floats the program
    works with.  [path_sum] is [np.sum(segment_distances)] as numpy returned
    it for a path of two or more segments: the order in which numpy adds the
    summands is not in this program. *)
Record mote : Type := mkMote {
  functionPath : list segment;
  path_sum : Q;
  speed : Q;
  timeStep : Q;
  isRoundTrip : bool
}.

(** [int(q)]: truncation towards zero. *)
Definition py_int (q : Q) : Z := Z.quot (Qnum q) (Zpos (Qden q)).

(** [round(q)]: to the nearest integer, ties to the even one. *)
Definition py_round (q : Q) : Z :=
  let f := Qfloor q in
  let r := q - inject_Z f in
  if Qle_bool r (1 # 2) then
    if Qle_bool (1 # 2) r then (if Z.even f then f else (f + 1)%Z) else f
  else (f + 1)%Z.

(** [np.linspace(0, 1, num)] *)
Definition linspace01 (num : nat) : list Q :=
  map (fun j => if Nat.eqb num 1 then 0
                else inject_Z (Z.of_nat j) / inject_Z (Z.of_nat num - 1))
      (seq 0 num).

(** [np.interp(t, np.linspace(0, 1, len(fp)), fp)] for one [t]: linear
    interpolation between the two samples around [t]; the last sample at or
    beyond the last sample point.  (numpy rejects an empty [fp]; the value
    0 stands for that case, which the 100-point sampling excludes.) *)
Definition interp (fp : list Q) (t : Q) : Q :=
  let m := (Z.of_nat (length fp) - 1)%Z in
  let pos := t * inject_Z m in
  let j := Qfloor pos in
  if Z.leb m j then nth (Z.to_nat m) fp 0
  else if Z.ltb j 0 then nth 0%nat fp 0
  else
    let a := nth (Z.to_nat j) fp 0 in
    let b := nth (Z.to_nat j + 1) fp 0 in
    a + (b - a) * (pos - inject_Z j).

(** [np.interp(np.linspace(0, 1, seg_steps), ..., vals)] *)
Definition resample (steps : Z) (vals : list Q) : list Q :=
  map (interp vals) (linspace01 (Z.to_nat steps)).

(** [total_distance = np.sum(segment_distances)]: the sum of no value is 0
    and the sum of one value is that value. *)
Definition total_distance (m : mote) : Q :=
  match functionPath m with
  | [] => 0
  | [s] => seg_dist s
  | _ => path_sum m
  end.

(** [total_steps = max(1, int(total_duration / time_step))], the two
    quotients rounded to binary64.  A zero speed or time step makes the
    quotient infinite or NaN, and an overflow makes it infinite: [int]
    raises, [None]. *)
Definition total_steps (m : mote) : option Z :=
  if Qeq_bool (speed m) 0 || Qeq_bool (timeStep m) 0 then None
  else
    let total_duration := Binary64.fdiv (total_distance m) (speed m) in
    if Binary64.finite total_duration then
      let quotient := Binary64.fdiv total_duration (timeStep m) in
      if Binary64.finite quotient then Some (Z.max 1 (py_int quotient)) else None
    else None.

(** [proportion * total_steps] for one segment: a product of floats, rounded
    to binary64, when [total_distance > 0]; the product of the integers [1]
    and [total_steps] otherwise. *)
Definition seg_product (total_dist : Q) (steps : Z) (seg : Q) : Q :=
  if negb (Qle_bool total_dist 0)
  then Binary64.fmul (Binary64.fdiv seg total_dist) (Binary64.float_of_int steps)
  else inject_Z steps.

(** [seg_steps = max(1, int(proportion * total_steps))] *)
Definition seg_steps (total_dist : Q) (steps : Z) (seg : Q) : Z :=
  Z.max 1 (py_int (seg_product total_dist steps seg)).

(** The proportion or the product overflows: [int] raises. *)
Definition seg_raises (total_dist : Q) (steps : Z) (seg : Q) : bool :=
  negb (Qle_bool total_dist 0) &&
  negb (Binary64.finite (Binary64.fdiv seg total_dist) &&
        Binary64.finite (seg_product total_dist steps seg)).

(** The allocation as the specification words it, with [round]. *)
Definition seg_steps_rounded (total_dist : Q) (steps : Z) (seg : Q) : Z :=
  Z.max 1 (py_round (inject_Z steps * seg / total_dist)).

(** [x_full] and [y_full] before the round trip. *)
Definition forward_xs (m : mote) (steps : Z) : list Q :=
  flat_map (fun s => resample (seg_steps (total_distance m) steps (seg_dist s)) (x_vals s))
           (functionPath m).

Definition forward_ys (m : mote) (steps : Z) : list Q :=
  flat_map (fun s => resample (seg_steps (total_distance m) steps (seg_dist s)) (y_vals s))
           (functionPath m).

(** [np.concatenate((v, v[::-1]))] when the round trip is set. *)
Definition round_trip (flag : bool) (v : list Q) : list Q :=
  if flag then v ++ rev v else v.

Definition x_full (m : mote) (steps : Z) : list Q :=
  round_trip (isRoundTrip m) (forward_xs m steps).

Definition y_full (m : mote) (steps : Z) : list Q :=
  round_trip (isRoundTrip m) (forward_ys m steps).

(** An entry of [mobile_trajectories]. *)
Record trajectory : Type := mkTrajectory {
  mote_id : nat;
  xs : list Q;
  ys : list Q;
  dt : Q
}.

(** The variables of the loop over the mobile motes. *)
Record gen_state : Type := mkGen {
  mote_index : nat;
  max_steps : Z;
  mobile_start_positions : list (Q * Q);
  mobile_trajectories : list trajectory
}.

(** One iteration of [for mote in mobile_motes]; [int] raises on a product
    that is not finite and [x_full[0]] raises on an empty path: [None]. *)
Definition mote_step (st : gen_state) (m : mote) : option gen_state :=
  match total_steps m with
  | None => None
  | Some steps =>
      if existsb (fun s => seg_raises (total_distance m) steps (seg_dist s))
                 (functionPath m)
      then None
      else
      match x_full m steps, y_full m steps with
      | x0 :: _, y0 :: _ =>
          Some {| mote_index := Datatypes.S (mote_index st);
                  max_steps := Z.max (max_steps st) steps;
                  mobile_start_positions := mobile_start_positions st ++ [(x0, y0)];
                  mobile_trajectories :=
                    mobile_trajectories st ++
                    [{| mote_id := mote_index st; xs := x_full m steps;
                        ys := y_full m steps; dt := timeStep m |}] |}
      | _, _ => None
      end
  end.

Fixpoint mote_loop (st : gen_state) (motes : list mote) : option gen_state :=
  match motes with
  | [] => Some st
  | m :: rest =>
      match mote_step st m with
      | Some st' => mote_loop st' rest
      | None => None
      end
  end.

(** A line ["<mote_id> <time> <x> <y>"] of the trace; the rounding of the
    printed decimals is not modelled. *)
Record sample : Type := mkSample {
  s_id : nat;
  s_time : Q;
  s_x : Q;
  s_y : Q
}.

(** The body of the inner loop of the merge, for one trajectory. *)
Definition emit (step : nat) (t : trajectory) : list sample :=
  if Nat.ltb step (length (xs t)) then
    [{| s_id := mote_id t; s_time := inject_Z (Z.of_nat step) * dt t;
        s_x := nth step (xs t) 0; s_y := nth step (ys t) 0 |}]
  else [].

(** The lines written for one [step], up to the blank line. *)
Definition block (trajs : list trajectory) (step : nat) : list sample :=
  flat_map (emit step) trajs.

(** [for step in range(2 * max_steps)] *)
Definition merge (steps : Z) (trajs : list trajectory) : list (list sample) :=
  map (block trajs) (seq 0 (Z.to_nat (2 * steps))).

Record positions : Type := mkPositions {
  fixed_positions : list (Q * Q);
  start_positions : list (Q * Q);
  step_bound : Z;
  trajectories : list trajectory;
  trace : list (list sample)
}.

(** [generate_positions_from_json]: the two returned lists, and the blocks
    of the mobile part of the file. *)
Definition generate_positions_from_json (fixedMotes : list (Q * Q))
    (mobileMotes : list mote) : option positions :=
  match mote_loop {| mote_index := length fixedMotes; max_steps := 0;
                     mobile_start_positions := []; mobile_trajectories := [] |}
                  mobileMotes with
  | Some st =>
      Some {| fixed_positions := fixedMotes;
              start_positions := mobile_start_positions st;
              step_bound := max_steps st;
              trajectories := mobile_trajectories st;
              trace := merge (max_steps st) (mobile_trajectories st) |}
  | None => None
  end.

(** *** Examples *)

(** The straight segment [x(t) = c + len * t], [y(t) = 0] sampled at 100
    points; its arc length is [len]. *)
Definition straight (c len : Z) : segment :=
  {| x_vals := map (fun t => inject_Z c + inject_Z len * t) (linspace01 100);
     y_vals := map (fun _ => 0) (linspace01 100);
     seg_dist := inject_Z len |}.

(** Three unit segments walked at speed 1 and sampled every 3 time units. *)
Definition three_legs : mote :=
  {| functionPath := [straight 0 1; straight 1 1; straight 2 1]; path_sum := 3;
     speed := 1; timeStep := 3; isRoundTrip := false |}.

(** One unit segment and back, sampled every quarter of a time unit. *)
Definition there_and_back : mote :=
  {| functionPath := [straight 0 1]; path_sum := 1; speed := 1;
     timeStep := 1 # 4; isRoundTrip := true |}.

(** Two segments of lengths 27 and 73 walked at speed 1 and sampled every
    9.5 time units: ten steps in all. *)
Definition uneven_legs : mote :=
  {| functionPath := [straight 0 27; straight 27 73]; path_sum := 100;
     speed := 1; timeStep := 19 # 2; isRoundTrip := false |}.

End Trajectory.

(** ** Objective aggregation *)

Module Objectives.
Local Open Scope Q_scope.

(** A cell of the table read by [pd.read_csv], classified by what
    [pd.to_numeric(..., errors="coerce")] makes of it: a number (or text that
    parses to one), text that does not parse, or a missing value. *)
Inductive cell : Type :=
| Num (q : Q)
| Text
| Null.

Definition row : Type := string -> cell.

Record DataFrame : Type := mkDataFrame {
  columns : list string;
  rows : list row
}.

(** [col in df.columns] *)
Definition has_column (df : DataFrame) (col : string) : bool :=
  existsb (String.eqb col) (columns df).

(** [pd.to_numeric(c, errors="coerce")] *)
Definition to_numeric (c : cell) : pyfloat :=
  match c with
  | Num q => Fin q
  | Text | Null => NaN
  end.

(** [s.sum(skipna=True)]; the sum of no value is 0.  The sum is exact: it is
    the sum of pandas on the columns of [ObjectivesSpec.exact_cells]. *)
Definition sum_skipna (s : list pyfloat) : Q :=
  fold_right (fun v acc => match v with Fin q => q + acc | NaN => acc end) 0 s.

(** [s.dropna()] *)
Definition dropna (s : list pyfloat) : list Q :=
  flat_map (fun v => match v with Fin q => [q] | NaN => [] end) s.

Definition mean (series : list cell) : pyfloat :=
  let s := dropna (map to_numeric series) in
  if Nat.eqb (length s) 0 then NaN
  else Fin (fold_right Qplus 0 s / inject_Z (Z.of_nat (length s))).

Definition sum_all (df : DataFrame) (value_col : string) : pyfloat :=
  if negb (has_column df value_col) then NaN
  else Fin (sum_skipna (map (fun r => to_numeric (r value_col)) (rows df))).

(** The order of [sort_values] on a key column: numbers in increasing
    order, missing keys last.  The node and time columns are taken to be
    numeric columns ([ObjectivesSpec.numeric_keys]); a text key, by which
    pandas would sort and group, is outside the model and stands here as a
    missing one. *)
Definition key (c : cell) : option Q :=
  match c with
  | Num q => Some q
  | Text | Null => None
  end.

Definition key_le (a b : option Q) : bool :=
  match a, b with
  | Some x, Some y => Qle_bool x y
  | Some _, None => true
  | None, Some _ => false
  | None, None => true
  end.

(** [r1] does not come after [r2] in the order by [node_col], then
    [time_col]. *)
Definition row_le (node_col time_col : string) (r1 r2 : row) : bool :=
  let a := key (r1 node_col) in
  let b := key (r2 node_col) in
  if key_le a b then
    if key_le b a then key_le (key (r1 time_col)) (key (r2 time_col)) else true
  else false.

Fixpoint insert_row (node_col time_col : string) (r : row) (l : list row) : list row :=
  match l with
  | [] => [r]
  | x :: l' =>
      if row_le node_col time_col r x then r :: x :: l'
      else x :: insert_row node_col time_col r l'
  end.

(** [df.sort_values([node_col, time_col])]: a stable sort. *)
Definition sort_values (node_col time_col : string) (l : list row) : list row :=
  fold_right (insert_row node_col time_col) [] l.

(** The keys of [groupby(node_col)]: the distinct node values; rows without
    a node value belong to no group. *)
Fixpoint distinct (l : list Q) : list Q :=
  match l with
  | [] => []
  | q :: l' => if existsb (Qeq_bool q) l' then distinct l' else q :: distinct l'
  end.

Definition node_keys (node_col : string) (l : list row) : list Q :=
  distinct (flat_map (fun r => match key (r node_col) with
                               | Some q => [q]
                               | None => []
                               end) l).

Definition group (node_col : string) (k : Q) (l : list row) : list row :=
  List.filter (fun r => match key (r node_col) with
                        | Some q => Qeq_bool q k
                        | None => false
                        end) l.

Definition is_null (c : cell) : bool :=
  match c with Null => true | _ => false end.

(** [g.first()] and [g.last()]: the first and the last value of the group
    that is not missing. *)
Definition first_valid (cells : list cell) : cell :=
  match List.filter (fun c => negb (is_null c)) cells with
  | c :: _ => c
  | [] => Null
  end.

Definition last_valid (cells : list cell) : cell := first_valid (rev cells).

(** [(end - start).clip(lower=0)] for one node, the difference being
    exact. *)
Definition delta_clip (e s : pyfloat) : pyfloat :=
  match e, s with
  | Fin b, Fin a => Fin (if Qle_bool 0 (b - a) then b - a else 0)
  | _, _ => NaN
  end.

(** The series [per_node], indexed by node. *)
Definition per_node (df : DataFrame) (value_col node_col time_col : string)
  : list (Q * pyfloat) :=
  let df_sorted := sort_values node_col time_col (rows df) in
  map (fun k =>
         let cells := map (fun r => r value_col) (group node_col k df_sorted) in
         (k, delta_clip (to_numeric (last_valid cells))
                        (to_numeric (first_valid cells))))
      (node_keys node_col df_sorted).

(** [sum_last_minus_first]; sorting by a column that is absent raises
    [KeyError]: [None]. *)
Definition sum_last_minus_first (df : DataFrame)
    (value_col node_col time_col : string) : option pyfloat :=
  if negb (has_column df value_col) then Some NaN
  else if has_column df node_col && has_column df time_col then
    Some (Fin (sum_skipna (map snd (per_node df value_col node_col time_col))))
  else None.

(** [compute_objectives], from the table read from the CSV file. *)
Definition compute_objectives (df : DataFrame) : option Pareto.objective_vector :=
  match sum_last_minus_first df "server_received" "node" "root_time_now" with
  | Some t =>
      Some {| Pareto.latency :=
                if has_column df "rtt_latency"
                then mean (map (fun r => r "rtt_latency"%string) (rows df))
                else NaN;
              Pareto.energy := sum_all df "total_energy_mj";
              Pareto.throughput := t |}
  | None => None
  end.

(** What a cell adds to a sum that skips the values that do not parse. *)
Definition contribution (c : cell) : Q :=
  match c with
  | Num q => q
  | Text | Null => 0
  end.

(** *** Examples *)

Definition mkrow (cells : list (string * cell)) : row :=
  fun col =>
    match List.find (fun kv => String.eqb col (fst kv)) cells with
    | Some kv => snd kv
    | None => Null
    end.

(** The rows [node=1,t=0,c=5] and [node=1,t=1,c=3]. *)
Definition decreasing_counter : DataFrame :=
  {| columns := ["node"; "root_time_now"; "server_received"]%string;
     rows := [mkrow [("node", Num 1); ("root_time_now", Num 0);
                     ("server_received", Num 5)]%string;
              mkrow [("node", Num 1); ("root_time_now", Num 1);
                     ("server_received", Num 3)]%string] |}.

(** Two nodes out of order, with an energy column holding a value that does
    not parse. *)
Definition mixed_table : DataFrame :=
  {| columns := ["node"; "root_time_now"; "server_received"; "total_energy_mj"]%string;
     rows := [mkrow [("node", Num 2); ("root_time_now", Num 1);
                     ("server_received", Num 9); ("total_energy_mj", Num (3 # 2))]%string;
              mkrow [("node", Num 1); ("root_time_now", Num 1);
                     ("server_received", Num 3); ("total_energy_mj", Text)]%string;
              mkrow [("node", Num 2); ("root_time_now", Num 0);
                     ("server_received", Num 4); ("total_energy_mj", Num 2)]%string;
              mkrow [("node", Num 1); ("root_time_now", Num 0);
                     ("server_received", Num 5); ("total_energy_mj", Null)]%string] |}.

End Objectives.

(** ** Vocabulary for further facts about the ranking *)

Module ParetoLayers.
Import Pareto ParetoSpec.

(** Every recorded dominator of a candidate of a front lies in an earlier
    front. *)
Definition layered (h : heap) (population : list addr) (fs : list (list addr)) : Prop :=
  forall j Fj q p, fs !! j = Some Fj -> q ∈ Fj -> p ∈ population ->
    edge h p q = true ->
    exists j' Fj', (j' < j)%nat /\ fs !! j' = Some Fj' /\ p ∈ Fj'.

(** Every candidate of a front after the first has a recorded dominator in
    the front just before. *)
Definition chained (h : heap) (fs : list (list addr)) : Prop :=
  forall j Fj q, fs !! Datatypes.S j = Some Fj -> q ∈ Fj ->
    exists Fi p, fs !! j = Some Fi /\ p ∈ Fi /\ edge h p q = true.

(** What holds of the state of the second phase for any population, with [i]
    the index of the current front: the fronts before it are not empty; the
    lists hold candidates of the population, those of [S] and of the fronts
    after the first only candidates that have a recorded dominator; a
    candidate that no front lists is as at the call; a listed candidate
    carries the index of a front that lists it. *)
Definition settled (h : heap) (population : list addr) (i : nat) (st : state) : Prop :=
  length (fronts st) = Datatypes.S i /\
  (forall j F, (j < i)%nat -> fronts st !! j = Some F -> F <> []) /\
  supported population st /\
  (forall k l x, S st !! k = Some l -> x ∈ l ->
     exists q, q ∈ population /\ edge h q x = true) /\
  (forall j F x, fronts st !! Datatypes.S j = Some F -> x ∈ F ->
     exists q, q ∈ population /\ edge h q x = true) /\
  (forall a, (forall F, F ∈ fronts st -> a ∉ F) -> hp st a = h a) /\
  (forall j F x, fronts st !! j = Some F -> x ∈ F ->
     exists r F', rank (hp st x) = Some r /\ (j <= r)%nat /\
                  fronts st !! r = Some F' /\ x ∈ F').

(** Some objective of the vector is NaN. *)
Definition has_nan (o : objective_vector) : Prop :=
  latency o = NaN \/ energy o = NaN \/ throughput o = NaN.

(** The ranking scenario with a fifth candidate whose latency was not
    measured. *)
Definition unmeasured : heap := fun a =>
  match a with
  | 4%nat =>
      {| cid := "U"%string; generation := None; origin := "MILP"%string;
         objectives := {| latency := NaN; energy := Fin (inject_Z 20);
                          throughput := Fin (inject_Z 1) |};
         rank := None |}
  | _ => ParetoExamples.scenario a
  end.

Definition unmeasured_population : list addr := [0; 1; 2; 3; 4]%nat.

End ParetoLayers.

(** ** Vocabulary for the statements about [Objectives] *)

Module ObjectivesSpec.
Import Objectives.
Local Open Scope Q_scope.

(** Two sort keys that [sort_values] does not tell apart. *)
Definition key_eq (a b : option Q) : Prop :=
  match a, b with
  | Some x, Some y => x == y
  | None, None => True
  | _, _ => False
  end.

(** Two rows with the same node and the same time. *)
Definition same_slot (node_col time_col : string) (r1 r2 : row) : Prop :=
  key_eq (key (r1 node_col)) (key (r2 node_col)) /\
  key_eq (key (r1 time_col)) (key (r2 time_col)).

(** [l] is in the order of [row_le]. *)
Fixpoint sorted_rows (node_col time_col : string) (l : list row) : Prop :=
  match l with
  | [] => True
  | r :: l' =>
      (forall x, In x l' -> row_le node_col time_col r x = true) /\
      sorted_rows node_col time_col l'
  end.

(** [mixed_table] with its rows in the opposite order. *)
Definition mixed_table_reversed : DataFrame :=
  {| columns := columns mixed_table; rows := rev (rows mixed_table) |}.

(** The table in which the cells of [col] that do not parse are missing
    values. *)
Definition coerce (col : string) (df : DataFrame) : DataFrame :=
  {| columns := columns df;
     rows := map (fun (r : row) (c : string) =>
                    if String.eqb c col
                    then match r c with Text => Null | v => v end
                    else r c) (rows df) |}.


Definition magnitude (c : cell) : Q :=
  match c with
  | Num q => Qabs q
  | Text | Null => 0
  end.

(** A number that is a multiple of [2^-k]. *)
Definition on_grid (k : Z) (c : cell) : Prop :=
  match c with
  | Num q => exists z : Z, q * inject_Z (2 ^ k) == inject_Z z
  | Text | Null => True
  end.

(** The numbers among [cells] are multiples of [2^-k] whose absolute values
    sum to at most [2^bits * 2^-k].  With [bits <= 53] every sum of some of
    them, and every difference of two of them when [bits <= 52], is such a
    multiple below [2^53 * 2^-k]: a binary64 number, and an int64 when all
    the cells are integers.  On such a column the additions and subtractions
    of pandas are exact in either type and in any order. *)
Definition exact_cells (k bits : Z) (cells : list cell) : Prop :=
  (0 <= k <= 1074)%Z /\
  (forall c, In c cells -> on_grid k c) /\
  fold_right Qplus 0 (map magnitude cells) * inject_Z (2 ^ k) <= inject_Z (2 ^ bits).





End ObjectivesSpec.

(** ** Loading the populations *)

(** [load_milp_population], [load_simlab_population] and the part of
    [main] up to the sort, in [data/pareto_global.py] and in
    [data/simulation/milp-mobile/pareto_analysis.py].  The file system and
    the JSON files are inputs: the sorted listing of the case directories
    with the objectives read from [objectives.json] where the file exists,
    and the SimLab file as the list of its generations (the keys already
    parsed by [int]) with their individuals. *)
Module Loaders.
Import Pareto.
Local Open Scope string_scope.

Definition case_listing : Type := list (string * option objective_vector).
Definition simlab_data : Type := list (Z * list (string * objective_vector)).

(** [load_milp_population] of [pareto_global.py] *)
Definition load_milp_population (case_dirs : case_listing) : list candidate :=
  flat_map (fun case_dir =>
              match case_dir.2 with
              | None => []
              | Some o => [{| cid := "MILP-" ++ case_dir.1; generation := Some (-1);
                              origin := "MILP"; objectives := o; rank := None |}]
              end) case_dirs.

(** [load_milp_population] of [pareto_analysis.py]: the id is the name of
    the directory and there is no generation. *)
Definition load_milp_only (case_dirs : case_listing) : list candidate :=
  flat_map (fun case_dir =>
              match case_dir.2 with
              | None => []
              | Some o => [{| cid := case_dir.1; generation := None;
                              origin := "MILP"; objectives := o; rank := None |}]
              end) case_dirs.

Definition load_simlab_population (data : simlab_data) : list candidate :=
  flat_map (fun gen =>
              map (fun ind => {| cid := ind.1; generation := Some gen.1;
                                 origin := "SimLab"; objectives := ind.2;
                                 rank := None |}) gen.2) data.

(** The ids read from the SimLab file, in the order of the file. *)
Definition simulation_ids (data : simlab_data) : list string :=
  flat_map (fun gen => map fst gen.2) data.

(** The dicts of a population as objects of a heap: the candidate number
    [a] of the list lives at the address [a]. *)
Definition blank : candidate :=
  {| cid := ""; generation := None; origin := "";
     objectives := {| latency := NaN; energy := NaN; throughput := NaN |};
     rank := None |}.

Definition alloc (l : list candidate) : heap := fun a => nth a l blank.
Definition addresses (l : list candidate) : list addr := seq 0 (length l).

(** [main] of [pareto_global.py], up to the call of the sort. *)
Definition main_population (case_dirs : case_listing) (data : simlab_data)
  : list candidate :=
  load_milp_population case_dirs ++ load_simlab_population data.

Definition main (case_dirs : case_listing) (data : simlab_data)
  : option (heap * list (list addr)) :=
  let population := main_population case_dirs data in
  fast_nondominated_sort (alloc population) (addresses population).

(** [main] of [pareto_analysis.py]: [None] stands for the early return on
    an empty population. *)
Definition main_milp (case_dirs : case_listing)
  : option (option (heap * list (list addr))) :=
  match load_milp_only case_dirs with
  | [] => None
  | population =>
      Some (fast_nondominated_sort (alloc population) (addresses population))
  end.

(** *** Examples *)

Definition two_cases : case_listing :=
  [("case_a", Some (ParetoExamples.objs 4 4 60)); ("case_b", None);
   ("case_c", Some (ParetoExamples.objs 5 5 50))].

Definition two_generations : simlab_data :=
  [(0%Z, [("sim-1", ParetoExamples.objs 3 8 55)]);
   (1%Z, [("sim-2", ParetoExamples.objs 10 10 10)])].

End Loaders.

(** ** A mote that does not move *)

Module TrajectoryExamples.
Import Trajectory.

(** One unit segment and speed 0. *)
Definition stalled : mote :=
  {| functionPath := [straight 0 1]; path_sum := 1%Q; speed := 0%Q;
     timeStep := 1%Q; isRoundTrip := false |}.

End TrajectoryExamples.

(** ** Building the simulation files *)

(** The motes written by [update_simulation_xml] of
    [batch_runner/lib/replace_xml.py] and [convert_simulation_files] of
    [batch_runner/lib/cooja_files.py].  Of the XML document the model keeps
    the motes added, in the order of the loop, each with the mote type it
    is attached to; of the template, whether it has the two mote types. *)
Module CoojaFiles.
Import Trajectory.

Inductive mote_type : Type := Server | Client.

Record xml_mote : Type := mkXmlMote {
  xm_type : mote_type;
  xm_pos : Q * Q;
  xm_id : nat
}.

Record template : Type := mkTemplate {
  motetype_root : bool;
  motetype_client : bool
}.

(** [mote_type is not None] *)
Definition present (tpl : template) (t : mote_type) : bool :=
  match t with
  | Server => motetype_root tpl
  | Client => motetype_client tpl
  end.

(** The body of [for i, (x, y) in enumerate(fixed_positions +
    mobile_positions)]. *)
Definition add_mote (tpl : template) (root_motes : list nat) (i : nat) (p : Q * Q)
  : list xml_mote :=
  let mote_type := if existsb (Nat.eqb (i + 1)) root_motes then Server else Client in
  if present tpl mote_type
  then [{| xm_type := mote_type; xm_pos := p; xm_id := (i + 1)%nat |}]
  else [].

Fixpoint add_motes (tpl : template) (root_motes : list nat) (i : nat)
    (ps : list (Q * Q)) : list xml_mote :=
  match ps with
  | [] => []
  | p :: ps' => add_mote tpl root_motes i p ++ add_motes tpl root_motes (Datatypes.S i) ps'
  end.

Record simulation_xml : Type := mkSimulationXml {
  motes : list xml_mote;
  mobility_plugin : bool;
  timeout_ms : Q
}.

(** [update_simulation_xml]: the motes, whether the mobility plugin is
    kept, and the argument of [TIMEOUT]. *)
Definition update_simulation_xml (tpl : template) (fixed mobile : list (Q * Q))
    (root_motes : list nat) (simulation_time : Q) : simulation_xml :=
  {| motes := add_motes tpl root_motes 0 (fixed ++ mobile);
     mobility_plugin := match mobile with [] => false | _ => true end;
     timeout_ms := (simulation_time * 60000 + 11000)%Q |}.

Record simulation_files : Type := mkSimulationFiles {
  positions_dat : option positions;
  simulation_csc : simulation_xml
}.

(** [convert_simulation_files]: the positions file is removed when there is
    no mobile mote; the first mote is the server. *)
Definition convert_simulation_files (tpl : template) (fixedMotes : list (Q * Q))
    (mobileMotes : list mote) (duration : Q) : option simulation_files :=
  match generate_positions_from_json fixedMotes mobileMotes with
  | None => None
  | Some r =>
      Some {| positions_dat := match start_positions r with
                               | [] => None
                               | _ => Some r
                               end;
              simulation_csc :=
                update_simulation_xml tpl (fixed_positions r) (start_positions r)
                                      [1%nat] duration |}
  end.

(** The loop that removes the blank lines of the pretty-printed document,
    except inside a CDATA section.  What the loop asks of a line is kept
    abstract: whether it contains ["<![CDATA["], whether it contains
    ["]]>"], and whether [line.strip()] is empty. *)
Section blank_lines.
Variable line : Type.
Variables (has_cdata_open has_cdata_close is_blank : line -> bool).

(** One iteration, on the pair [(inside_cdata, lines_without_blanks)]. *)
Definition blank_step (acc : bool * list line) (l : line) : bool * list line :=
  let '(inside_cdata, lines_without_blanks) := acc in
  let inside1 := if has_cdata_open l then true else inside_cdata in
  let kept := if inside1 || negb (is_blank l)
              then lines_without_blanks ++ [l] else lines_without_blanks in
  let inside2 := if has_cdata_close l then false else inside1 in
  (inside2, kept).

Definition remove_blank_lines (lines : list line) : list line :=
  (fold_left blank_step lines (false, [])).2.

End blank_lines.

Definition full_template : template :=
  {| motetype_root := true; motetype_client := true |}.

End CoojaFiles.

(** * Proofs *)

(** ** The order on floats and the dominance relation *)

Import Pareto.

Lemma fle_spec a b : fle a b = true <-> exists x y, a = Fin x /\ b = Fin y /\ (x <= y)%Q.
Proof.
  destruct a as [x|], b as [y|]; simpl; split; try discriminate.
  - intros H. exists x, y. by rewrite <- Qle_bool_iff.
  - intros (x' & y' & [= ->] & [= ->] & H). by apply Qle_bool_iff.
  - intros (x' & y' & _ & [=] & _).
  - intros (x' & y' & [=] & _).
  - intros (x' & y' & [=] & _).
Qed.

Lemma flt_spec a b : flt a b = true <-> exists x y, a = Fin x /\ b = Fin y /\ (x < y)%Q.
Proof.
  destruct a as [x|], b as [y|]; simpl; split; try discriminate.
  - intros H. exists x, y. repeat split. apply Qnot_le_lt. intros Hle.
    apply Qle_bool_iff in Hle. rewrite Hle in H. discriminate.
  - intros (x' & y' & [= ->] & [= ->] & H). apply negb_true_iff.
    destruct (Qle_bool y' x') eqn:E; [|done]. apply Qle_bool_iff in E. lra.
  - intros (x' & y' & _ & [=] & _).
  - intros (x' & y' & [=] & _).
  - intros (x' & y' & [=] & _).
Qed.
Lemma dominates_spec a b :
  dominates a b = true <->
  exists la ea ta lb eb tb,
    a = mkObjectives (Fin la) (Fin ea) (Fin ta) /\
    b = mkObjectives (Fin lb) (Fin eb) (Fin tb) /\
    (la <= lb /\ ea <= eb /\ tb <= ta /\ (la < lb \/ ea < eb \/ tb < ta))%Q.
Proof.
  unfold dominates, fge, fgt. destruct a as [l1 e1 t1], b as [l2 e2 t2]; simpl.
  rewrite !andb_true_iff, !orb_true_iff, !fle_spec, !flt_spec. split.
  - intros [[[(la & lb & -> & -> & Hl) (ea & eb & -> & -> & He)] (tb & ta & -> & -> & Ht)] Hs].
    exists la, ea, ta, lb, eb, tb. repeat split; try done.
    destruct Hs as [[(? & ? & [= <-] & [= <-] & ?)|(? & ? & [= <-] & [= <-] & ?)]
                   |(? & ? & [= <-] & [= <-] & ?)]; auto.
  - intros (la & ea & ta & lb & eb & tb & [= -> -> ->] & [= -> -> ->] & Hl & He & Ht & Hs).
    split; [repeat split; eauto 10|].
    destruct Hs as [?|[?|?]]; eauto 10.
Qed.
Lemma dominates_irrefl a : dominates a a = false.
Proof.
  destruct (dominates a a) eqn:E; [|done].
  apply dominates_spec in E as (la & ea & ta & lb & eb & tb & -> & [= <- <- <-] & H). lra.
Qed.

Lemma dominates_asym a b : dominates a b = true -> dominates b a = false.
Proof.
  intros Hab. destruct (dominates b a) eqn:E; [|done].
  apply dominates_spec in Hab as (la & ea & ta & lb & eb & tb & -> & -> & H).
  apply dominates_spec in E as (? & ? & ? & ? & ? & ? & [= <- <- <-] & [= <- <- <-] & H').
  lra.
Qed.

Lemma dominates_trans a b c :
  dominates a b = true -> dominates b c = true -> dominates a c = true.
Proof.
  intros Hab Hbc.
  apply dominates_spec in Hab as (la & ea & ta & lb & eb & tb & -> & -> & H).
  apply dominates_spec in Hbc as (? & ? & ? & lc & ec & tc & [= <- <- <-] & -> & H').
  apply dominates_spec. exists la, ea, ta, lc, ec, tc. repeat split; try lra.
Qed.
Import Pareto ParetoSpec.

Lemma data_eq_refl c : data_eq c c.
Proof. by repeat split. Qed.

Lemma data_eq_trans c1 c2 c3 : data_eq c1 c2 -> data_eq c2 c3 -> data_eq c1 c3.
Proof. intros (?&?&?&?) (?&?&?&?). repeat split; congruence. Qed.

Lemma same_data_refl h : same_data h h.
Proof. intros a. apply data_eq_refl. Qed.

Lemma same_data_trans h1 h2 h3 : same_data h1 h2 -> same_data h2 h3 -> same_data h1 h3.
Proof. intros H1 H2 a. eapply data_eq_trans; eauto. Qed.

Lemma set_rank_data h a r : same_data h (set_rank h a r).
Proof. intros b. unfold set_rank. destruct (Nat.eqb b a); by repeat split. Qed.

Lemma set_rank_same h a r : rank (set_rank h a r a) = Some r.
Proof. unfold set_rank. by rewrite Nat.eqb_refl. Qed.

Lemma set_rank_other h a r b : b <> a -> set_rank h a r b = h b.
Proof. intros Hne. unfold set_rank. by apply Nat.eqb_neq in Hne as ->. Qed.

Lemma same_data_cid h h' a : same_data h h' -> cid (h' a) = cid (h a).
Proof. intros H. apply H. Qed.

Lemma same_data_obj h h' a : same_data h h' -> objectives (h' a) = objectives (h a).
Proof. intros H. apply H. Qed.

Lemma same_data_rival h h' p q : same_data h h' -> rival h' p q = rival h p q.
Proof. intros H. unfold rival. by rewrite !(same_data_cid h h'). Qed.

Lemma same_data_beats h h' p q : same_data h h' -> beats h' p q = beats h p q.
Proof. intros H. unfold beats. by rewrite !(same_data_obj h h'). Qed.

Lemma same_data_edge h h' p q : same_data h h' -> edge h' p q = edge h p q.
Proof. intros H. unfold edge. by rewrite (same_data_rival h h'), (same_data_beats h h'). Qed.

Lemma rival_sym h p q : rival h p q = rival h q p.
Proof. unfold rival. by rewrite String.eqb_sym. Qed.

Lemma rival_true h p q : rival h p q = true <-> cid (h p) <> cid (h q).
Proof. unfold rival. rewrite negb_true_iff. apply String.eqb_neq. Qed.

Lemma beats_irrefl h p : beats h p p = false.
Proof. apply dominates_irrefl. Qed.

Lemma beats_asym h p q : beats h p q = true -> beats h q p = false.
Proof. apply dominates_asym. Qed.

Lemma beats_trans h p q r : beats h p q = true -> beats h q r = true -> beats h p r = true.
Proof. apply dominates_trans. Qed.

(** *** The inner loop of the first pass *)

Lemma compare_step_frame p st q :
  hp (compare_step p st q) = hp st /\ fronts (compare_step p st q) = fronts st.
Proof. unfold compare_step. repeat case_match; done. Qed.

Lemma compare_fold_frame p l st :
  hp (fold_left (compare_step p) l st) = hp st /\
  fronts (fold_left (compare_step p) l st) = fronts st.
Proof.
  revert st. induction l as [|q l IH]; intros st; simpl; [done|].
  destruct (IH (compare_step p st q)) as [-> ->]. apply compare_step_frame.
Qed.

Lemma compare_step_closed p st q :
  let pid := cid (hp st p) in
  S (compare_step p st q) =
    (if edge (hp st) p q then <[pid := S_at st pid ++ [q]]> (S st) else S st) /\
  n (compare_step p st q) =
    (if edge (hp st) q p then <[pid := n_at st pid + 1]> (n st) else n st).
Proof.
  unfold edge. rewrite (rival_sym (hp st) q p). unfold rival, beats, compare_step.
  destruct (String.eqb _ _); simpl; [done|].
  destruct (dominates (objectives (hp st p)) _) eqn:Ed; simpl.
  - by rewrite (dominates_asym _ _ Ed).
  - by destruct (dominates (objectives (hp st q)) _).
Qed.

(** With [S[pid]] and [n[pid]] initialised, the inner loop for [p] appends to
    [S[pid]] the candidates that [p] dominates and adds to [n[pid]] the
    number of candidates that dominate [p], among those with another id. *)
Lemma compare_fold_closed p l st :
  let pid := cid (hp st p) in
  let st' := fold_left (compare_step p) l st in
  is_Some (S st !! pid) -> is_Some (n st !! pid) ->
  S st' = <[pid := S_at st pid ++ filter (fun q => edge (hp st) p q) l]> (S st) /\
  n st' = <[pid := n_at st pid +
                   Z.of_nat (length (filter (fun q => edge (hp st) q p) l))]> (n st).
Proof.
  revert st. induction l as [|q l IH]; intros st pid st' [s0 Hs0] [n0 Hn0].
  { subst st'. simpl. unfold S_at, n_at. rewrite Hs0, Hn0. simpl.
    rewrite app_nil_r, Z.add_0_r. by rewrite !insert_id. }
  subst st'. cbn [fold_left]. rewrite !filter_cons.
  destruct (compare_step_frame p st q) as [Hh _].
  destruct (compare_step_closed p st q) as [HS Hn]. fold pid in HS, Hn.
  specialize (IH (compare_step p st q)). cbn zeta in IH. rewrite Hh in IH.
  fold pid in IH. unfold S_at, n_at in *. rewrite HS, Hn in IH. clear HS Hn.
  destruct (edge (hp st) p q), (edge (hp st) q p); simpl in *.
  - destruct IH as [-> ->]; [by rewrite lookup_insert_eq..|].
    rewrite !lookup_insert_eq, !insert_insert_eq; simpl.
    rewrite <- app_assoc. split; [done|]. f_equal. lia.
  - destruct IH as [-> ->]; [by rewrite lookup_insert_eq | by eauto |].
    rewrite !lookup_insert_eq, !insert_insert_eq; simpl.
    by rewrite <- app_assoc.
  - destruct IH as [-> ->]; [by eauto | by rewrite lookup_insert_eq |].
    rewrite !lookup_insert_eq, !insert_insert_eq; simpl.
    split; [done|]. f_equal. lia.
  - apply IH; eauto.
Qed.

(** *** The outer loop of the first pass *)

Lemma filter_ext_bool (f g : addr -> bool) (l : list addr) :
  (forall q, f q = g q) -> filter (fun q => f q) l = filter (fun q => g q) l.
Proof. intros H. apply list_filter_iff. intros q. by rewrite H. Qed.

Lemma count_step_closed h population st p :
  same_data h (hp st) ->
  let pid := cid (h p) in
  let st' := count_step population st p in
  S st' = <[pid := dominated_by h population p]> (S st) /\
  n st' = <[pid := Z.of_nat (length (dominators h population p))]> (n st) /\
  fronts st' = (if unbeaten h population p then append_front0 (fronts st) p
                else fronts st) /\
  hp st' = (if unbeaten h population p then set_rank (hp st) p 0 else hp st).
Proof.
  intros Hd pid st'. subst st'. unfold count_step.
  set (st0 := {| S := <[cid (hp st p) := []]> (S st) |}).
  destruct (compare_fold_frame p population st0) as [Hh Hf].
  destruct (compare_fold_closed p population st0) as [HS Hn].
  { simpl. rewrite lookup_insert_eq. eauto. }
  { simpl. rewrite lookup_insert_eq. eauto. }
  unfold S_at, n_at in *. simpl in HS, Hn, Hh, Hf.
  rewrite !lookup_insert_eq, !insert_insert_eq in *. simpl in HS, Hn.
  rewrite (same_data_cid h (hp st) p Hd) in *. fold pid in HS, Hn |- *.
  assert (HS' : S (fold_left (compare_step p) population st0) =
                <[pid := dominated_by h population p]> (S st)).
  { rewrite HS. f_equal. apply filter_ext_bool. intros q. by apply same_data_edge. }
  assert (Hn' : n (fold_left (compare_step p) population st0) =
                <[pid := Z.of_nat (length (dominators h population p))]> (n st)).
  { rewrite Hn, Z.add_0_l. unfold dominators. do 3 f_equal.
    apply filter_ext_bool. intros q. by apply same_data_edge. }
  clear HS Hn. rewrite Hn', HS', Hh, Hf, lookup_insert_eq. simpl.
  unfold unbeaten.
  by destruct (length (dominators h population p)) eqn:E.
Qed.

Lemma owner_snoc h l p k :
  owner h (l ++ [p]) k = if String.eqb (cid (h p)) k then Some p else owner h l k.
Proof. unfold owner. by rewrite rev_unit. Qed.

Lemma owner_Some h l k p : owner h l k = Some p -> p ∈ l /\ cid (h p) = k.
Proof.
  unfold owner. intros H. apply List.find_some in H as [Hin Heq].
  apply String.eqb_eq in Heq. split; [|done].
  apply list_elem_of_In. by apply List.in_rev.
Qed.

Lemma owner_None h l k : owner h l k = None -> forall p, p ∈ l -> cid (h p) <> k.
Proof.
  unfold owner. intros H p Hp. apply list_elem_of_In, List.in_rev in Hp.
  apply (List.find_none _ _ H) in Hp. by apply String.eqb_neq.
Qed.

Lemma owner_is_Some h l p : p ∈ l -> is_Some (owner h l (cid (h p))).
Proof.
  intros Hp. destruct (owner h l (cid (h p))) eqn:E; [eauto|].
  by destruct (owner_None _ _ _ E p Hp).
Qed.

(** With pairwise distinct ids every candidate owns its id. *)
Lemma owner_NoDup h l p :
  NoDup (cid ∘ h <$> l) -> p ∈ l -> owner h l (cid (h p)) = Some p.
Proof.
  intros Hnd Hp. destruct (owner_is_Some h l p Hp) as [p' E]. rewrite E.
  apply owner_Some in E as [Hp' Heq]. f_equal.
  apply list_elem_of_lookup in Hp as [i Hi], Hp' as [j Hj].
  assert (i = j) as ->; [|congruence].
  eapply NoDup_lookup; [exact Hnd|..]; rewrite list_lookup_fmap.
  - by rewrite Hi.
  - rewrite Hj. simpl. by rewrite Heq.
Qed.

(** The state after the outer loop has run over [l]. *)
Lemma count_fold_closed h population l st f0 rest :
  same_data h (hp st) -> fronts st = f0 :: rest ->
  let st' := fold_left (count_step population) l st in
  same_data h (hp st') /\
  fronts st' = (f0 ++ filter (fun p => unbeaten h population p) l) :: rest /\
  (forall k, S st' !! k = match owner h l k with
                          | Some p => Some (dominated_by h population p)
                          | None => S st !! k
                          end) /\
  (forall k, n st' !! k = match owner h l k with
                          | Some p => Some (Z.of_nat (length (dominators h population p)))
                          | None => n st !! k
                          end) /\
  (forall a, a ∈ filter (fun p => unbeaten h population p) l ->
             rank (hp st' a) = Some 0%nat) /\
  (forall a, a ∉ filter (fun p => unbeaten h population p) l -> hp st' a = hp st a) /\
  (size (n st') <= size (n st) + length l)%nat.
Proof.
  intros Hd Hf. induction l as [|p l IH] using rev_ind; cbn zeta.
  { simpl. rewrite app_nil_r. split_and!; try done; [|lia].
    by intros a ?%elem_of_nil. }
  rewrite fold_left_app. cbn [fold_left].
  cbn zeta in IH. destruct IH as (IHd & IHf & IHS & IHn & IHr & IHo & IHz).
  set (st1 := fold_left (count_step population) l st) in *.
  destruct (count_step_closed h population st1 p IHd) as (HS & Hn & Hfr & Hh).
  rewrite filter_app, filter_cons, filter_nil.
  split_and!.
  - rewrite Hh. destruct (unbeaten h population p); [|done].
    eapply same_data_trans; [exact IHd|apply set_rank_data].
  - rewrite Hfr, IHf. destruct (unbeaten h population p); simpl.
    + by rewrite app_assoc.
    + by rewrite app_nil_r.
  - intros k. rewrite HS, owner_snoc, lookup_insert.
    destruct (String.eqb (cid (h p)) k) eqn:E.
    + apply String.eqb_eq in E. by rewrite decide_True.
    + apply String.eqb_neq in E. by rewrite decide_False.
  - intros k. rewrite Hn, owner_snoc, lookup_insert.
    destruct (String.eqb (cid (h p)) k) eqn:E.
    + apply String.eqb_eq in E. by rewrite decide_True.
    + apply String.eqb_neq in E. by rewrite decide_False.
  - intros a Ha. rewrite Hh. destruct (unbeaten h population p) eqn:E; simpl in Ha.
    + apply elem_of_app in Ha as [Ha| ->%list_elem_of_singleton].
      * destruct (decide (a = p)) as [->|Hne]; [apply set_rank_same|].
        rewrite set_rank_other by done. by apply IHr.
      * apply set_rank_same.
    + rewrite app_nil_r in Ha. by apply IHr.
  - intros a Ha. rewrite Hh. destruct (unbeaten h population p) eqn:E; simpl in Ha.
    + rewrite not_elem_of_app, list_elem_of_singleton in Ha. destruct Ha as [Ha Hne].
      rewrite set_rank_other by done. by apply IHo.
    + rewrite app_nil_r in Ha. by apply IHo.
  - rewrite Hn, length_app. simpl.
    pose proof (map_size_insert (cid (h p))
                  (Z.of_nat (length (dominators h population p))) (n st1)) as Hsz.
    destruct (n st1 !! cid (h p)); rewrite Hsz; unfold id; lia.
Qed.

(** *** The second phase: counters and the fuel of the loop *)

Lemma pending_decrement (m : gmap string Z) k :
  let v := default 0 (m !! k) - 1 in
  (pending (<[k := v]> m) + (if Z.eqb v 0 then 1 else 0) <= pending m)%nat.
Proof.
  intros v. unfold pending. rewrite map_filter_insert. simpl.
  destruct (m !! k) as [x|] eqn:Hk; simpl in v.
  - case_decide as Hv.
    + assert (filter (fun kv : string * Z => 0 < kv.2) m !! k = Some x) as Hfk.
      { apply map_lookup_filter_Some. simpl. split; [done|]. lia. }
      rewrite map_size_insert, Hfk. unfold id.
      destruct (Z.eqb_spec v 0); lia.
    + rewrite map_filter_delete, map_size_delete.
      destruct (Z.eqb_spec v 0) as [Hv0|Hv0].
      * assert (filter (fun kv : string * Z => 0 < kv.2) m !! k = Some x) as Hfk.
        { apply map_lookup_filter_Some. simpl. split; [done|]. lia. }
        rewrite Hfk. simpl.
        assert (size (filter (fun kv : string * Z => 0 < kv.2) m) <> 0%nat); [|lia].
        intros Hz%map_size_empty_inv. by rewrite Hz, lookup_empty in Hfk.
      * destruct (filter _ m !! k); unfold id; simpl; lia.
  - subst v. case_decide as Hv; [simpl in Hv; lia|].
    rewrite map_filter_delete, map_size_delete.
    destruct (filter _ m !! k); unfold id; simpl; lia.
Qed.

Lemma pending_le_size (m : gmap string Z) : (pending m <= size m)%nat.
Proof. apply map_subseteq_size, map_filter_subseteq. Qed.

Lemma relax_step_closed i st nx q :
  let qid := cid (hp st q) in
  let hit := Z.eqb (n_at st qid - 1) 0 in
  relax_step i (st, nx) q =
    ({| S := S st; n := <[qid := n_at st qid - 1]> (n st); fronts := fronts st;
        hp := if hit then set_rank (hp st) q (i + 1) else hp st;
        calls := calls st |},
     if hit then nx ++ [q] else nx).
Proof.
  intros qid hit. unfold relax_step. fold qid.
  match goal with |- context [Z.eqb (n_at ?s qid) 0] =>
    replace (n_at s qid) with (n_at st qid - 1)
      by (unfold n_at at 2; simpl; by rewrite lookup_insert_eq) end.
  fold hit. by destruct hit.
Qed.

Lemma relax_fold_frame i l st nx :
  let r := fold_left (relax_step i) l (st, nx) in
  S r.1 = S st /\ fronts r.1 = fronts st /\ calls r.1 = calls st /\
  same_data (hp st) (hp r.1) /\
  (pending (n r.1) + length r.2 <= pending (n st) + length nx)%nat.
Proof.
  revert st nx. induction l as [|q l IH]; intros st nx; cbn zeta; cbn [fold_left].
  { split_and!; try done; apply same_data_refl. }
  rewrite relax_step_closed.
  set (qid := cid (hp st q)). set (hit := Z.eqb (n_at st qid - 1) 0).
  match goal with |- context [fold_left _ l (?s, ?x)] =>
    destruct (IH s x) as (HS & Hf & Hc & Hd & Hp) end.
  cbn [S fronts calls hp n] in *. split_and!; try done.
  - eapply same_data_trans; [|exact Hd]. destruct hit; [apply set_rank_data|apply same_data_refl].
  - pose proof (pending_decrement (n st) qid) as Hdec. cbn zeta in Hdec.
    fold (n_at st qid) in Hdec. fold hit in Hdec.
    destruct hit; rewrite ?length_app in Hp; simpl in Hp; lia.
Qed.

Lemma front_step_unfold i st nx p :
  front_step i (st, nx) p =
  fold_left (relax_step i) (S_at st (cid (hp st p))) (st, nx).
Proof. done. Qed.

Lemma front_fold_frame i l st nx :
  let r := fold_left (front_step i) l (st, nx) in
  S r.1 = S st /\ fronts r.1 = fronts st /\ calls r.1 = calls st /\
  same_data (hp st) (hp r.1) /\
  (pending (n r.1) + length r.2 <= pending (n st) + length nx)%nat.
Proof.
  revert st nx. induction l as [|p l IH]; intros st nx; cbn zeta; cbn [fold_left].
  { split_and!; try done; apply same_data_refl. }
  rewrite front_step_unfold.
  pose proof (relax_fold_frame i (S_at st (cid (hp st p))) st nx) as HR.
  cbn zeta in HR. destruct (fold_left (relax_step i) _ (st, nx)) as [st1 nx1].
  destruct HR as (HS & Hf & Hc & Hd & Hp). simpl in HS, Hf, Hc, Hd, Hp.
  destruct (IH st1 nx1) as (HS' & Hf' & Hc' & Hd' & Hp').
  split_and!; try congruence.
  - eapply same_data_trans; eauto.
  - lia.
Qed.

(** The loop leaves before its fuel is spent. *)
Lemma sort_loop_total fuel i st :
  length (fronts st) = Datatypes.S i ->
  (nth i (fronts st) [] = [] /\ 1 <= fuel)%nat \/ (pending (n st) + 2 <= fuel)%nat ->
  is_Some (sort_loop fuel i st).
Proof.
  revert i st. induction fuel as [|fuel IH]; intros i st Hlen Hfuel; [lia|].
  cbn [sort_loop]. destruct (nth i (fronts st) []) as [|p front_i] eqn:Hi; [eauto|].
  destruct Hfuel as [[? _]|Hfuel]; [done|].
  pose proof (front_fold_frame i (p :: front_i) st []) as HF. cbn zeta in HF.
  destruct (fold_left (front_step i) (p :: front_i) (st, [])) as [st1 next_front].
  destruct HF as (_ & Hf & _ & _ & Hp). simpl in Hf, Hp.
  apply IH; simpl.
  - rewrite length_app, Hf, Hlen. simpl. lia.
  - rewrite Hf, app_nth2 by lia. rewrite Hlen.
    replace (i + 1 - Datatypes.S i)%nat with 0%nat by lia. simpl.
    destruct next_front; [left; split; [done|lia]|right; simpl in Hp; lia].
Qed.

Lemma first_pass_closed h population :
  let st := first_pass h population in
  same_data h (hp st) /\
  fronts st = [filter (fun p => unbeaten h population p) population] /\
  (forall k, S st !! k = dominated_by h population <$> owner h population k) /\
  (forall k, n st !! k =
     (fun p => Z.of_nat (length (dominators h population p))) <$> owner h population k) /\
  (forall a, a ∈ filter (fun p => unbeaten h population p) population ->
             rank (hp st a) = Some 0%nat) /\
  (forall a, a ∉ filter (fun p => unbeaten h population p) population -> hp st a = h a) /\
  (size (n st) <= length population)%nat.
Proof.
  pose proof (count_fold_closed h population population (init_state h) [] []
                (same_data_refl h) eq_refl) as H.
  cbn zeta in *. fold (first_pass h population) in H.
  destruct H as (Hd & Hf & HS & Hn & Hr & Ho & Hz).
  simpl in Hz. rewrite map_size_empty in Hz.
  split_and!; try done; intros k; rewrite ?HS, ?Hn; simpl;
    by destruct (owner h population k).
Qed.

(** Every id of the population is a key of [S] and of [n] after the first
    pass. *)
Lemma first_pass_keys h population p :
  p ∈ population ->
  is_Some (S (first_pass h population) !! cid (h p)) /\
  is_Some (n (first_pass h population) !! cid (h p)).
Proof.
  intros Hp. destruct (first_pass_closed h population) as (_ & _ & HS & Hn & _).
  rewrite HS, Hn. destruct (owner_is_Some h population p Hp) as [c ->]. simpl. eauto.
Qed.

Lemma sort_state_total h population : is_Some (sort_state h population).
Proof.
  unfold sort_state, sort_fuel.
  destruct (first_pass_closed h population) as (_ & Hf & _ & _ & _ & _ & Hz).
  apply sort_loop_total; [by rewrite Hf|]. right.
  pose proof (pending_le_size (n (first_pass h population))). lia.
Qed.

Lemma fast_nondominated_sort_total h population :
  is_Some (fast_nondominated_sort h population).
Proof.
  unfold fast_nondominated_sort.
  by destruct (sort_state_total h population) as [st ->].
Qed.

(** *** The second phase on a worklist *)

Lemma n_at_insert st' st k v k' :
  n st' = <[k := v]> (n st) ->
  n_at st' k' = if decide (k = k') then v else n_at st k'.
Proof. intros E. unfold n_at. rewrite E, lookup_insert. by case_decide. Qed.

Lemma occ_cons h k q l :
  occ h k (q :: l) = ((if decide (cid (h q) = k) then 1 else 0) + occ h k l)%nat.
Proof. unfold occ. rewrite filter_cons. by case_decide. Qed.

Lemma occ_app h k l1 l2 : occ h k (l1 ++ l2) = (occ h k l1 + occ h k l2)%nat.
Proof. unfold occ. by rewrite filter_app, length_app. Qed.

Lemma occ_pos h k l : (0 < occ h k l)%nat -> exists q, q ∈ l /\ cid (h q) = k.
Proof.
  unfold occ. destruct (filter _ l) as [|q l'] eqn:E; simpl; [lia|]. intros _.
  assert (q ∈ filter (fun q => cid (h q) = k) l) as Hq by (rewrite E; left).
  apply list_elem_of_filter in Hq as [? ?]. eauto.
Qed.

Lemma relax_fold_closed h i l st nx :
  same_data h (hp st) ->
  (forall a b, a ∈ l -> b ∈ l -> cid (h a) = cid (h b) -> a = b) ->
  let r := fold_left (relax_step i) l (st, nx) in
  exists hits, r.2 = nx ++ hits /\ NoDup hits /\
    (forall k, n_at r.1 k = n_at st k - Z.of_nat (occ h k l)) /\
    (forall q, q ∈ hits <->
       q ∈ l /\ 1 <= n_at st (cid (h q)) <= Z.of_nat (occ h (cid (h q)) l)) /\
    (forall a, a ∈ hits -> rank (hp r.1 a) = Some (i + 1)%nat) /\
    (forall a, a ∉ hits -> hp r.1 a = hp st a).
Proof.
  revert st nx. induction l as [|q l IH]; intros st nx Hd Hinj; cbn zeta; cbn [fold_left].
  { exists []. rewrite app_nil_r. split_and!; try done.
    - apply NoDup_nil_2.
    - intros k. unfold occ. simpl. lia.
    - intros q. split; [by intros ?%elem_of_nil|by intros [?%elem_of_nil _]].
    - by intros a ?%elem_of_nil. }
  rewrite relax_step_closed. rewrite (same_data_cid h (hp st) q Hd).
  set (hit := Z.eqb (n_at st (cid (h q)) - 1) 0).
  match goal with |- context [fold_left _ l (?s, ?x)] =>
    set (st1 := s); set (nx1 := x) end.
  assert (Hn1 : forall k, n_at st1 k =
            if decide (cid (h q) = k) then n_at st (cid (h q)) - 1 else n_at st k).
  { intros k. by apply n_at_insert. }
  destruct (IH st1 nx1) as (hits & Hnx & Hnd & Hn & Hiff & Hrk & Hoth).
  { subst st1. simpl. destruct hit; [|done].
    eapply same_data_trans; [exact Hd|apply set_rank_data]. }
  { intros a b Ha Hb. apply Hinj; by right. }
  assert (Hq : q ∉ hits \/ hit = false).
  { destruct hit eqn:Eh; [left|by right]. intros [_ [Hge _]]%Hiff.
    rewrite Hn1, decide_True in Hge by done. subst hit.
    apply Z.eqb_eq in Eh. lia. }
  exists ((if hit then [q] else []) ++ hits). split_and!.
  - rewrite Hnx. subst nx1. destruct hit; simpl; [by rewrite <- app_assoc|done].
  - destruct hit; simpl; [|done]. apply NoDup_cons. by destruct Hq.
  - intros k. rewrite Hn, Hn1, occ_cons. case_decide; subst; lia.
  - intros a. rewrite elem_of_app, Hiff, Hn1, occ_cons.
    rewrite elem_of_cons. split.
    + intros [Ha|(Ha & Hge & Hle)].
      * destruct hit eqn:Eh; [|by apply elem_of_nil in Ha].
        apply list_elem_of_singleton in Ha as ->.
        case_decide; [|done]. subst hit. apply Z.eqb_eq in Eh.
        split; [by left|lia].
      * split; [by right|]. repeat case_decide; try congruence;
          try (match goal with H : cid (h q) = _ |- _ => rewrite <- ?H in * end); lia.
    + intros ([->|Ha] & Hge & Hle).
      * repeat case_decide; try done.
        destruct hit eqn:Eh; [left; left|right].
        subst hit. apply Z.eqb_neq in Eh.
        assert (0 < occ h (cid (h q)) l)%nat as (q' & Hq' & Hid)%occ_pos by lia.
        assert (q' = q) as -> by (apply Hinj; [by right|by left|done]).
        split; [done|]. lia.
      * destruct (decide (cid (h q) = cid (h a))) as [Hk|Hk].
        -- assert (a = q) as -> by (apply Hinj; [by right|by left|done]).
           repeat case_decide; try done.
           destruct hit eqn:Eh; [left; left|right].
           split; [done|]. subst hit. apply Z.eqb_neq in Eh. lia.
        -- right. split; [done|]. repeat case_decide; try done; lia.
  - intros a [Ha|Ha]%elem_of_app; [|by apply Hrk].
    destruct hit eqn:Eh; [|by apply elem_of_nil in Ha].
    apply list_elem_of_singleton in Ha as ->.
    destruct Hq as [Hq|?]; [|done]. rewrite Hoth by done.
    subst st1. simpl. apply set_rank_same.
  - intros a [Ha1 Ha2]%not_elem_of_app. rewrite Hoth by done.
    subst st1. simpl. destruct hit; [|done].
    apply set_rank_other. intros ->. apply Ha1. left.
Qed.

Lemma front_fold_flat i l st nx :
  fold_left (front_step i) l (st, nx) =
  fold_left (relax_step i) (l ≫= fun p => S_at st (cid (hp st p))) (st, nx).
Proof.
  revert st nx. induction l as [|p l IH]; intros st nx; [done|].
  cbn [fold_left]. rewrite front_step_unfold, bind_cons, fold_left_app.
  pose proof (relax_fold_frame i (S_at st (cid (hp st p))) st nx) as HR.
  cbn zeta in HR. destruct (fold_left (relax_step i) _ (st, nx)) as [st1 nx1].
  destruct HR as (HS & _ & _ & Hd & _). simpl in HS, Hd.
  rewrite IH. f_equal. apply list_bind_ext; [|done].
  intros q. unfold S_at. by rewrite HS, (same_data_cid _ _ q Hd).
Qed.

(** *** A strict order on a finite list has a minimal element *)

Lemma beats_minimal h (u : list addr) :
  u <> [] -> exists m, m ∈ u /\ forall p, p ∈ u -> beats h p m = false.
Proof.
  induction u as [|x u IH]; [done|]. intros _.
  destruct u as [|y u].
  { exists x. split; [left|]. intros p ->%list_elem_of_singleton. apply beats_irrefl. }
  destruct IH as (m & Hm & Hmin); [done|].
  destruct (beats h x m) eqn:Hxm.
  - exists x. split; [left|]. intros p [->|Hp]%elem_of_cons; [apply beats_irrefl|].
    destruct (beats h p x) eqn:Hpx; [|done].
    rewrite <- (Hmin p Hp). symmetry. by eapply beats_trans.
  - exists m. split; [by right|]. intros p [->|Hp]%elem_of_cons; [done|by apply Hmin].
Qed.

(** *** Counting in duplicate-free lists *)

Lemma filter_length_le (P : addr -> Prop) `{!forall x, Decision (P x)} (d l : list addr) :
  NoDup d -> (forall x, x ∈ d -> x ∈ l) ->
  (length (filter P d) <= length (filter P l))%nat.
Proof.
  intros Hnd Hsub. apply submseteq_length, NoDup_submseteq.
  - by apply NoDup_filter.
  - intros x [? ?]%list_elem_of_filter. apply list_elem_of_filter. auto.
Qed.

Lemma filter_length_eq (P : addr -> Prop) `{!forall x, Decision (P x)} (d l : list addr) :
  NoDup d -> NoDup l -> (forall x, x ∈ d -> x ∈ l) ->
  (forall x, x ∈ l -> P x -> x ∈ d) ->
  length (filter P d) = length (filter P l).
Proof.
  intros Hd Hl Hsub Hsup. apply Nat.le_antisymm.
  - by apply filter_length_le.
  - apply submseteq_length, NoDup_submseteq.
    + by apply NoDup_filter.
    + intros x [? ?]%list_elem_of_filter. apply list_elem_of_filter. auto.
Qed.

Lemma filter_none (P : addr -> Prop) `{!forall x, Decision (P x)} (l : list addr) :
  (forall x, x ∈ l -> ~ P x) -> filter P l = [].
Proof.
  induction l as [|x l IH]; intros Hno; [done|].
  rewrite filter_cons, decide_False by (apply Hno; left).
  apply IH. intros y Hy. apply Hno. by right.
Qed.

Lemma ids_inj h (l : list addr) a b :
  NoDup (cid ∘ h <$> l) -> a ∈ l -> b ∈ l -> cid (h a) = cid (h b) -> a = b.
Proof.
  intros Hnd Ha Hb Heq.
  apply list_elem_of_lookup in Ha as [i Hi], Hb as [j Hj].
  assert (i = j) as ->; [|congruence].
  eapply NoDup_lookup; [exact Hnd|..]; rewrite list_lookup_fmap.
  - by rewrite Hi.
  - rewrite Hj. simpl. by rewrite Heq.
Qed.

Lemma filter_unique_id h (P : addr -> Prop) `{!forall x, Decision (P x)} (l : list addr) q :
  NoDup (cid ∘ h <$> l) -> q ∈ l ->
  length (filter (fun x => cid (h x) = cid (h q) /\ P x) l) =
  if decide (P q) then 1%nat else 0%nat.
Proof.
  intros Hnd Hq.
  assert (NoDup l) as Hl by (by eapply NoDup_fmap_1).
  apply list_elem_of_split in Hq as (l1 & l2 & ->).
  apply NoDup_app in Hl as (_ & Hl1 & [Hl2 _]%NoDup_cons).
  assert (forall x : addr, x ∈ l1 ++ l2 -> ~ (cid (h x) = cid (h q) /\ P x)) as Hno.
  { intros x Hx [Heq _].
    assert (x = q) as ->.
    { eapply ids_inj; [exact Hnd| | |done];
        rewrite elem_of_app in *; rewrite elem_of_cons; tauto. }
    apply elem_of_app in Hx as [Hx|Hx]; [|done].
    eapply Hl1; [done|left]. }
  rewrite filter_app, filter_cons, length_app.
  rewrite (filter_none _ l1) by (intros x Hx; apply Hno, elem_of_app; by left).
  rewrite (filter_none _ l2) by (intros x Hx; apply Hno, elem_of_app; by right).
  destruct (decide (P q)).
  - by rewrite decide_True.
  - rewrite decide_False; [done|tauto].
Qed.

Lemma bind_ext_in {A B} (f g : A -> list B) (l : list A) :
  (forall x, x ∈ l -> f x = g x) -> l ≫= f = l ≫= g.
Proof.
  induction l as [|x l IH]; intros H; [done|].
  rewrite !bind_cons, H by left. f_equal. apply IH. intros y Hy. apply H. by right.
Qed.

Lemma elem_of_concat {A} (x : A) (ls : list (list A)) :
  x ∈ concat ls <-> exists l, x ∈ l /\ l ∈ ls.
Proof.
  induction ls as [|l ls IH]; simpl.
  - split; [by intros ?%elem_of_nil|by intros (? & _ & ?%elem_of_nil)].
  - rewrite elem_of_app, IH. split.
    + intros [?|(l' & ? & ?)]; [exists l; split; [done|left]|exists l'; split; [done|by right]].
    + intros (l' & ? & [->|?]%elem_of_cons); [by left|right; eauto].
Qed.

Lemma elem_of_dominated_by h population p q :
  q ∈ dominated_by h population p <-> edge h p q = true /\ q ∈ population.
Proof. unfold dominated_by. rewrite list_elem_of_filter. by rewrite Is_true_true. Qed.

Lemma elem_of_dominators h population p q :
  q ∈ dominators h population p <-> edge h q p = true /\ q ∈ population.
Proof. unfold dominators. rewrite list_elem_of_filter. by rewrite Is_true_true. Qed.

Lemma unbeaten_true h population p :
  unbeaten h population p = true <-> dominators h population p = [].
Proof.
  unfold unbeaten. rewrite Nat.eqb_eq. split; [apply nil_length_inv|by intros ->].
Qed.

(** *** Populations with pairwise distinct ids *)

Section distinct_ids.
Variables (h : heap) (population : list addr).
Hypothesis Hids : NoDup (cid ∘ h <$> population).

Lemma population_NoDup : NoDup population.
Proof using Hids. by eapply NoDup_fmap_1. Qed.

Lemma occ_worklist (F : list addr) q :
  q ∈ population ->
  occ h (cid (h q)) (F ≫= dominated_by h population) =
  length (filter (fun p => edge h p q) F).
Proof using Hids.
  intros Hq. induction F as [|p F IH]; [done|].
  rewrite bind_cons, occ_app, filter_cons, IH.
  unfold occ at 1, dominated_by. rewrite list_filter_filter.
  rewrite (filter_unique_id h (fun x => edge h p x) population q Hids Hq).
  by destruct (decide (edge h p q)).
Qed.

Lemma sort_inv_init : sort_inv h population 0 (first_pass h population).
Proof using Hids.
  destruct (first_pass_closed h population) as (Hd & Hf & HS & Hn & Hr & Ho & _).
  exists [], (filter (fun p => unbeaten h population p) population).
  assert (forall q, q ∈ population ->
            n_at (first_pass h population) (cid (h q)) =
            Z.of_nat (length (dominators h population q))) as Hn'.
  { intros q Hq. unfold n_at. by rewrite Hn, owner_NoDup. }
  split_and!; try done.
  - intros q Hq. unfold S_at. by rewrite HS, owner_NoDup.
  - simpl. apply NoDup_filter, population_NoDup.
  - simpl. by intros p [_ ?]%list_elem_of_filter.
  - intros q Hq. rewrite Hn' by done. simpl. lia.
  - intros q Hq. rewrite Hn' by done. rewrite list_elem_of_filter, Is_true_true.
    unfold unbeaten. rewrite Nat.eqb_eq. simpl. split.
    + intros [E _]. split; [apply not_elem_of_nil|lia].
    + intros [_ E]. split; [lia|done].
  - simpl. by intros q ?%elem_of_nil.
  - intros j Fj p Hj Hp. destruct j; simpl in Hj; [|by destruct j].
    injection Hj as <-. by apply Hr.
Qed.

Lemma n_at_nonneg i st q :
  sort_inv h population i st -> q ∈ population -> 0 <= n_at st (cid (h q)).
Proof using Hids.
  intros (Fs & F & _ & _ & _ & _ & Hnd & Hsub & Hn & _) Hq.
  rewrite Hn by done. unfold dominators.
  pose proof (filter_length_le (fun p => edge h p q) (concat Fs) population) as Hle.
  apply NoDup_app in Hnd as (Hnd & _ & _).
  specialize (Hle Hnd). lapply Hle; [lia|].
  intros x Hx. apply Hsub, elem_of_app. by left.
Qed.

Lemma sort_inv_step i st st1 next_front :
  sort_inv h population i st ->
  fold_left (front_step i) (nth i (fronts st) []) (st, []) = (st1, next_front) ->
  sort_inv h population (i + 1)
    {| S := S st1; n := n st1; fronts := fronts st1 ++ [next_front];
       hp := hp st1; calls := calls st1 |}.
Proof using Hids.
  intros Hinv Hfold. pose proof (fun q => n_at_nonneg i st q Hinv) as Hnn.
  destruct Hinv as (Fs & F & Hf & Hlen & Hd & HS & Hnd & Hsub & Hn & Hiff & Hdone & Hrk).
  assert (nth i (fronts st) [] = F) as HF.
  { rewrite Hf, app_nth2 by lia. by replace (i - length Fs)%nat with 0%nat by lia. }
  rewrite HF in Hfold. clear HF.
  assert (forall p, p ∈ F -> p ∈ population) as HsubF.
  { intros p Hp. apply Hsub, elem_of_app. by right. }
  pose proof (front_fold_frame i F st []) as Hframe. cbn zeta in Hframe.
  rewrite front_fold_flat in Hfold, Hframe.
  rewrite (bind_ext_in _ (dominated_by h population)) in Hfold, Hframe.
  2,3: intros p Hp; rewrite (same_data_cid h (hp st) p Hd); by apply HS, HsubF.
  set (L := F ≫= dominated_by h population) in *.
  assert (forall q, q ∈ L -> q ∈ population) as HsubL.
  { intros q (p & [_ ?]%elem_of_dominated_by & _)%list_elem_of_bind. done. }
  destruct (relax_fold_closed h i L st [] Hd) as (hits & Hnx & Hndh & Hn1 & Hhit & Hrk1 & Hoth).
  { intros a b Ha Hb. apply (ids_inj h population); auto. }
  rewrite Hfold in *. simpl in Hnx, Hn1, Hrk1, Hoth, Hframe. subst next_front.
  destruct Hframe as (HS1 & Hf1 & _ & Hd1 & _).
  assert (Hocc : forall q, q ∈ population ->
            occ h (cid (h q)) L = length (filter (fun p => edge h p q) F)).
  { intros q Hq. by apply occ_worklist. }
  assert (Hn1' : forall q, q ∈ population ->
            n_at st1 (cid (h q)) =
            n_at st (cid (h q)) - Z.of_nat (length (filter (fun p => edge h p q) F))).
  { intros q Hq. by rewrite Hn1, Hocc. }
  assert (Hn2 : forall q, q ∈ population ->
            n_at st1 (cid (h q)) =
            Z.of_nat (length (dominators h population q)) -
            Z.of_nat (length (filter (fun p => edge h p q) (concat Fs ++ F)))).
  { intros q Hq. rewrite Hn1', Hn, filter_app, length_app by done. lia. }
  assert (Hnn1 : forall q, q ∈ population -> 0 <= n_at st1 (cid (h q))).
  { intros q Hq. rewrite Hn2 by done. unfold dominators.
    pose proof (filter_length_le (fun p => edge h p q) (concat Fs ++ F) population Hnd Hsub).
    lia. }
  assert (Hzero : forall q, q ∈ concat Fs ++ F -> n_at st (cid (h q)) = 0).
  { intros q Hq. pose proof (Hsub q Hq) as Hqp.
    apply elem_of_app in Hq as [Hq|Hq]; [by apply Hdone|]. by apply Hiff. }
  assert (Hhits_new : forall q, q ∈ hits -> q ∉ concat Fs ++ F).
  { intros q [_ [Hge _]]%Hhit Hq. apply Hzero in Hq. lia. }
  set (st2 := {| S := S st1 |}).
  assert (Hst2 : forall k, n_at st2 k = n_at st1 k) by done.
  exists (Fs ++ [F]), hits. rewrite concat_app. simpl. rewrite app_nil_r.
  split_and!.
  - by rewrite Hf1, Hf.
  - rewrite length_app. simpl. lia.
  - eapply same_data_trans; eauto.
  - intros q Hq. unfold S_at. simpl. rewrite HS1. by apply HS.
  - apply NoDup_app. split_and!; [done| |done].
    intros q Hq Hq'. by apply Hhits_new in Hq'.
  - intros p [Hp|Hp]%elem_of_app; [by apply Hsub|].
    apply Hhit in Hp as [Hp _]. by apply HsubL.
  - intros q Hq. rewrite Hst2. by apply Hn2.
  - intros q Hq. split.
    + intros Hqh. split; [by apply Hhits_new|].
      pose proof (Hnn1 q Hq). apply Hhit in Hqh as (_ & _ & Hle).
      rewrite Hst2, Hn1, Hocc in * by done. lia.
    + rewrite Hst2. intros [Hnew Hz]. apply Hhit.
      assert (n_at st (cid (h q)) <> 0) as Hnz.
      { intros Hz'. apply Hnew, elem_of_app. right. apply Hiff; [done|].
        split; [|done]. intros ?. apply Hnew, elem_of_app. by left. }
      pose proof (Hnn q Hq). rewrite Hn1 in Hz.
      assert (0 < occ h (cid (h q)) L)%nat as (q' & Hq' & Hid)%occ_pos by lia.
      assert (q' = q) as -> by (apply (ids_inj h population); auto).
      split; [done|lia].
  - intros q Hq. pose proof (Hzero q Hq). pose proof (Hnn1 q (Hsub q Hq)).
    rewrite Hst2. rewrite Hn1' in * by (by apply Hsub). lia.
  - intros j Fj p Hj Hp. apply lookup_app_Some in Hj as [Hj|[Hge Hj]].
    + rewrite Hoth; [by eapply Hrk|]. intros Hph. apply (Hhits_new p Hph).
      apply lookup_app_Some in Hj as [Hj|[_ Hj]].
      * apply elem_of_app. left. apply elem_of_concat. exists Fj.
        split; [done|]. by eapply list_elem_of_lookup_2.
      * apply list_lookup_singleton_Some in Hj as [_ <-]. apply elem_of_app. by right.
    + apply list_lookup_singleton_Some in Hj as [Hj <-].
      rewrite length_app in *. simpl in *.
      replace j with (i + 1)%nat by lia. by apply Hrk1.
Qed.

Lemma sort_loop_inv fuel i st st' :
  sort_inv h population i st -> sort_loop fuel i st = Some st' ->
  exists i', sort_inv h population i' st' /\ nth i' (fronts st') [] = [].
Proof using Hids.
  revert i st. induction fuel as [|fuel IH]; intros i st Hinv Hrun; [done|].
  cbn [sort_loop] in Hrun.
  destruct (nth i (fronts st) []) as [|p front_i] eqn:Hi.
  { injection Hrun as <-. eauto. }
  destruct (fold_left (front_step i) (p :: front_i) (st, [])) as [st1 next_front] eqn:Hfold.
  rewrite <- Hi in Hfold. eapply IH; [|exact Hrun].
  eapply sort_inv_step; eauto.
Qed.

(** When the loop has left, the processed fronts hold the whole population. *)
Lemma sort_inv_complete i st :
  sort_inv h population i st -> nth i (fronts st) [] = [] ->
  exists Fs, fronts st = Fs ++ [[]] /\ concat Fs ≡ₚ population /\
    forall j Fj p, Fs !! j = Some Fj -> p ∈ Fj -> rank (hp st p) = Some j.
Proof using Hids.
  intros (Fs & F & Hf & Hlen & Hd & HS & Hnd & Hsub & Hn & Hiff & Hdone & Hrk) Hi.
  assert (F = []) as ->.
  { rewrite Hf, app_nth2 in Hi by lia. by replace (i - length Fs)%nat with 0%nat in Hi by lia. }
  rewrite app_nil_r in Hnd, Hsub. exists Fs. split_and!; [done| |].
  - apply NoDup_Permutation; [done|apply population_NoDup|].
    intros x. split; [apply Hsub|]. intros Hx.
    destruct (decide (x ∈ concat Fs)) as [|Hnot]; [done|exfalso].
    set (u := filter (fun q => q ∉ concat Fs) population).
    destruct (beats_minimal h u) as (m & Hm & Hmin).
    { intros Hu. assert (x ∈ u) as Hxu by (by apply list_elem_of_filter).
      rewrite Hu in Hxu. by apply elem_of_nil in Hxu. }
    apply list_elem_of_filter in Hm as [Hm1 Hm2].
    assert (m ∈ []) as Hm; [|by apply elem_of_nil in Hm].
    apply Hiff; [done|]. split; [done|]. rewrite Hn by done.
    unfold dominators.
    rewrite (filter_length_eq (fun p => edge h p m) (concat Fs) population);
      [lia|done|apply population_NoDup|done|].
    intros y Hy He. destruct (decide (y ∈ concat Fs)) as [|Hy']; [done|exfalso].
    assert (beats h y m = false) as Hb by (apply Hmin; by apply list_elem_of_filter).
    unfold edge in He. rewrite Hb, andb_false_r in He. done.
  - intros j Fj p Hj Hp. eapply Hrk; [|done]. by apply lookup_app_l_Some.
Qed.

End distinct_ids.

(** *** The shape of the result, for any population *)

Lemma sort_loop_shape fuel i st st' :
  sort_loop fuel i st = Some st' -> length (fronts st) = Datatypes.S i ->
  (exists more, fronts st' = fronts st ++ more) /\ last (fronts st') = Some [] /\
  S st' = S st /\ calls st' = calls st /\ same_data (hp st) (hp st') /\
  (nth i (fronts st) [] = [] -> st' = st).
Proof.
  revert i st. induction fuel as [|fuel IH]; intros i st Hrun Hlen; [done|].
  cbn [sort_loop] in Hrun.
  destruct (nth i (fronts st) []) as [|p front_i] eqn:Hi.
  { injection Hrun as <-. split_and!; [| |done|done| |done].
    - exists []. by rewrite app_nil_r.
    - destruct (fronts st) as [|f fs] using rev_ind; [done|].
      rewrite length_app in Hlen. simpl in Hlen.
      rewrite app_nth2 in Hi by lia.
      replace (i - length fs)%nat with 0%nat in Hi by lia. simpl in Hi.
      by rewrite Hi, last_snoc.
    - apply same_data_refl. }
  pose proof (front_fold_frame i (p :: front_i) st []) as HF. cbn zeta in HF.
  destruct (fold_left (front_step i) (p :: front_i) (st, [])) as [st1 next_front].
  destruct HF as (HS & Hf & Hc & Hd & _). simpl in HS, Hf, Hc, Hd.
  apply IH in Hrun as ([more Hmore] & Hlast & HS' & Hc' & Hd' & _); simpl in *.
  - split_and!; try congruence.
    + exists ([next_front] ++ more). by rewrite Hmore, Hf, <- app_assoc.
    + eapply same_data_trans; eauto.
  - rewrite length_app, Hf, Hlen. simpl. lia.
Qed.

Lemma lookup_removelast {A} (l : list A) j x :
  removelast l !! j = Some x -> l !! j = Some x.
Proof.
  destruct l as [|y l] using rev_ind; [done|].
  rewrite removelast_last. apply lookup_app_l_Some.
Qed.

(** The returned list starts with the front built by the first pass, unless
    that front is empty (then nothing is returned). *)
Lemma sort_result_closed h population :
  exists h' fs,
    fast_nondominated_sort h population = Some (h', fs) /\ same_data h h' /\
    forall F0, fs !! 0%nat = Some F0 <->
               F0 = filter (fun p => unbeaten h population p) population /\ F0 <> [].
Proof.
  unfold fast_nondominated_sort.
  destruct (sort_state_total h population) as [st Hst]. rewrite Hst.
  exists (hp st), (removelast (fronts st)). split; [done|].
  destruct (first_pass_closed h population) as (Hd & Hf & _).
  apply sort_loop_shape in Hst as ([more Hmore] & Hlast & _ & _ & Hd' & Hstop);
    [|by rewrite Hf].
  split; [by eapply same_data_trans|].
  rewrite Hf in Hmore, Hstop. set (f0 := filter _ population) in *.
  simpl in Hstop. intros F0. split.
  - intros HF0. pose proof (lookup_removelast _ _ _ HF0) as HF0'.
    rewrite Hmore in HF0'. simpl in HF0'. injection HF0' as <-. split; [done|].
    intros E. rewrite (Hstop E), Hf in HF0. done.
  - intros [-> Hne]. rewrite Hmore in *. destruct more as [|f more].
    + simpl in Hlast. congruence.
    + done.
Qed.

(** ** Claims about the ranking *)

Import ParetoExamples.

(** C1 (as amended).  For a population whose candidates carry pairwise
    distinct ids, [fast_nondominated_sort] returns; the concatenation of the
    returned fronts is a permutation of the population and has no duplicate;
    every candidate carries one rank [r] afterwards, and the fronts that
    contain it are exactly the front of index [r]. *)
Theorem rank_partition_distinct_ids (h : heap) (population : list addr) :
  NoDup (cid ∘ h <$> population) ->
  exists h' fs,
    fast_nondominated_sort h population = Some (h', fs) /\
    concat fs ≡ₚ population /\ NoDup (concat fs) /\
    forall p, p ∈ population ->
      exists r, rank (h' p) = Some r /\
        forall j Fj, fs !! j = Some Fj -> (p ∈ Fj <-> j = r).
Proof.
  intros Hids. unfold fast_nondominated_sort.
  destruct (sort_state_total h population) as [st Hst]. rewrite Hst.
  destruct (sort_loop_inv h population Hids _ _ _ _
              (sort_inv_init h population Hids) Hst) as (i & Hinv & Hi).
  destruct (sort_inv_complete h population Hids i st Hinv Hi) as (Fs & Hf & Hperm & Hrk).
  exists (hp st), (removelast (fronts st)). rewrite Hf, removelast_last.
  split_and!; [done|done| |].
  - rewrite Hperm. by apply population_NoDup with h.
  - intros p Hp. rewrite <- Hperm in Hp.
    apply elem_of_concat in Hp as (F & HpF & HF).
    apply list_elem_of_lookup in HF as [r Hr]. exists r.
    split; [by eapply Hrk|]. intros j Fj Hj. split.
    + intros HpFj. pose proof (Hrk _ _ _ Hj HpFj) as E1.
      pose proof (Hrk _ _ _ Hr HpF) as E2. congruence.
    + intros ->. congruence.
Qed.

Lemma rank_partition_distinct_ids_witness :
  exists h' fs,
    fast_nondominated_sort scenario scenario_population = Some (h', fs) /\
    concat fs ≡ₚ scenario_population /\ NoDup (concat fs) /\
    forall p, p ∈ scenario_population ->
      exists r, rank (h' p) = Some r /\
        forall j Fj, fs !! j = Some Fj -> (p ∈ Fj <-> j = r).
Proof.
  apply (rank_partition_distinct_ids scenario scenario_population).
  apply (bool_decide_unpack _). vm_compute. exact I.
Defined.

(** C1, as stated, fails when two candidates share an id: of the three
    candidates of [shadowed], only the first is returned and ranked. *)
Lemma rank_partition_counterexample :
  exists h',
    fast_nondominated_sort shadowed shadowed_population = Some (h', [[0%nat]]) /\
    ~ concat [[0%nat]] ≡ₚ shadowed_population /\
    rank (h' 1%nat) = None /\ rank (h' 2%nat) = None.
Proof.
  eexists. split; [vm_compute; reflexivity|]. split; [|done].
  intros Hp%Permutation_length. simpl in Hp. lia.
Qed.

(** Membership in the front built by the first pass. *)
Lemma elem_of_front0 h population p :
  p ∈ filter (fun p => unbeaten h population p) population <->
  p ∈ population /\
  forall q, q ∈ population -> cid (h q) <> cid (h p) -> beats h q p = false.
Proof.
  rewrite list_elem_of_filter, Is_true_true, unbeaten_true. split.
  - intros [Hnil Hp]. split; [done|]. intros q Hq Hne.
    destruct (beats h q p) eqn:Hb; [exfalso|done].
    assert (q ∈ dominators h population p) as Hin.
    { apply elem_of_dominators. split; [|done]. unfold edge. rewrite Hb, andb_true_r.
      by apply rival_true. }
    rewrite Hnil in Hin. by apply elem_of_nil in Hin.
  - intros [Hp Hall]. split; [|done].
    destruct (dominators h population p) as [|q l] eqn:E; [done|exfalso].
    assert (q ∈ dominators h population p) as Hin by (rewrite E; left).
    apply elem_of_dominators in Hin as [He Hq]. unfold edge in He.
    apply andb_true_iff in He as [Hr Hb]. apply rival_true in Hr.
    rewrite (Hall q Hq Hr) in Hb. done.
Qed.

(** C5 (as amended).  For any population, [fast_nondominated_sort] returns,
    and no candidate of front 0 dominates a candidate of front 0 that
    carries another id. *)
Theorem front0_antisymmetry (h : heap) (population : list addr) :
  exists h' fs,
    fast_nondominated_sort h population = Some (h', fs) /\
    forall F0 p q, fs !! 0%nat = Some F0 -> p ∈ F0 -> q ∈ F0 ->
      cid (h' p) <> cid (h' q) ->
      dominates (objectives (h' p)) (objectives (h' q)) = false.
Proof.
  destruct (sort_result_closed h population) as (h' & fs & Hrun & Hd & H0).
  exists h', fs. split; [done|]. intros F0 p q [-> _]%H0 Hp Hq Hne.
  rewrite !(same_data_cid h h') in Hne by done.
  rewrite !(same_data_obj h h') by done.
  apply elem_of_front0 in Hp as [Hp _], Hq as [_ Hq]. by apply Hq.
Qed.

Lemma front0_antisymmetry_witness :
  exists h' fs,
    fast_nondominated_sort scenario scenario_population = Some (h', fs) /\
    dominates (objectives (h' 0%nat)) (objectives (h' 1%nat)) = false.
Proof.
  destruct (front0_antisymmetry scenario scenario_population) as (h' & fs & Hrun & H).
  exists h', fs. split; [exact Hrun|].
  vm_compute in Hrun. injection Hrun as <- <-.
  apply (H [0; 1]%nat 0%nat 1%nat).
  - reflexivity.
  - left.
  - right. left.
  - vm_compute. discriminate.
Defined.

(** C5, as stated, fails when two candidates share an id: both candidates of
    [twins] are placed in front 0 although the first dominates the second. *)
Lemma front0_antisymmetry_counterexample :
  exists h' F0 rest,
    fast_nondominated_sort twins twins_population = Some (h', F0 :: rest) /\
    0%nat ∈ F0 /\ 1%nat ∈ F0 /\ 0%nat <> 1%nat /\
    dominates (objectives (h' 0%nat)) (objectives (h' 1%nat)) = true.
Proof.
  eexists _, _, _. split; [vm_compute; reflexivity|].
  split_and!; [left|right; left|done|done].
Qed.

(** C8.  On the population Y, W, X, Z the sort returns the three fronts
    {Y, W}, {X}, {Z}, and the candidates carry the ranks 0, 0, 1, 2. *)
Theorem scenario_fronts :
  exists h',
    fast_nondominated_sort scenario scenario_population
      = Some (h', [[0; 1]; [2]; [3]]%nat) /\
    map (map (fun a => cid (h' a))) [[0; 1]; [2]; [3]]%nat
      = [["Y"; "W"]; ["X"]; ["Z"]]%string /\
    map (fun a => rank (h' a)) scenario_population
      = [Some 0; Some 0; Some 1; Some 2]%nat.
Proof. eexists. split; [vm_compute; reflexivity|]. split; reflexivity. Qed.

(** *** Two runs on heaps that differ in origin and generation only *)

Lemma filter_ext_in (f g : addr -> bool) (l : list addr) :
  (forall x, x ∈ l -> f x = g x) -> filter (fun x => f x) l = filter (fun x => g x) l.
Proof.
  induction l as [|x l IH]; intros H; [done|].
  rewrite !filter_cons, H by left. destruct (decide (g x)); f_equal; apply IH;
    intros y Hy; apply H; by right.
Qed.

Section agreeing_heaps.
Variables (population : list addr) (h1 h2 : heap).
Hypothesis Hagree : agree population h1 h2.

Lemma agree_edge p q : p ∈ population -> q ∈ population -> edge h1 p q = edge h2 p q.
Proof using Hagree.
  intros Hp Hq. destruct (Hagree p Hp) as (E1 & E2 & _), (Hagree q Hq) as (E3 & E4 & _).
  unfold edge, rival, beats. by rewrite E1, E2, E3, E4.
Qed.

Lemma agree_dominated_by p :
  p ∈ population -> dominated_by h1 population p = dominated_by h2 population p.
Proof using Hagree. intros Hp. apply filter_ext_in. intros q Hq. by apply agree_edge. Qed.

Lemma agree_dominators p :
  p ∈ population -> dominators h1 population p = dominators h2 population p.
Proof using Hagree. intros Hp. apply filter_ext_in. intros q Hq. by apply agree_edge. Qed.

Lemma agree_unbeaten p :
  p ∈ population -> unbeaten h1 population p = unbeaten h2 population p.
Proof using Hagree. intros Hp. unfold unbeaten. by rewrite agree_dominators. Qed.

Lemma agree_owner l k :
  (forall x, x ∈ l -> x ∈ population) -> owner h1 l k = owner h2 l k.
Proof using Hagree.
  induction l as [|p l IH] using rev_ind; intros Hsub; [done|].
  rewrite !owner_snoc, IH.
  - destruct (Hagree p) as (E & _); [|by rewrite E]. apply Hsub, elem_of_app. right. left.
  - intros x Hx. apply Hsub, elem_of_app. by left.
Qed.

Lemma first_pass_related :
  related population (first_pass h1 population) (first_pass h2 population).
Proof using Hagree.
  destruct (first_pass_closed h1 population) as (Hd1 & Hf1 & HS1 & Hn1 & Hr1 & Ho1 & _).
  destruct (first_pass_closed h2 population) as (Hd2 & Hf2 & HS2 & Hn2 & Hr2 & Ho2 & _).
  assert (filter (fun p => unbeaten h1 population p) population =
          filter (fun p => unbeaten h2 population p) population) as Hfront.
  { apply filter_ext_in. apply agree_unbeaten. }
  split_and!.
  - apply map_eq. intros k. rewrite HS1, HS2, agree_owner by done.
    destruct (owner h2 population k) as [p|] eqn:E; [simpl|done].
    apply owner_Some in E as [Hp _]. by rewrite agree_dominated_by.
  - apply map_eq. intros k. rewrite Hn1, Hn2, agree_owner by done.
    destruct (owner h2 population k) as [p|] eqn:E; [simpl|done].
    apply owner_Some in E as [Hp _]. by rewrite agree_dominators.
  - by rewrite Hf1, Hf2, Hfront.
  - intros a Ha. destruct (Hagree a Ha) as (E1 & E2 & E3).
    rewrite !(same_data_cid h1 _ a Hd1), !(same_data_cid h2 _ a Hd2).
    rewrite !(same_data_obj h1 _ a Hd1), !(same_data_obj h2 _ a Hd2).
    split_and!; [done|done|].
    destruct (decide (a ∈ filter (fun p => unbeaten h1 population p) population)) as [Hin|Hin].
    + rewrite Hr1 by done. rewrite Hfront in Hin. by rewrite Hr2.
    + rewrite Ho1 by done. rewrite Hfront in Hin. by rewrite Ho2.
  - split.
    + intros k l x Hk Hx. rewrite HS1 in Hk.
      destruct (owner h1 population k); [|done]. injection Hk as <-.
      by apply elem_of_dominated_by in Hx as [_ ?].
    + intros F x HF Hx. rewrite Hf1 in HF. apply list_elem_of_singleton in HF as ->.
      by apply list_elem_of_filter in Hx as [_ ?].
Qed.

End agreeing_heaps.

Lemma agree_set_rank population h1 h2 q r :
  agree population h1 h2 -> agree population (set_rank h1 q r) (set_rank h2 q r).
Proof.
  intros H a Ha. destruct (H a Ha) as (E1 & E2 & E3).
  unfold set_rank. by destruct (Nat.eqb a q).
Qed.

Lemma relax_fold_agree population i l st1 st2 nx :
  (forall x, x ∈ l -> x ∈ population) ->
  n st1 = n st2 -> agree population (hp st1) (hp st2) ->
  let r1 := fold_left (relax_step i) l (st1, nx) in
  let r2 := fold_left (relax_step i) l (st2, nx) in
  n r1.1 = n r2.1 /\ r1.2 = r2.2 /\ agree population (hp r1.1) (hp r2.1) /\
  forall x, x ∈ r1.2 -> x ∈ nx \/ x ∈ l.
Proof.
  revert st1 st2 nx. induction l as [|q l IH]; intros st1 st2 nx Hsub Hn Ha;
    cbn zeta; cbn [fold_left].
  { split_and!; try done. intros x Hx. by left. }
  rewrite !relax_step_closed.
  destruct (Ha q) as (Eid & _); [apply Hsub; left|].
  unfold n_at. rewrite <- Hn, <- Eid.
  set (hit := Z.eqb _ 0).
  match goal with |- context [fold_left _ l (?s1, ?x1)] =>
    match goal with |- context [fold_left _ l (?s2, _)] =>
      lazymatch s1 with s2 => fail | _ =>
        destruct (IH s1 s2 x1) as (IHn & IHnx & IHa & IHin) end end end.
  - intros x Hx. apply Hsub. by right.
  - done.
  - simpl. destruct hit; [by apply agree_set_rank|done].
  - split_and!; try done. intros x Hx. apply IHin in Hx as [Hx|Hx]; [|right; by right].
    destruct hit; [|by left]. apply elem_of_app in Hx as [?|Hx]; [by left|].
    apply list_elem_of_singleton in Hx as ->. right. left.
Qed.

Lemma front_fold_agree population i l st1 st2 :
  (forall x, x ∈ l -> x ∈ population) -> related population st1 st2 ->
  let r1 := fold_left (front_step i) l (st1, []) in
  let r2 := fold_left (front_step i) l (st2, []) in
  n r1.1 = n r2.1 /\ r1.2 = r2.2 /\ agree population (hp r1.1) (hp r2.1) /\
  forall x, x ∈ r1.2 -> x ∈ population.
Proof.
  intros Hsub (HS & Hn & _ & Ha & HsupS & _). cbn zeta.
  rewrite !front_fold_flat.
  rewrite (bind_ext_in (fun p => S_at st2 (cid (hp st2 p)))
                       (fun p => S_at st1 (cid (hp st1 p))) l).
  2:{ intros p Hp. destruct (Ha p (Hsub p Hp)) as (-> & _). unfold S_at. by rewrite HS. }
  set (wl := l ≫= _).
  assert (forall x, x ∈ wl -> x ∈ population) as Hwl.
  { intros x (p & Hx & Hp)%list_elem_of_bind. unfold S_at in Hx.
    destruct (S st1 !! cid (hp st1 p)) as [s|] eqn:E; [|by apply elem_of_nil in Hx].
    by eapply HsupS. }
  destruct (relax_fold_agree population i wl st1 st2 [] Hwl Hn Ha) as (Hn' & Hnx & Ha' & Hin).
  split_and!; try done. intros x Hx. apply Hin in Hx as [Hx|Hx]; [by apply elem_of_nil in Hx|auto].
Qed.

Lemma sort_loop_agree population fuel i st1 st2 st1' :
  related population st1 st2 -> sort_loop fuel i st1 = Some st1' ->
  exists st2', sort_loop fuel i st2 = Some st2' /\
    fronts st1' = fronts st2' /\ agree population (hp st1') (hp st2').
Proof.
  revert i st1 st2. induction fuel as [|fuel IH]; intros i st1 st2 Hrel Hrun; [done|].
  cbn [sort_loop] in *.
  pose proof Hrel as (HS & Hn & Hf & Ha & HsupS & HsupF). rewrite <- Hf.
  destruct (nth i (fronts st1) []) as [|p front_i] eqn:Hi.
  { injection Hrun as <-. eauto. }
  assert (forall x, x ∈ p :: front_i -> x ∈ population) as Hsub.
  { intros x Hx. eapply HsupF; [|exact Hx]. rewrite <- Hi.
    apply list_elem_of_In, nth_In.
    destruct (Nat.lt_ge_cases i (length (fronts st1))) as [|Hge]; [done|].
    by rewrite nth_overflow in Hi. }
  pose proof (front_fold_agree population i (p :: front_i) st1 st2 Hsub Hrel) as HF.
  pose proof (front_fold_frame i (p :: front_i) st1 []) as HF1.
  pose proof (front_fold_frame i (p :: front_i) st2 []) as HF2.
  cbn zeta in HF, HF1, HF2.
  destruct (fold_left (front_step i) (p :: front_i) (st1, [])) as [s1 nx1].
  destruct (fold_left (front_step i) (p :: front_i) (st2, [])) as [s2 nx2].
  simpl in HF, HF1, HF2. destruct HF as (Hn' & <- & Ha' & Hin).
  destruct HF1 as (HS1 & Hf1 & _), HF2 as (HS2 & Hf2 & _).
  eapply IH; [|exact Hrun]. split_and!; simpl; try congruence; try done.
  split; simpl.
  - intros k l x. rewrite HS1. apply HsupS.
  - intros F x [HF|HF]%elem_of_app Hx.
    + rewrite Hf1 in HF. by eapply HsupF.
    + apply list_elem_of_singleton in HF as ->. by apply Hin.
Qed.

(** C9.  Two populations that differ only in the origin and generation of
    their candidates are sorted into the same fronts and their candidates
    receive the same ranks; the sort leaves id, origin, generation and
    objectives of every candidate as they were. *)
Theorem origin_agnostic (h1 h2 : heap) (population : list addr) :
  agree population h1 h2 ->
  exists h1' h2' fs,
    fast_nondominated_sort h1 population = Some (h1', fs) /\
    fast_nondominated_sort h2 population = Some (h2', fs) /\
    (forall a, a ∈ population -> rank (h1' a) = rank (h2' a)) /\
    (forall a, origin (h1' a) = origin (h1 a) /\ generation (h1' a) = generation (h1 a)) /\
    (forall a, origin (h2' a) = origin (h2 a) /\ generation (h2' a) = generation (h2 a)).
Proof.
  intros Hagree.
  destruct (sort_result_closed h1 population) as (h1' & fs1 & Hrun1 & Hd1 & _).
  destruct (sort_result_closed h2 population) as (h2' & fs2 & Hrun2 & Hd2 & _).
  unfold fast_nondominated_sort, sort_state in *.
  destruct (sort_loop _ 0 (first_pass h1 population)) as [st1|] eqn:E1; [|done].
  destruct (sort_loop_agree population _ _ _ _ _
              (first_pass_related population h1 h2 Hagree) E1) as (st2 & E2 & Hf & Ha).
  rewrite E2 in *. injection Hrun1 as <- <-. injection Hrun2 as <- <-.
  exists (hp st1), (hp st2), (removelast (fronts st1)).
  split_and!; [done|by rewrite Hf| | |].
  - intros a Ha'. by apply Ha.
  - intros a. destruct (Hd1 a) as (_ & ? & ? & _). done.
  - intros a. destruct (Hd2 a) as (_ & ? & ? & _). done.
Qed.

Lemma origin_agnostic_witness :
  agree scenario_population scenario scenario_mixed /\
  exists h1' h2' fs,
    fast_nondominated_sort scenario scenario_population = Some (h1', fs) /\
    fast_nondominated_sort scenario_mixed scenario_population = Some (h2', fs) /\
    (forall a, a ∈ scenario_population -> rank (h1' a) = rank (h2' a)) /\
    (forall a, origin (h1' a) = origin (scenario a) /\
               generation (h1' a) = generation (scenario a)) /\
    (forall a, origin (h2' a) = origin (scenario_mixed a) /\
               generation (h2' a) = generation (scenario_mixed a)).
Proof.
  assert (agree scenario_population scenario scenario_mixed) as H.
  { intros a _. split_and!; [reflexivity|reflexivity|].
    by destruct a as [|[|[|?]]]. }
  split; [exact H|].
  exact (origin_agnostic scenario scenario_mixed scenario_population H).
Defined.

(** *** The log of dominance comparisons *)

Lemma compare_step_calls p st q :
  exists new, calls (compare_step p st q) = calls st ++ new /\
    (forall c, c ∈ new ->
       rival (hp st) c.1 c.2 = true /\ (c = (p, q) \/ c = (q, p))) /\
    (rival (hp st) p q = true -> (p, q) ∈ new).
Proof.
  unfold compare_step.
  assert (rival (hp st) q p = rival (hp st) p q) as Hsym by apply rival_sym.
  assert (String.eqb (cid (hp st p)) (cid (hp st q)) = negb (rival (hp st) p q)) as ->.
  { unfold rival. by rewrite negb_involutive. }
  destruct (rival (hp st) p q) eqn:E; simpl.
  2:{ exists []. rewrite app_nil_r. split_and!; [done| |done]. by intros c ?%elem_of_nil. }
  destruct (dominates (objectives (hp st p)) _); [|destruct (dominates _ _)]; simpl.
  - exists [(p, q)]. split_and!; [done| |intros _; left].
    intros c ->%list_elem_of_singleton. simpl. auto.
  - exists [(p, q); (q, p)]. split_and!; [done| |intros _; left].
    intros c [->|Hc]%elem_of_cons; [|apply list_elem_of_singleton in Hc as ->];
      simpl; rewrite ?Hsym; auto.
  - exists [(p, q); (q, p)]. split_and!; [done| |intros _; left].
    intros c [->|Hc]%elem_of_cons; [|apply list_elem_of_singleton in Hc as ->];
      simpl; rewrite ?Hsym; auto.
Qed.

Lemma compare_fold_calls p l st :
  exists new, calls (fold_left (compare_step p) l st) = calls st ++ new /\
    (forall c, c ∈ new ->
       rival (hp st) c.1 c.2 = true /\
       exists q, q ∈ l /\ (c = (p, q) \/ c = (q, p))) /\
    (forall q, q ∈ l -> rival (hp st) p q = true -> (p, q) ∈ new).
Proof.
  revert st. induction l as [|q l IH]; intros st; cbn [fold_left].
  { exists []. rewrite app_nil_r. split_and!; [done|by intros c ?%elem_of_nil|].
    by intros q ?%elem_of_nil. }
  destruct (compare_step_calls p st q) as (new1 & E1 & Hin1 & Hout1).
  destruct (IH (compare_step p st q)) as (new2 & E2 & Hin2 & Hout2).
  destruct (compare_step_frame p st q) as [Hh _]. rewrite Hh in *.
  exists (new1 ++ new2). split_and!.
  - by rewrite E2, E1, app_assoc.
  - intros c [Hc|Hc]%elem_of_app.
    + destruct (Hin1 c Hc) as [? ?]. split; [done|]. exists q. split; [left|done].
    + destruct (Hin2 c Hc) as [? (q' & ? & ?)]. split; [done|]. exists q'. split; [by right|done].
  - intros q' [->|Hq']%elem_of_cons Hr; apply elem_of_app; [left|right]; auto.
Qed.

Lemma count_step_calls population st p :
  calls (count_step population st p) =
  calls (fold_left (compare_step p) population
           {| S := <[cid (hp st p) := []]> (S st); n := <[cid (hp st p) := 0]> (n st);
              fronts := fronts st; hp := hp st; calls := calls st |}).
Proof. unfold count_step. by destruct (Z.eqb _ 0). Qed.

Lemma count_fold_data h population l st :
  same_data h (hp st) -> same_data h (hp (fold_left (count_step population) l st)).
Proof.
  intros Hd. induction l as [|x l IH] using rev_ind; [done|].
  rewrite fold_left_app. cbn [fold_left].
  destruct (count_step_closed h population _ x IH) as (_ & _ & _ & ->).
  destruct (unbeaten h population x); [|done].
  eapply same_data_trans; [exact IH|apply set_rank_data].
Qed.

Lemma count_fold_calls h population l st :
  same_data h (hp st) ->
  exists new, calls (fold_left (count_step population) l st) = calls st ++ new /\
    (forall c, c ∈ new ->
       rival h c.1 c.2 = true /\
       (c.1 ∈ l /\ c.2 ∈ population \/ c.1 ∈ population /\ c.2 ∈ l)) /\
    (forall p q, p ∈ l -> q ∈ population -> rival h p q = true -> (p, q) ∈ new).
Proof.
  intros Hd. induction l as [|p l IH] using rev_ind.
  { exists []. simpl. rewrite app_nil_r. split_and!; [done|by intros c ?%elem_of_nil|].
    by intros p q ?%elem_of_nil. }
  rewrite fold_left_app. cbn [fold_left].
  destruct IH as (new1 & E1 & Hin1 & Hout1).
  pose proof (count_fold_data h population l st Hd) as Hd1.
  set (st1 := fold_left (count_step population) l st) in *.
  rewrite count_step_calls.
  match goal with |- context [fold_left (compare_step p) population ?s] =>
    destruct (compare_fold_calls p population s) as (new2 & E2 & Hin2 & Hout2) end.
  simpl in E2, Hin2, Hout2. rewrite E2, E1, <- app_assoc.
  exists (new1 ++ new2). split; [done|]. split.
  - intros c [Hc|Hc]%elem_of_app.
    + destruct (Hin1 c Hc) as [? Hor]. split; [done|].
      rewrite !elem_of_app. tauto.
    + destruct (Hin2 c Hc) as [Hr (q & Hq & Hor)].
      rewrite (same_data_rival h (hp st1)) in Hr by done. split; [done|].
      rewrite !elem_of_app, !list_elem_of_singleton.
      destruct Hor as [-> | ->]; simpl; tauto.
  - intros p' q [Hp'|Hp']%elem_of_app Hq Hr; apply elem_of_app.
    + left. by apply Hout1.
    + apply list_elem_of_singleton in Hp' as ->.
      right. apply Hout2; [done|]. by rewrite (same_data_rival h (hp st1)).
Qed.

Lemma first_pass_calls h population a b :
  (a, b) ∈ calls (first_pass h population) <->
  a ∈ population /\ b ∈ population /\ cid (h a) <> cid (h b).
Proof.
  destruct (count_fold_calls h population population (init_state h) (same_data_refl h))
    as (new & E & Hin & Hout).
  unfold first_pass. rewrite E. simpl. rewrite <- rival_true. split.
  - intros [Hr Hor]%Hin. simpl in *. tauto.
  - intros (? & ? & ?). by apply Hout.
Qed.

(** C10.  For any population the sort returns, and
    - [dominates] is evaluated on a pair exactly when both candidates are in
      the population and carry different ids, so two candidates with one id
      are never compared;
    - two candidates with one id read and write one entry of [S] and one
      entry of [n]: after the first pass it holds what the last candidate
      with that id left there;
    - a candidate is in front 0 exactly when no candidate with another id
      dominates it.
    Hence a candidate can be in front 0 while a candidate with its id
    dominates it, as the second candidate of [twins] shows. *)
Theorem shared_id_aliasing (h : heap) (population : list addr) :
  exists st h' fs,
    sort_state h population = Some st /\
    fast_nondominated_sort h population = Some (h', fs) /\
    (forall a b, (a, b) ∈ calls st <->
       a ∈ population /\ b ∈ population /\ cid (h a) <> cid (h b)) /\
    (forall a b, a ∈ population -> b ∈ population -> cid (h a) = cid (h b) ->
       exists c, owner h population (cid (h a)) = Some c /\
         cid (h c) = cid (h a) /\
         S st !! cid (h a) = Some (dominated_by h population c) /\
         S st !! cid (h b) = Some (dominated_by h population c) /\
         n (first_pass h population) !! cid (h a)
           = Some (Z.of_nat (length (dominators h population c))) /\
         n (first_pass h population) !! cid (h b)
           = Some (Z.of_nat (length (dominators h population c)))) /\
    (forall F0 a, fs !! 0%nat = Some F0 ->
       (a ∈ F0 <->
        a ∈ population /\
        forall q, q ∈ population -> cid (h q) <> cid (h a) ->
                  dominates (objectives (h q)) (objectives (h a)) = false)) /\
    exists h0' F0 rest,
      fast_nondominated_sort twins twins_population = Some (h0', F0 :: rest) /\
      1%nat ∈ F0 /\ 0%nat ∈ twins_population /\ 0%nat <> 1%nat /\
      cid (twins 0%nat) = cid (twins 1%nat) /\
      dominates (objectives (twins 0%nat)) (objectives (twins 1%nat)) = true.
Proof.
  destruct (sort_result_closed h population) as (h' & fs & Hrun & Hd & H0).
  destruct (sort_state_total h population) as [st Hst].
  exists st, h', fs. split_and!; [done|done| | | |].
  - intros a b. rewrite <- first_pass_calls.
    unfold sort_state in Hst.
    destruct (first_pass_closed h population) as (_ & Hf & _).
    apply sort_loop_shape in Hst as (_ & _ & _ & -> & _); [done|by rewrite Hf].
  - intros a b Ha Hb Hab.
    destruct (owner_is_Some h population a Ha) as [c Hc]. exists c.
    destruct (owner_Some _ _ _ _ Hc) as [_ Hid].
    destruct (first_pass_closed h population) as (_ & Hf & HS & Hn & _).
    unfold sort_state in Hst.
    apply sort_loop_shape in Hst as (_ & _ & -> & _); [|by rewrite Hf].
    rewrite <- Hab, !HS, !Hn, Hc. done.
  - intros F0 a HF0. apply H0 in HF0 as [-> _]. apply elem_of_front0.
  - eexists _, _, _. split; [vm_compute; reflexivity|].
    split_and!; [right; left|left|done|done|done].
Qed.

Lemma shared_id_aliasing_witness :
  exists st h' fs,
    sort_state twins twins_population = Some st /\
    fast_nondominated_sort twins twins_population = Some (h', fs) /\
    ((0%nat, 1%nat) ∉ calls st) /\ ((1%nat, 0%nat) ∉ calls st) /\
    S st !! cid (twins 0%nat) = Some (dominated_by twins twins_population 1%nat) /\
    (forall F0, fs !! 0%nat = Some F0 -> 1%nat ∈ F0).
Proof.
  destruct (shared_id_aliasing twins twins_population)
    as (st & h' & fs & Hst & Hrun & Hcalls & Halias & Hfront & _).
  exists st, h', fs. split_and!; [exact Hst|exact Hrun| | | |].
  - intros (_ & _ & Hne)%Hcalls. by apply Hne.
  - intros (_ & _ & Hne)%Hcalls. by apply Hne.
  - destruct (Halias 0%nat 1%nat) as (c & Hc & _ & HS & _);
      [left|right; left|reflexivity|].
    vm_compute in Hc. injection Hc as <-. exact HS.
  - intros F0 HF0. apply (Hfront F0 1%nat HF0). split; [right; left|].
    intros q _ Hne. exfalso. apply Hne. by destruct q.
Defined.

(** ** Facts about the rounding *)

Section binary64_facts.
Import Binary64.
Local Open Scope Q_scope.

Lemma pow2_nonneg_eq (e : Z) : (0 <= e)%Z -> pow2 e = inject_Z (2 ^ e).
Proof. intros H. unfold pow2. by apply Z.leb_le in H as ->. Qed.

Lemma pow2_neg_eq (e : Z) : (e < 0)%Z -> pow2 e = 1 # Z.to_pos (2 ^ (- e)).
Proof. intros H. unfold pow2. by apply Z.leb_gt in H as ->. Qed.

Lemma pow2_frac (e : Z) :
  pow2 e * inject_Z (2 ^ Z.max 0 (- e)) == inject_Z (2 ^ Z.max 0 e).
Proof.
  destruct (Z.le_gt_cases 0 e) as [H|H].
  - rewrite pow2_nonneg_eq by done.
    rewrite (Z.max_l 0 (- e)), (Z.max_r 0 e) by lia.
    rewrite Z.pow_0_r. change (inject_Z 1) with 1. apply Qmult_1_r.
  - rewrite pow2_neg_eq by done.
    rewrite (Z.max_r 0 (- e)), (Z.max_l 0 e) by lia.
    rewrite Z.pow_0_r. unfold Qeq. cbn [Qnum Qden Qmult inject_Z].
    rewrite Pos.mul_1_r, Z2Pos.id by (apply Z.pow_pos_nonneg; lia). lia.
Qed.

Lemma pow2_pos (e : Z) : 0 < pow2 e.
Proof.
  unfold pow2. destruct (Z.leb 0 e) eqn:E; [|reflexivity].
  apply Z.leb_le in E. change 0 with (inject_Z 0). rewrite <- Zlt_Qlt.
  by apply Z.pow_pos_nonneg.
Qed.

Lemma inject_pow_pos (n : Z) : (0 <= n)%Z -> 0 < inject_Z (2 ^ n).
Proof.
  intros H. change 0 with (inject_Z 0). rewrite <- Zlt_Qlt. by apply Z.pow_pos_nonneg.
Qed.

Lemma pow2_add (a b : Z) : pow2 (a + b) == pow2 a * pow2 b.
Proof.
  pose proof (pow2_frac a) as Ha. pose proof (pow2_frac b) as Hb.
  pose proof (pow2_frac (a + b)) as Hab.
  set (na := Z.max 0 (- a)) in *. set (pa := Z.max 0 a) in *.
  set (nb := Z.max 0 (- b)) in *. set (pb := Z.max 0 b) in *.
  set (nab := Z.max 0 (- (a + b))) in *. set (pab := Z.max 0 (a + b)) in *.
  assert (inject_Z (2 ^ pab) * inject_Z (2 ^ na) * inject_Z (2 ^ nb) ==
          inject_Z (2 ^ pa) * inject_Z (2 ^ pb) * inject_Z (2 ^ nab)) as Hz.
  { rewrite <- !inject_Z_mult. apply inject_Z_injective.
    rewrite <- !Z.pow_add_r by lia. f_equal. lia. }
  pose proof (inject_pow_pos na ltac:(lia)) as Pna.
  pose proof (inject_pow_pos nb ltac:(lia)) as Pnb.
  pose proof (inject_pow_pos nab ltac:(lia)) as Pnab.
  apply (Qmult_inj_r _ _ (inject_Z (2 ^ nab) * inject_Z (2 ^ na) * inject_Z (2 ^ nb))).
  { intros E. assert (0 < inject_Z (2 ^ nab) * inject_Z (2 ^ na) * inject_Z (2 ^ nb)); [|lra].
    repeat apply Qmult_lt_0_compat; done. }
  transitivity ((pow2 (a + b) * inject_Z (2 ^ nab)) * inject_Z (2 ^ na) * inject_Z (2 ^ nb));
    [ring|].
  rewrite Hab, Hz, <- Ha, <- Hb. ring.
Qed.

Lemma pow2_0 : pow2 0 == 1.
Proof. reflexivity. Qed.

Lemma pow2_le (a b : Z) : (a <= b)%Z -> pow2 a <= pow2 b.
Proof.
  intros H. replace b with (a + (b - a))%Z by lia. rewrite pow2_add.
  rewrite <- (Qmult_1_r (pow2 a)) at 1. apply Qmult_le_l; [apply pow2_pos|].
  rewrite pow2_nonneg_eq by lia. change 1 with (inject_Z 1). rewrite <- Zle_Qle.
  pose proof (Z.pow_pos_nonneg 2 (b - a)). lia.
Qed.

Lemma pow2_lt_inv (a b : Z) : pow2 a < pow2 b -> (a < b)%Z.
Proof.
  intros H. destruct (Z.lt_ge_cases a b) as [|Hge]; [done|].
  apply pow2_le in Hge. lra.
Qed.


Lemma rne_comp (x y : Q) : x == y -> rne x = rne y.
Proof.
  intros E. unfold rne. rewrite (Qfloor_comp _ _ E).
  assert (x - inject_Z (Qfloor y) == y - inject_Z (Qfloor y)) as E' by (by rewrite E).
  by rewrite (Qcompare_comp _ _ E' _ _ (Qeq_refl (1 # 2))).
Qed.

Lemma rne_inject (z : Z) : rne (inject_Z z) = z.
Proof.
  unfold rne. rewrite Qfloor_Z.
  destruct (Qcompare (inject_Z z - inject_Z z) (1 # 2)) eqn:E; [|done|].
  - apply Qeq_alt in E. lra.
  - apply Qgt_alt in E. lra.
Qed.

Lemma rne_bounds (t : Q) : (Qfloor t <= rne t <= Qfloor t + 1)%Z.
Proof.
  unfold rne. destruct (Qcompare _ _); [destruct (Z.even _)| |]; lia.
Qed.

Lemma rne_nonneg (t : Q) : 0 <= t -> (0 <= rne t)%Z.
Proof.
  intros H. pose proof (rne_bounds t).
  assert (0 <= Qfloor t)%Z; [|lia].
  rewrite <- (Qfloor_Z 0). by apply Qfloor_resp_le.
Qed.

Lemma rne_le (t : Q) (k : Z) : t <= inject_Z k -> (rne t <= k)%Z.
Proof.
  intros H. unfold rne.
  pose proof (Qfloor_le t) as Hf.
  assert (Qfloor t <= k)%Z as Hk.
  { rewrite <- (Qfloor_Z k). by apply Qfloor_resp_le. }
  assert (inject_Z (Qfloor t) < t -> (Qfloor t + 1 <= k)%Z) as Hup.
  { intros Hlt. assert (inject_Z (Qfloor t) < inject_Z k) as Hlt' by lra.
    rewrite <- Zlt_Qlt in Hlt'. lia. }
  destruct (Qcompare (t - inject_Z (Qfloor t)) (1 # 2)) eqn:E.
  - apply Qeq_alt in E. destruct (Z.even _); [done|]. apply Hup. lra.
  - done.
  - apply Qgt_alt in E. apply Hup. lra.
Qed.

(** [ilog2 x] is the integer part of the binary logarithm. *)
Lemma ilog2_spec (x : Q) :
  0 < x -> pow2 (ilog2 x) <= x /\ x < pow2 (ilog2 x + 1).
Proof.
  intros Hx. destruct x as [n d].
  assert (0 < n)%Z as Hn.
  { unfold Qlt in Hx. simpl in Hx. lia. }
  pose proof (Z.log2_spec n Hn) as [Hn1 Hn2].
  pose proof (Z.log2_spec (Zpos d) (Pos2Z.is_pos d)) as [Hd1 Hd2].
  pose proof (Z.log2_nonneg n) as Ln. pose proof (Z.log2_nonneg (Zpos d)) as Ld.
  set (ln := Z.log2 n) in *. set (ld := Z.log2 (Zpos d)) in *.
  assert (n # d == inject_Z n / inject_Z (Zpos d)) as Eq by apply Qmake_Qdiv.
  assert (0 < inject_Z (Zpos d)) as Pd by reflexivity.
  assert (pow2 ln <= inject_Z n) as A1.
  { rewrite pow2_nonneg_eq by done. by rewrite <- Zle_Qle. }
  assert (inject_Z n < pow2 (ln + 1)) as A2.
  { rewrite pow2_nonneg_eq by lia. by rewrite <- Zlt_Qlt. }
  assert (pow2 ld <= inject_Z (Zpos d)) as B1.
  { rewrite pow2_nonneg_eq by done. by rewrite <- Zle_Qle. }
  assert (inject_Z (Zpos d) < pow2 (ld + 1)) as B2.
  { rewrite pow2_nonneg_eq by lia. by rewrite <- Zlt_Qlt. }
  (* x < pow2 (ln - ld + 1) and pow2 (ln - ld - 1) < x *)
  assert (n # d < pow2 (ln - ld + 1)) as Up.
  { rewrite Eq. apply Qlt_shift_div_r; [done|].
    apply Qlt_le_trans with (pow2 (ln + 1)); [done|].
    replace (ln + 1)%Z with ((ln - ld + 1) + ld)%Z by lia. rewrite pow2_add.
    apply Qmult_le_l; [apply pow2_pos|done]. }
  assert (pow2 (ln - ld - 1) < n # d) as Lo.
  { rewrite Eq. apply Qlt_shift_div_l; [done|].
    apply Qlt_le_trans with (pow2 ln); [|done].
    replace ln with ((ln - ld - 1) + (ld + 1))%Z at 2 by lia. rewrite pow2_add.
    apply Qmult_lt_l; [apply pow2_pos|done]. }
  unfold ilog2. cbn [Qnum Qden]. fold ln ld.
  destruct (Qle_bool (pow2 (ln - ld)) (n # d)) eqn:E.
  - apply Qle_bool_iff in E. split; [done|done].
  - split; [by apply Qlt_le_weak|].
    replace (ln - ld - 1 + 1)%Z with (ln - ld)%Z by lia.
    apply Qnot_le_lt. intros H. apply Qle_bool_iff in H. congruence.
Qed.

(** The result of a rounding has at most 53 significant bits. *)
Lemma round_pos_form (x : Q) :
  0 < x ->
  exists m e, round_pos x = inject_Z m * pow2 e /\
              (0 <= m <= 2 ^ 53)%Z /\ (-1074 <= e)%Z.
Proof.
  intros Hx. unfold round_pos.
  set (e := Z.max (ilog2 x - 52) (-1074)).
  exists (rne (x / pow2 e)), e. split; [done|]. split; [|lia].
  destruct (ilog2_spec x Hx) as [_ Hup].
  pose proof (pow2_pos e) as Pe.
  split.
  - apply rne_nonneg. apply Qle_shift_div_l; [done|]. lra.
  - apply rne_le. apply Qle_shift_div_r; [done|].
    apply Qlt_le_weak, Qlt_le_trans with (pow2 (ilog2 x + 1)); [done|].
    rewrite <- (pow2_nonneg_eq 53) by lia. rewrite <- pow2_add.
    apply pow2_le. lia.
Qed.

(** A number with at most 53 significant bits is not changed. *)
Lemma round_pos_exact (x : Q) (M E : Z) :
  (0 < M < 2 ^ 53)%Z -> (-1074 <= E)%Z -> x == inject_Z M * pow2 E ->
  round_pos x == x.
Proof.
  intros HM HE Hx.
  assert (0 < inject_Z M) as PM.
  { change 0 with (inject_Z 0). rewrite <- Zlt_Qlt. lia. }
  assert (0 < x) as Px.
  { rewrite Hx. apply Qmult_lt_0_compat; [done|apply pow2_pos]. }
  destruct (ilog2_spec x Px) as [Hlo _].
  assert (ilog2 x < 53 + E)%Z as Hlog.
  { apply pow2_lt_inv. apply Qle_lt_trans with x; [done|].
    rewrite Hx, pow2_add, (pow2_nonneg_eq 53) by lia.
    apply Qmult_lt_r; [apply pow2_pos|]. rewrite <- Zlt_Qlt. lia. }
  unfold round_pos. set (e := Z.max (ilog2 x - 52) (-1074)).
  assert (e <= E)%Z as He by lia.
  pose proof (pow2_pos e) as Pe.
  assert (x / pow2 e == inject_Z (M * 2 ^ (E - e))) as Hq.
  { rewrite Hx. replace E with ((E - e) + e)%Z at 1 by lia.
    rewrite pow2_add, (pow2_nonneg_eq (E - e)) by lia.
    rewrite inject_Z_mult. field. lra. }
  rewrite (rne_comp _ _ Hq), rne_inject, Hx.
  replace E with ((E - e) + e)%Z at 2 by lia.
  rewrite pow2_add, (pow2_nonneg_eq (E - e)) by lia.
  rewrite inject_Z_mult. ring.
Qed.


Lemma round53_comp (x y : Q) : x == y -> round53 x = round53 y.
Proof. intros E. unfold round53. by rewrite (Qred_complete _ _ E). Qed.

Lemma Qnum_sign (y : Q) :
  match Qnum y with
  | Z0 => y == 0
  | Zpos _ => 0 < y
  | Zneg _ => 0 < - y
  end.
Proof. destruct y as [[|p|p] d]; reflexivity. Qed.

Lemma round53_exact (x : Q) (M E : Z) :
  (Z.abs M <= 2 ^ 53)%Z -> (-1074 <= E)%Z -> x == inject_Z M * pow2 E ->
  round53 x == x.
Proof.
  intros HM HE Hx.
  assert (forall y N, 0 < y -> y == inject_Z N * pow2 E -> (Z.abs N <= 2 ^ 53)%Z ->
            round_pos y == y) as Hpos.
  { intros y N Py Hy HN.
    assert (0 < N)%Z as PN.
    { destruct (Z.lt_ge_cases 0 N) as [|Hle]; [done|exfalso].
      assert (inject_Z N <= 0) as HN0.
      { change 0 with (inject_Z 0). rewrite <- Zle_Qle. lia. }
      pose proof (pow2_pos E) as PE.
      assert (inject_Z N * pow2 E <= 0); [|lra].
      rewrite <- (Qmult_0_l (pow2 E)). apply Qmult_le_compat_r; [done|lra]. }
    destruct (Z.eq_dec N (2 ^ 53)%Z) as [->|Hne].
    - apply (round_pos_exact y (2 ^ 52)%Z (E + 1)%Z); [lia|lia|].
      rewrite Hy, pow2_add. change (pow2 1) with 2.
      change (2 ^ 53)%Z with (2 ^ 52 * 2)%Z. rewrite inject_Z_mult.
      change (inject_Z 2) with 2. ring.
    - apply (round_pos_exact y N E); [lia|done|done]. }
  unfold round53. pose proof (Qred_correct x) as Hy.
  pose proof (Qnum_sign (Qred x)) as Hs.
  destruct (Qnum (Qred x)).
  - by rewrite <- Hy, Hs.
  - rewrite (Hpos (Qred x) M); [done|done| |done]. by rewrite Hy.
  - rewrite (Hpos (- Qred x) (- M)%Z); [rewrite Hy; ring|done| |lia].
    rewrite Hy, Hx, inject_Z_opp. ring.
Qed.

Lemma round53_form (x : Q) :
  exists m e, round53 x == inject_Z m * pow2 e /\
              (Z.abs m <= 2 ^ 53)%Z /\ (-1074 <= e)%Z.
Proof.
  unfold round53. pose proof (Qnum_sign (Qred x)) as Hs.
  destruct (Qnum (Qred x)).
  - exists 0%Z, 0%Z. split; [reflexivity|]. split; [by vm_compute|lia].
  - destruct (round_pos_form _ Hs) as (m & e & -> & Hm & He).
    exists m, e. split; [reflexivity|]. split; [lia|done].
  - destruct (round_pos_form _ Hs) as (m & e & -> & Hm & He).
    exists (- m)%Z, e. split; [rewrite inject_Z_opp; ring|]. split; [lia|done].
Qed.

(** Rounding twice is rounding once. *)
Lemma round53_idem (x : Q) : round53 (round53 x) == round53 x.
Proof.
  destruct (round53_form x) as (m & e & Hx & Hm & He).
  by apply (round53_exact _ m e).
Qed.

Lemma round53_inject_small (z : Z) :
  (Z.abs z <= 2 ^ 53)%Z -> round53 (inject_Z z) == inject_Z z.
Proof.
  intros H. apply (round53_exact _ z 0); [done|lia|].
  change (pow2 0) with 1. ring.
Qed.


(** *** Truncation *)

Lemma py_int_nonneg (q : Q) : 0 <= q -> Trajectory.py_int q = Qfloor q.
Proof.
  destruct q as [a b]. unfold Qle, Trajectory.py_int, Qfloor. simpl. intros H.
  apply Z.quot_div_nonneg; lia.
Qed.

Lemma py_int_opp (q : Q) : Trajectory.py_int (- q) = (- Trajectory.py_int q)%Z.
Proof.
  destruct q as [a b]. unfold Trajectory.py_int. simpl. by apply Z.quot_opp_l.
Qed.

Lemma py_int_comp (x y : Q) : x == y -> Trajectory.py_int x = Trajectory.py_int y.
Proof.
  intros E. destruct (Qlt_le_dec x 0) as [Hneg|Hpos].
  - assert (Trajectory.py_int (- x) = Trajectory.py_int (- y)) as H.
    { rewrite !py_int_nonneg by lra. apply Qfloor_comp. by rewrite E. }
    rewrite !py_int_opp in H. lia.
  - rewrite !py_int_nonneg by lra. by apply Qfloor_comp.
Qed.

Lemma py_int_inject (z : Z) : Trajectory.py_int (inject_Z z) = z.
Proof. unfold Trajectory.py_int. simpl. apply Z.quot_1_r. Qed.

Lemma py_int_abs_le (v : Q) (k : Z) :
  - inject_Z k <= v <= inject_Z k -> (Z.abs (Trajectory.py_int v) <= k)%Z.
Proof.
  intros [Hlo Hhi].
  assert (forall w, 0 <= w -> w <= inject_Z k -> (0 <= Qfloor w <= k)%Z) as Hfl.
  { intros w Hw Hk. split.
    - rewrite <- (Qfloor_Z 0). by apply Qfloor_resp_le.
    - rewrite <- (Qfloor_Z k). by apply Qfloor_resp_le. }
  destruct (Qlt_le_dec v 0) as [Hneg|Hpos].
  - pose proof (py_int_opp v) as Ho. rewrite py_int_nonneg in Ho by lra.
    pose proof (Hfl (- v) ltac:(lra) ltac:(lra)). lia.
  - rewrite py_int_nonneg by done. pose proof (Hfl v Hpos Hhi). lia.
Qed.

(** The integer part of a float is a float. *)
Lemma trunc_form (m e : Z) :
  (Z.abs m <= 2 ^ 53)%Z ->
  exists M E, inject_Z (Trajectory.py_int (inject_Z m * pow2 e)) == inject_Z M * pow2 E /\
              (Z.abs M <= 2 ^ 53)%Z /\ (0 <= E)%Z.
Proof.
  intros Hm. destruct (Z.le_gt_cases 0 e) as [He|He].
  - exists m, e. split; [|done].
    rewrite (py_int_comp _ (inject_Z (m * 2 ^ e))), py_int_inject.
    + by rewrite inject_Z_mult, pow2_nonneg_eq.
    + by rewrite inject_Z_mult, pow2_nonneg_eq.
  - exists (Trajectory.py_int (inject_Z m * pow2 e)), 0%Z.
    split; [change (pow2 0) with 1; ring|]. split; [|lia].
    assert (Z.abs (Trajectory.py_int (inject_Z m * pow2 e)) <= Z.abs m)%Z; [|lia].
    apply py_int_abs_le.
    pose proof (pow2_pos e) as Pe.
    assert (pow2 e <= 1) as P1.
    { change 1 with (pow2 0). apply pow2_le. lia. }
    assert (inject_Z (Z.abs m) == Qabs (inject_Z m)) as Ha.
    { unfold inject_Z. apply Zabs_Qabs. }
    rewrite Ha. apply Qabs_Qle_condition.
    rewrite Qabs_Qmult, (Qabs_pos (pow2 e)) by lra.
    pose proof (Qabs_nonneg (inject_Z m)) as Hn.
    rewrite (Qmult_comm (Qabs (inject_Z m)) (pow2 e)).
    rewrite <- (Qmult_1_l (Qabs (inject_Z m))) at 2.
    by apply Qmult_le_compat_r.
Qed.

Lemma round53_trunc (x : Q) :
  round53 (inject_Z (Trajectory.py_int (round53 x))) ==
  inject_Z (Trajectory.py_int (round53 x)).
Proof.
  destruct (round53_form x) as (m & e & Hx & Hm & He).
  rewrite (py_int_comp _ _ Hx).
  destruct (trunc_form m e Hm) as (M & E & Ht & HM & HE).
  apply (round53_exact _ M E); [done|lia|done].
Qed.

Lemma float_of_int_steps (x : Q) :
  float_of_int (Z.max 1 (Trajectory.py_int (round53 x))) ==
  inject_Z (Z.max 1 (Trajectory.py_int (round53 x))).
Proof.
  unfold float_of_int.
  destruct (Z.max_spec 1 (Trajectory.py_int (round53 x))) as [[_ ->]|[_ ->]].
  - apply round53_trunc.
  - by apply round53_inject_small.
Qed.

End binary64_facts.

(** ** Facts about the trajectory synthesis *)

Import Trajectory.

Lemma length_linspace01 (num : nat) : length (linspace01 num) = num.
Proof. unfold linspace01. by rewrite length_map, length_seq. Qed.

Lemma length_resample (steps : Z) (vals : list Q) :
  length (resample steps vals) = Z.to_nat steps.
Proof. unfold resample. by rewrite length_map, length_linspace01. Qed.

Lemma total_steps_positive (m : mote) (steps : Z) :
  total_steps m = Some steps -> (1 <= steps)%Z.
Proof.
  unfold total_steps. destruct (_ || _); [done|].
  destruct (Binary64.finite _); [|done]. destruct (Binary64.finite _); [|done].
  intros [= <-]. lia.
Qed.

Lemma seg_steps_positive (total_dist : Q) (steps : Z) (seg : Q) :
  (1 <= seg_steps total_dist steps seg)%Z.
Proof. unfold seg_steps. lia. Qed.

Lemma max_py_int (p : Q) : Z.max 1 (py_int p) = Z.max 1 (Qfloor p).
Proof.
  destruct (Qlt_le_dec p 0) as [Hneg|Hpos].
  - pose proof (py_int_opp p) as Ho. rewrite py_int_nonneg in Ho by lra.
    assert (0 <= Qfloor (- p))%Z.
    { rewrite <- (Qfloor_Z 0). apply Qfloor_resp_le. change (inject_Z 0) with 0%Q. lra. }
    assert (Qfloor p <= 0)%Z.
    { rewrite <- (Qfloor_Z 0). apply Qfloor_resp_le. change (inject_Z 0) with 0%Q. lra. }
    lia.
  - by rewrite py_int_nonneg.
Qed.

(** The step budget is a float. *)
Lemma total_steps_float (m : mote) (steps : Z) :
  total_steps m = Some steps ->
  (Binary64.float_of_int steps == inject_Z steps)%Q.
Proof.
  unfold total_steps. destruct (_ || _); [done|].
  destruct (Binary64.finite _); [|done]. destruct (Binary64.finite _); [|done].
  intros [= <-]. unfold Binary64.fdiv at 1. apply float_of_int_steps.
Qed.

(** The samples of the segment number [i] within the forward trajectory. *)
Lemma forward_blocks (m : mote) (steps : Z) (i : nat) (s : segment) :
  functionPath m !! i = Some s ->
  exists xb xa yb ya,
    forward_xs m steps =
      xb ++ resample (seg_steps (total_distance m) steps (seg_dist s)) (x_vals s) ++ xa /\
    forward_ys m steps =
      yb ++ resample (seg_steps (total_distance m) steps (seg_dist s)) (y_vals s) ++ ya /\
    length xb = length yb /\ length xa = length ya.
Proof.
  intros Hi. unfold forward_xs, forward_ys.
  rewrite <- (take_drop_middle _ _ _ Hi), !flat_map_app. cbn [flat_map].
  eexists _, _, _, _. split; [reflexivity|]. split; [reflexivity|].
  split.
  - induction (take i (functionPath m)) as [|s' l IH]; [done|].
    cbn [flat_map]. by rewrite !length_app, !length_resample, IH.
  - induction (drop (Datatypes.S i) (functionPath m)) as [|s' l IH]; [done|].
    cbn [flat_map]. by rewrite !length_app, !length_resample, IH.
Qed.

(** C2 (as amended).  A segment of the path is allocated
    [max(1, int(proportion * total_steps))] resample points, where the
    proportion is the binary64 quotient of the arc lengths and the product
    is rounded to binary64 and then truncated, not rounded to the nearest
    integer: that many samples of the segment stand in the forward
    trajectory.  This is when no quotient and no product of the path
    overflows, on which [int] raises.  When the total arc length is not
    positive the proportion is 1, nothing overflows and the segment is
    allocated the whole step budget. *)
Theorem step_allocation (m : mote) (steps : Z) (i : nat) (s : segment) :
  total_steps m = Some steps -> functionPath m !! i = Some s ->
  ((total_distance m <= 0)%Q ->
     existsb (fun s' => seg_raises (total_distance m) steps (seg_dist s'))
             (functionPath m) = false /\
     seg_steps (total_distance m) steps (seg_dist s) = steps) /\
  (existsb (fun s' => seg_raises (total_distance m) steps (seg_dist s'))
           (functionPath m) = false ->
     (1 <= seg_steps (total_distance m) steps (seg_dist s))%Z /\
     (exists xb xa yb ya,
        forward_xs m steps =
          xb ++ resample (seg_steps (total_distance m) steps (seg_dist s)) (x_vals s) ++ xa /\
        forward_ys m steps =
          yb ++ resample (seg_steps (total_distance m) steps (seg_dist s)) (y_vals s) ++ ya /\
        length xb = length yb /\ length xa = length ya /\
        length (resample (seg_steps (total_distance m) steps (seg_dist s)) (x_vals s)) =
          Z.to_nat (seg_steps (total_distance m) steps (seg_dist s)) /\
        length (resample (seg_steps (total_distance m) steps (seg_dist s)) (y_vals s)) =
          Z.to_nat (seg_steps (total_distance m) steps (seg_dist s))) /\
     ((0 < total_distance m)%Q ->
        seg_steps (total_distance m) steps (seg_dist s) =
        Z.max 1 (Qfloor (Binary64.round53
                           (Binary64.round53 (seg_dist s / total_distance m) *
                            inject_Z steps))))).
Proof.
  intros Hsteps Hi. split.
  - intros Hzero. apply Qle_bool_iff in Hzero. split.
    + destruct (existsb _ (functionPath m)) eqn:E; [|done].
      apply existsb_exists in E as (s' & _ & Hs').
      unfold seg_raises in Hs'. by rewrite Hzero in Hs'.
    + unfold seg_steps, seg_product. rewrite Hzero. cbn [negb].
      rewrite py_int_inject. apply total_steps_positive in Hsteps. lia.
  - intros _. split_and!.
    + apply seg_steps_positive.
    + destruct (forward_blocks m steps i s Hi) as (xb & xa & yb & ya & Hx & Hy & Hb & Ha).
      exists xb, xa, yb, ya. by rewrite !length_resample.
    + intros Hpos. unfold seg_steps, seg_product.
      destruct (Qle_bool (total_distance m) 0) eqn:E.
      { apply Qle_bool_iff in E. lra. }
      cbn [negb]. rewrite max_py_int. do 2 f_equal.
      unfold Binary64.fmul, Binary64.fdiv. apply round53_comp.
      by rewrite (total_steps_float m steps Hsteps).
Qed.

Lemma step_allocation_witness :
  total_steps uneven_legs = Some 10%Z /\
  functionPath uneven_legs !! 0%nat = Some (straight 0 27) /\
  existsb (fun s' => seg_raises (total_distance uneven_legs) 10 (seg_dist s'))
          (functionPath uneven_legs) = false /\
  seg_steps (total_distance uneven_legs) 10 (seg_dist (straight 0 27)) =
    Z.max 1 (Qfloor (Binary64.round53
                       (Binary64.round53 (27 / total_distance uneven_legs) * 10))).
Proof.
  split; [vm_compute; reflexivity|]. split; [reflexivity|].
  split; [vm_compute; reflexivity|].
  destruct (step_allocation uneven_legs 10 0 (straight 0 27)) as [_ H];
    [vm_compute; reflexivity|reflexivity|].
  destruct H as (_ & _ & H); [vm_compute; reflexivity|].
  apply H. reflexivity.
Defined.

(** C2, as stated with [round], fails: with 10 steps, a segment of length 27
    in a path of length 100 is allocated 2 points, where rounding 2.7 would
    give 3.  The rounding of the floats shows as well: with 100 steps a
    segment of length 29 in a path of length 100 is allocated 28 points,
    because the binary64 product [29 / 100 * 100] is below 29. *)
Lemma step_allocation_counterexample :
  total_steps uneven_legs = Some 10%Z /\
  seg_steps (total_distance uneven_legs) 10 (seg_dist (straight 0 27)) = 2%Z /\
  seg_steps_rounded (total_distance uneven_legs) 10 (seg_dist (straight 0 27)) = 3%Z /\
  length (forward_xs uneven_legs 10) = 9%nat /\
  seg_steps 100 100 29 = 28%Z /\ seg_steps_rounded 100 100 29 = 29%Z.
Proof. split_and!; vm_compute; reflexivity. Qed.

(** *** The loop over the mobile motes *)

Lemma mote_step_closed (st st' : gen_state) (m : mote) :
  mote_step st m = Some st' ->
  exists steps,
    total_steps m = Some steps /\
    mote_index st' = Datatypes.S (mote_index st) /\
    max_steps st' = Z.max (max_steps st) steps /\
    mobile_trajectories st' =
      mobile_trajectories st ++
      [{| mote_id := mote_index st; xs := x_full m steps; ys := y_full m steps;
          dt := timeStep m |}].
Proof.
  unfold mote_step. destruct (total_steps m) as [steps|]; [|done].
  destruct (existsb _ (functionPath m)); [done|].
  destruct (x_full m steps) as [|x0 ?] eqn:Ex; [done|].
  destruct (y_full m steps) as [|y0 ?] eqn:Ey; [done|].
  intros [= <-]. exists steps. simpl. by rewrite Ex, Ey.
Qed.

(** After the loop: one trajectory per mote, in order, numbered from
    [mote_index]; [max_steps] is the largest step budget met (or the
    starting value). *)
Lemma mote_loop_closed (motes : list mote) (st st' : gen_state) :
  mote_loop st motes = Some st' ->
  length (mobile_trajectories st') =
    (length (mobile_trajectories st) + length motes)%nat /\
  (forall k m, motes !! k = Some m ->
     exists steps,
       total_steps m = Some steps /\ (steps <= max_steps st')%Z /\
       mobile_trajectories st' !! (length (mobile_trajectories st) + k)%nat =
         Some {| mote_id := (mote_index st + k)%nat; xs := x_full m steps;
                 ys := y_full m steps; dt := timeStep m |}) /\
  (forall j, (j < length (mobile_trajectories st))%nat ->
     mobile_trajectories st' !! j = mobile_trajectories st !! j) /\
  (max_steps st <= max_steps st')%Z /\
  (max_steps st' = max_steps st \/
   exists m, m ∈ motes /\ total_steps m = Some (max_steps st')).
Proof.
  revert st. induction motes as [|m motes IH]; intros st; simpl.
  { intros [= <-]. split_and!; [lia|done|done|lia|by left]. }
  destruct (mote_step st m) as [st1|] eqn:E1; [|done]. intros Hrun.
  apply mote_step_closed in E1 as (steps & Hsteps & Hidx & Hmax & Htr).
  destruct (IH st1 Hrun) as (Hlen & Hk & Hold & Hle & Hmx).
  rewrite Htr, length_app in Hlen, Hk, Hold. simpl in Hlen, Hk, Hold.
  split_and!.
  - lia.
  - intros [|k] m' Hm'; simpl in Hm'.
    + injection Hm' as <-. exists steps. split_and!; [done|lia|].
      rewrite Hold by lia. rewrite Nat.add_0_r, lookup_app_r by lia.
      by rewrite Nat.sub_diag, Nat.add_0_r.
    + destruct (Hk k m' Hm') as (steps' & ? & ? & Hlook). exists steps'.
      split_and!; [done|done|]. rewrite Hidx in Hlook.
      replace (mote_index st + Datatypes.S k)%nat with (Datatypes.S (mote_index st) + k)%nat by lia.
      rewrite <- Hlook. f_equal. lia.
  - intros j Hj. rewrite Hold by lia. by apply lookup_app_l.
  - lia.
  - destruct Hmx as [Hmx|(m' & Hm' & Hmx)].
    + rewrite Hmx, Hmax. destruct (Z.max_spec (max_steps st) steps) as [[_ ->]|[_ ->]].
      * right. exists m. split; [left|done].
      * by left.
    + right. exists m'. split; [by right|done].
Qed.

(** *** The timeline merge *)

Lemma emit_ids (step : nat) (t : trajectory) (s : sample) :
  s ∈ emit step t -> s_id s = mote_id t.
Proof.
  unfold emit. destruct (Nat.ltb _ _); [|by intros ?%elem_of_nil].
  by intros ->%list_elem_of_singleton.
Qed.

Lemma block_cons (t : trajectory) (trajs : list trajectory) (step : nat) :
  block (t :: trajs) step = emit step t ++ block trajs step.
Proof. done. Qed.

Lemma block_ids (trajs : list trajectory) (step : nat) (s : sample) :
  s ∈ block trajs step -> s_id s ∈ mote_id <$> trajs.
Proof.
  induction trajs as [|t trajs IH]; [by intros ?%elem_of_nil|].
  rewrite block_cons, fmap_cons. intros [Hs|Hs]%elem_of_app.
  - apply emit_ids in Hs as ->. left.
  - right. by apply IH.
Qed.

(** With distinct mote ids, the samples of one mote in a block are those
    its own trajectory emits. *)
Lemma block_filter (trajs : list trajectory) (step : nat) (t : trajectory) :
  NoDup (mote_id <$> trajs) -> t ∈ trajs ->
  filter (fun s => s_id s = mote_id t) (block trajs step) = emit step t.
Proof.
  induction trajs as [|t0 trajs IH]; intros Hnd Ht; [by apply elem_of_nil in Ht|].
  rewrite fmap_cons in Hnd. apply NoDup_cons in Hnd as [Hfresh Hnd].
  rewrite block_cons, filter_app.
  assert (forall t', filter (fun s => s_id s = mote_id t') (emit step t0) =
                     if decide (mote_id t0 = mote_id t') then emit step t0 else []) as Hhead.
  { intros t'. unfold emit. destruct (Nat.ltb _ _); [|by case_decide].
    rewrite filter_cons, filter_nil. simpl. by repeat case_decide. }
  rewrite Hhead. apply elem_of_cons in Ht as [->|Ht].
  - rewrite decide_True by done.
    assert (filter (fun s => s_id s = mote_id t0) (block trajs step) = []) as ->.
    2:{ by rewrite app_nil_r. }
    destruct (filter _ (block trajs step)) as [|s l] eqn:E; [done|exfalso].
    assert (s ∈ filter (fun s => s_id s = mote_id t0) (block trajs step)) as Hs
      by (rewrite E; left).
    apply list_elem_of_filter in Hs as [Hid Hs%block_ids]. by rewrite Hid in Hs.
  - rewrite decide_False; [by apply IH|].
    intros Heq. apply Hfresh. rewrite Heq. by apply list_elem_of_fmap_2.
Qed.

Lemma merge_lookup (steps : Z) (trajs : list trajectory) (step : nat) :
  (step < Z.to_nat (2 * steps))%nat ->
  merge steps trajs !! step = Some (block trajs step).
Proof.
  intros H. unfold merge. change map with (@fmap list _) at 1.
  rewrite list_lookup_fmap, lookup_seq_lt by done. done.
Qed.

(** C3 (as amended).  [max_steps] is the largest step budget
    [total_steps] over the mobile motes; the trace has one block for each
    global step from 0 to [2 * max_steps - 1]; in the block of a step, a
    mote whose trajectory has a sample at that index contributes exactly
    one sample, with elapsed time [step * time_step] and the position at
    that index, and a mote whose trajectory is shorter contributes none.
    The trajectories are those of the mobile motes, in order, each with its
    mote's own time step. *)
Theorem timeline_merge (fixedMotes : list (Q * Q)) (mobileMotes : list mote)
    (r : positions) :
  generate_positions_from_json fixedMotes mobileMotes = Some r ->
  (forall m, m ∈ mobileMotes ->
     exists steps, total_steps m = Some steps /\ (steps <= step_bound r)%Z) /\
  (mobileMotes = [] /\ step_bound r = 0%Z \/
   exists m, m ∈ mobileMotes /\ total_steps m = Some (step_bound r)) /\
  length (trace r) = Z.to_nat (2 * step_bound r) /\
  (forall step t b, trace r !! step = Some b -> t ∈ trajectories r ->
     filter (fun s => s_id s = mote_id t) b =
       if Nat.ltb step (length (xs t)) then
         [{| s_id := mote_id t; s_time := inject_Z (Z.of_nat step) * dt t;
             s_x := nth step (xs t) 0%Q; s_y := nth step (ys t) 0%Q |}]
       else []) /\
  length (trajectories r) = length mobileMotes /\
  forall k m, mobileMotes !! k = Some m ->
    exists steps,
      total_steps m = Some steps /\
      trajectories r !! k =
        Some {| mote_id := (length fixedMotes + k)%nat; xs := x_full m steps;
                ys := y_full m steps; dt := timeStep m |}.
Proof.
  unfold generate_positions_from_json.
  destruct (mote_loop _ mobileMotes) as [st|] eqn:Hloop; [|done].
  intros [= <-]. simpl.
  apply mote_loop_closed in Hloop as (Hlen & Hk & _ & Hle & Hmx). simpl in *.
  assert (forall k t, mobile_trajectories st !! k = Some t ->
            mote_id t = (length fixedMotes + k)%nat) as Hid.
  { intros k t Ht. pose proof (lookup_lt_Some _ _ _ Ht) as Hlt. rewrite Hlen in Hlt.
    destruct (lookup_lt_is_Some_2 mobileMotes k Hlt) as [m Hm].
    destruct (Hk k m Hm) as (steps & _ & _ & Hlook). rewrite Hlook in Ht. by injection Ht as <-. }
  split_and!.
  - intros m [k Hm]%list_elem_of_lookup. destruct (Hk k m Hm) as (steps & ? & ? & _). eauto.
  - destruct Hmx as [Hmx|Hmx]; [left|by right]. split; [|done].
    destruct mobileMotes as [|m ?]; [done|exfalso].
    destruct (Hk 0%nat m eq_refl) as (steps & Hs%total_steps_positive & ? & _). lia.
  - unfold merge. by rewrite length_map, length_seq.
  - intros step t b Hb Ht.
    assert (step < Z.to_nat (2 * max_steps st))%nat as Hstep.
    { apply lookup_lt_Some in Hb. unfold merge in Hb. by rewrite length_map, length_seq in Hb. }
    rewrite merge_lookup in Hb by done. injection Hb as <-.
    rewrite block_filter; [done| |done].
    apply NoDup_alt. intros i j x Hi Hj.
    rewrite list_lookup_fmap in Hi, Hj.
    destruct (mobile_trajectories st !! i) as [ti|] eqn:Ei; [|done].
    destruct (mobile_trajectories st !! j) as [tj|] eqn:Ej; [|done].
    simpl in Hi, Hj. apply Hid in Ei, Ej. injection Hi as <-. injection Hj as Hj. lia.
  - done.
  - intros k m Hm. destruct (Hk k m Hm) as (steps & ? & _ & ?). eauto.
Qed.

Lemma timeline_merge_witness :
  exists r,
    generate_positions_from_json [(0, 0)%Q] [there_and_back; three_legs] = Some r /\
    length (trace r) = Z.to_nat (2 * step_bound r) /\
    exists m, m ∈ [there_and_back; three_legs] /\ total_steps m = Some (step_bound r).
Proof.
  eexists. split; [vm_compute; reflexivity|].
  match goal with |- length (trace ?r) = _ /\ _ =>
    destruct (timeline_merge [(0, 0)%Q] [there_and_back; three_legs] r)
      as (_ & [[Hnil _]|Hmax] & Hlen & _) end.
  - vm_compute. reflexivity.
  - discriminate Hnil.
  - split; [exact Hlen|exact Hmax].
Defined.

(** C3, as stated, fails: for [three_legs] the step budget is 1 while the
    forward trajectory has 3 samples (one for each segment), so [max_steps]
    is not the largest sample count, the trace has 2 blocks, and the third
    sample of the trajectory is not emitted. *)
Lemma timeline_merge_counterexample :
  exists r t,
    generate_positions_from_json [] [three_legs] = Some r /\
    trajectories r = [t] /\
    step_bound r = 1%Z /\
    length (forward_xs three_legs 1) = 3%nat /\
    length (xs t) = 3%nat /\
    length (trace r) = 2%nat /\
    length (concat (trace r)) = 2%nat.
Proof. eexists _, _. split; [vm_compute; reflexivity|]. split_and!; reflexivity. Qed.

(** *** The round trip *)

Lemma length_forward (m : mote) (steps : Z) :
  length (forward_xs m steps) = length (forward_ys m steps).
Proof.
  unfold forward_xs, forward_ys. induction (functionPath m) as [|s l IH]; [done|].
  simpl. by rewrite !length_app, !length_resample, IH.
Qed.

Lemma round_trip_length (v : list Q) :
  length (round_trip true v) = (2 * length v)%nat.
Proof. unfold round_trip. rewrite length_app, length_rev. lia. Qed.

Lemma round_trip_mirror (v : list Q) (i : nat) :
  (i < length v)%nat ->
  nth (length (round_trip true v) - 1 - i) (round_trip true v) 0%Q =
    nth i (round_trip true v) 0%Q /\
  nth i (round_trip true v) 0%Q = nth i v 0%Q.
Proof.
  intros Hi. rewrite round_trip_length. unfold round_trip.
  rewrite (app_nth1 v (rev v) 0%Q Hi). split; [|done].
  rewrite app_nth2 by lia. rewrite rev_nth by lia. f_equal. lia.
Qed.

(** C6.  For a mote with the round-trip flag set, the synthesized trajectory
    has twice as many samples as the forward trajectory; the position at
    index [length - 1 - i] is the position at index [i] for every [i] of the
    forward half; the elapsed time of the sample emitted at a step is
    [step * time_step] and grows with the step. *)
Theorem round_trip_symmetry (fixedMotes : list (Q * Q)) (mobileMotes : list mote)
    (r : positions) (k : nat) (m : mote) :
  generate_positions_from_json fixedMotes mobileMotes = Some r ->
  mobileMotes !! k = Some m -> isRoundTrip m = true ->
  exists steps t,
    total_steps m = Some steps /\ trajectories r !! k = Some t /\
    length (xs t) = (2 * length (forward_xs m steps))%nat /\
    length (ys t) = (2 * length (forward_ys m steps))%nat /\
    length (forward_xs m steps) = length (forward_ys m steps) /\
    (forall i, (i < length (forward_xs m steps))%nat ->
       nth (length (xs t) - 1 - i) (xs t) 0%Q = nth i (xs t) 0%Q /\
       nth (length (ys t) - 1 - i) (ys t) 0%Q = nth i (ys t) 0%Q /\
       nth i (xs t) 0%Q = nth i (forward_xs m steps) 0%Q /\
       nth i (ys t) 0%Q = nth i (forward_ys m steps) 0%Q) /\
    (forall step, (step < length (xs t))%nat ->
       exists s, emit step t = [s] /\
         (s_time s == inject_Z (Z.of_nat step) * timeStep m)%Q /\
         s_x s = nth step (xs t) 0%Q /\ s_y s = nth step (ys t) 0%Q) /\
    (forall i j, (0 <= timeStep m)%Q -> (i <= j)%nat ->
       (inject_Z (Z.of_nat i) * timeStep m <= inject_Z (Z.of_nat j) * timeStep m)%Q).
Proof.
  unfold generate_positions_from_json.
  destruct (mote_loop _ mobileMotes) as [st|] eqn:Hloop; [|done].
  intros [= <-] Hm Hrt. simpl.
  apply mote_loop_closed in Hloop as (_ & Hk & _). simpl in Hk.
  destruct (Hk k m Hm) as (steps & Hsteps & _ & Hlook).
  eexists steps, _. split; [done|]. split; [exact Hlook|]. simpl.
  unfold x_full, y_full. rewrite Hrt, !round_trip_length.
  pose proof (length_forward m steps) as Hfw.
  split_and!; [done|done|done| | |].
  - intros i Hi.
    destruct (round_trip_mirror (forward_xs m steps) i Hi) as [Hx1 Hx2].
    destruct (round_trip_mirror (forward_ys m steps) i) as [Hy1 Hy2]; [lia|].
    rewrite round_trip_length in Hx1, Hy1. done.
  - intros step Hstep. unfold emit. cbn [xs ys dt mote_id].
    rewrite round_trip_length.
    apply Nat.ltb_lt in Hstep as ->. eexists. split; [done|]. by cbn [s_time s_x s_y].
  - intros i j Hdt Hij. apply Qmult_le_compat_r; [|done].
    rewrite <- Zle_Qle. lia.
Qed.

Lemma round_trip_symmetry_witness :
  exists r steps t,
    generate_positions_from_json [(0, 0)%Q] [there_and_back] = Some r /\
    total_steps there_and_back = Some steps /\ trajectories r !! 0%nat = Some t /\
    length (xs t) = (2 * length (forward_xs there_and_back steps))%nat.
Proof.
  eexists. 
  match goal with |- exists steps t, ?g = Some ?r /\ _ =>
    assert (g = Some r) as Hrun by (vm_compute; reflexivity);
    destruct (round_trip_symmetry [(0, 0)%Q] [there_and_back] r 0 there_and_back
                Hrun eq_refl eq_refl) as (steps & t & Hs & Ht & Hlen & _)
  end.
  exists steps, t. split_and!; [exact Hrun|exact Hs|exact Ht|exact Hlen].
Defined.

(** ** Facts about the objective aggregation *)

Import Objectives.
Import ObjectivesSpec.

Lemma sum_skipna_contribution (cells : list cell) :
  (sum_skipna (map to_numeric cells) ==
   fold_right (fun c acc => contribution c + acc) 0 cells)%Q.
Proof.
  induction cells as [|c cells IH]; simpl; [reflexivity|].
  destruct c; simpl; rewrite IH; ring.
Qed.

Lemma sum_all_coerce (df : DataFrame) (col : string) :
  sum_all df col = sum_all (coerce col df) col.
Proof.
  unfold sum_all, has_column, coerce. cbn [columns rows].
  destruct (negb _); [done|]. do 2 f_equal. rewrite map_map.
  apply map_ext. intros r. rewrite String.eqb_refl. by destruct (r col).
Qed.

Lemma Qabs_inject_Z (z : Z) : Qabs (inject_Z z) = inject_Z (Z.abs z).
Proof. reflexivity. Qed.

(** The sum of numbers on a grid is on the grid, within the sum of the
    magnitudes. *)
Lemma grid_sum (k : Z) (cells : list cell) :
  (0 <= k)%Z -> (forall c, In c cells -> on_grid k c) ->
  exists z : Z,
    (fold_right (fun c acc => contribution c + acc) 0 cells * inject_Z (2 ^ k)
       == inject_Z z)%Q /\
    (inject_Z (Z.abs z)
       <= fold_right Qplus 0 (map magnitude cells) * inject_Z (2 ^ k))%Q.
Proof.
  intros Hk. induction cells as [|c cells IH]; intros Hgrid.
  { exists 0%Z. simpl. split; [ring|]. rewrite Qmult_0_l. apply Qle_refl. }
  destruct IH as (z & Hz & Hbound); [intros c' Hc'; apply Hgrid; by right|].
  assert (0 <= inject_Z (2 ^ k))%Q as Hpos.
  { change 0%Q with (inject_Z 0). rewrite <- Zle_Qle. by apply Z.pow_nonneg. }
  pose proof (Hgrid c (or_introl eq_refl)) as Hc.
  destruct c as [q| |]; simpl in *.
  - destruct Hc as [z1 Hz1]. exists (z1 + z)%Z. split.
    + rewrite inject_Z_plus, <- Hz1, <- Hz. ring.
    + eapply Qle_trans.
      { rewrite <- Zle_Qle. apply Z.abs_triangle. }
      rewrite inject_Z_plus, Qmult_plus_distr_l.
      apply Qplus_le_compat; [|done].
      rewrite <- Qabs_inject_Z, <- Hz1, Qabs_Qmult.
      rewrite (Qabs_pos (inject_Z (2 ^ k))); [apply Qle_refl|done].
  - exists z. split; [rewrite <- Hz; ring|].
    eapply Qle_trans; [exact Hbound|]. rewrite Qplus_0_l. apply Qle_refl.
  - exists z. split; [rewrite <- Hz; ring|].
    eapply Qle_trans; [exact Hbound|]. rewrite Qplus_0_l. apply Qle_refl.
Qed.

(** On a column of [exact_cells] the sum is a binary64 number. *)
Lemma exact_cells_sum (k : Z) (cells : list cell) :
  exact_cells k 53 cells ->
  (Binary64.round53 (fold_right (fun c acc => contribution c + acc) 0 cells)
     == fold_right (fun c acc => contribution c + acc) 0 cells)%Q.
Proof.
  intros ([Hk0 Hk1] & Hgrid & Hbound).
  destruct (grid_sum k cells Hk0 Hgrid) as (z & Hz & Hz').
  apply (round53_exact _ z (- k)).
  - rewrite Zle_Qle. eapply Qle_trans; [exact Hz'|exact Hbound].
  - lia.
  - rewrite <- Hz, <- Qmult_assoc, <- (pow2_nonneg_eq k Hk0), <- pow2_add.
    replace (k + - k)%Z with 0%Z by lia. rewrite pow2_0. ring.
Qed.

(** C4 (as amended).  When the energy column is absent the energy objective
    is NaN (no error is raised, and the value is not 0).  When it is present
    a value that does not parse is summed as a missing value is; and on a
    column whose numbers are multiples of one [2^-k] with magnitudes summing
    to at most [2^53 * 2^-k], where the additions of pandas are exact, the
    objective is the sum of the numbers of the column, the other cells
    counting for zero, and it is a binary64 number. *)
Theorem energy_sum_with_skip (df : DataFrame) (value_col : string) :
  (has_column df value_col = false -> sum_all df value_col = NaN) /\
  sum_all df value_col = sum_all (coerce value_col df) value_col /\
  (forall k : Z,
     has_column df value_col = true ->
     exact_cells k 53 (map (fun r => r value_col) (rows df)) ->
     exists total, sum_all df value_col = Fin total /\
       (total == fold_right (fun c acc => contribution c + acc) 0
                   (map (fun r => r value_col) (rows df)))%Q /\
       (Binary64.round53 total == total)%Q) /\
  (forall o, compute_objectives df = Some o ->
     Pareto.energy o = sum_all df "total_energy_mj").
Proof.
  split_and!.
  - intros H. unfold sum_all. by rewrite H.
  - apply sum_all_coerce.
  - intros k H Hexact. unfold sum_all. rewrite H. cbn [negb]. eexists. split; [done|].
    assert (sum_skipna (map (fun r : row => to_numeric (r value_col)) (rows df)) ==
            fold_right (fun c acc => contribution c + acc) 0
              (map (fun r : row => r value_col) (rows df)))%Q as Hsum.
    { rewrite <- sum_skipna_contribution. by rewrite map_map. }
    split; [exact Hsum|].
    eapply Qeq_trans; [|symmetry; exact Hsum].
    eapply Qeq_trans; [|by apply (exact_cells_sum k)].
    by erewrite round53_comp; [|exact Hsum].
  - intros o. unfold compute_objectives.
    destruct (sum_last_minus_first _ _ _ _); [|done]. by intros [= <-].
Qed.

Lemma mixed_table_energy_exact :
  exact_cells 1 53 (map (fun r : row => r "total_energy_mj"%string) (rows mixed_table)).
Proof.
  split; [lia|]. split.
  - intros c [<-|[<-|[<-|[<-|[]]]]]; simpl; [by exists 3%Z|done|by exists 4%Z|done].
  - apply Qle_bool_iff. reflexivity.
Defined.

Lemma energy_sum_with_skip_witness :
  has_column mixed_table "total_energy_mj" = true /\
  exists total, sum_all mixed_table "total_energy_mj" = Fin total /\
    (total == 7 # 2)%Q /\ (Binary64.round53 total == total)%Q.
Proof.
  split; [reflexivity|].
  destruct (energy_sum_with_skip mixed_table "total_energy_mj") as (_ & _ & H & _).
  destruct (H 1%Z eq_refl mixed_table_energy_exact) as (total & Hsum & Htotal & Hfloat).
  exists total. split; [exact Hsum|]. split; [|exact Hfloat].
  rewrite Htotal. reflexivity.
Defined.

(** C4, as stated, fails: a table without the energy column has the energy
    objective NaN, not 0. *)
Lemma energy_sum_with_skip_counterexample :
  has_column decreasing_counter "total_energy_mj" = false /\
  exists o, compute_objectives decreasing_counter = Some o /\
    Pareto.energy o = NaN /\ Pareto.energy o <> Fin 0.
Proof.
  split; [reflexivity|]. eexists. split; [vm_compute; reflexivity|].
  split; [reflexivity|discriminate].
Qed.


Lemma delta_clip_values (e s : Q) :
  exists d, delta_clip (Fin e) (Fin s) = Fin d /\ (0 <= d)%Q /\
    ((s <= e)%Q -> d = (e - s)%Q) /\ ((e < s)%Q -> d = 0%Q).
Proof.
  simpl. eexists. split; [done|].
  destruct (Qle_bool 0 (e - s)) eqn:E.
  - apply Qle_bool_iff in E. split_and!; [done|done|].
    intros Hlt. exfalso. apply (Qlt_not_le _ _ Hlt).
    apply (Qplus_le_l _ _ (- s)). by rewrite Qplus_opp_r.
  - split_and!; [apply Qle_refl| |done].
    intros Hle. exfalso. assert (Qle_bool 0 (e - s) = true); [|congruence].
    apply Qle_bool_iff. apply (Qplus_le_l _ _ s). ring_simplify. done.
Qed.



(** *** Groups of a table whose counter cells are all numbers *)

Lemma In_insert_row node_col time_col r l x :
  In x (insert_row node_col time_col r l) -> x = r \/ In x l.
Proof.
  induction l as [|y l IH]; simpl.
  { intros [->|[]]. by left. }
  destruct (row_le _ _ r y); simpl.
  - intros [->|[->|H]]; [by left|right; by left|right; by right].
  - intros [->|H]; [right; by left|].
    apply IH in H as [->|H]; [by left|right; by right].
Qed.

Lemma In_sort_values node_col time_col l x :
  In x (sort_values node_col time_col l) -> In x l.
Proof.
  induction l as [|r l IH]; simpl; [done|].
  intros [->|H]%In_insert_row; [by left|right; by apply IH].
Qed.



(** *** The order of [sort_values] *)

Lemma Qle_bool_total (x y : Q) : Qle_bool x y = false -> Qle_bool y x = true.
Proof.
  intros H. apply Qle_bool_iff. destruct (Qlt_le_dec y x) as [Hlt|Hle].
  - by apply Qlt_le_weak.
  - apply Qle_bool_iff in Hle. congruence.
Qed.

Lemma Qle_bool_trans (x y z : Q) :
  Qle_bool x y = true -> Qle_bool y z = true -> Qle_bool x z = true.
Proof. rewrite !Qle_bool_iff. apply Qle_trans. Qed.

Lemma key_le_total (a b : option Q) : key_le a b = false -> key_le b a = true.
Proof. destruct a, b; simpl; try done. apply Qle_bool_total. Qed.

Lemma key_le_trans (a b c : option Q) :
  key_le a b = true -> key_le b c = true -> key_le a c = true.
Proof. destruct a, b, c; simpl; try done. apply Qle_bool_trans. Qed.

Lemma key_le_antisym (a b : option Q) :
  key_le a b = true -> key_le b a = true -> key_eq a b.
Proof.
  destruct a, b; simpl; try done. rewrite !Qle_bool_iff. apply Qle_antisym.
Qed.

Lemma row_le_total node_col time_col r1 r2 :
  row_le node_col time_col r1 r2 = false -> row_le node_col time_col r2 r1 = true.
Proof.
  unfold row_le.
  destruct (key_le (key (r1 node_col)) (key (r2 node_col))) eqn:E1,
           (key_le (key (r2 node_col)) (key (r1 node_col))) eqn:E2; try done.
  - apply key_le_total.
  - by apply key_le_total in E1; congruence.
Qed.

Lemma row_le_trans node_col time_col r1 r2 r3 :
  row_le node_col time_col r1 r2 = true -> row_le node_col time_col r2 r3 = true ->
  row_le node_col time_col r1 r3 = true.
Proof.
  unfold row_le.
  destruct (key_le (key (r1 node_col)) (key (r2 node_col))) eqn:E12; [|done].
  destruct (key_le (key (r2 node_col)) (key (r3 node_col))) eqn:E23; [|by destruct (key_le _ _)].
  rewrite (key_le_trans _ _ _ E12 E23).
  destruct (key_le (key (r3 node_col)) (key (r1 node_col))) eqn:E31; [|done].
  rewrite (key_le_trans _ _ _ E23 E31), (key_le_trans _ _ _ E31 E12).
  apply key_le_trans.
Qed.

Lemma row_le_antisym node_col time_col r1 r2 :
  row_le node_col time_col r1 r2 = true -> row_le node_col time_col r2 r1 = true ->
  same_slot node_col time_col r1 r2.
Proof.
  unfold row_le, same_slot.
  destruct (key_le (key (r1 node_col)) (key (r2 node_col))) eqn:E12; [|done].
  destruct (key_le (key (r2 node_col)) (key (r1 node_col))) eqn:E21; [|done].
  intros H1 H2. split; by apply key_le_antisym.
Qed.

Lemma insert_row_perm node_col time_col r l :
  Permutation (insert_row node_col time_col r l) (r :: l).
Proof.
  induction l as [|x l IH]; simpl; [done|].
  destruct (row_le _ _ r x); [done|].
  rewrite IH. apply perm_swap.
Qed.

Lemma sort_values_perm node_col time_col l :
  Permutation (sort_values node_col time_col l) l.
Proof.
  induction l as [|r l IH]; simpl; [done|].
  rewrite insert_row_perm. by constructor.
Qed.

Lemma insert_row_sorted node_col time_col r l :
  sorted_rows node_col time_col l ->
  sorted_rows node_col time_col (insert_row node_col time_col r l).
Proof.
  induction l as [|x l IH]; simpl; [done|]. intros [Hx Hl].
  destruct (row_le node_col time_col r x) eqn:E; simpl.
  - split_and!; [|done|done]. intros y [<-|Hy]; [done|].
    eapply row_le_trans; [exact E|by apply Hx].
  - split; [|by apply IH]. intros y [->|Hy]%In_insert_row; [|by apply Hx].
    by apply row_le_total.
Qed.

Lemma sort_values_sorted node_col time_col l :
  sorted_rows node_col time_col (sort_values node_col time_col l).
Proof.
  induction l as [|r l IH]; simpl; [done|]. by apply insert_row_sorted.
Qed.

(** *** The rows of one node *)













(** * Further facts *)

(** ** The ranking: layers of the fronts *)

Import ParetoLayers.

Lemma filter_length_full (P : addr -> Prop) `{!forall x, Decision (P x)} (d l : list addr) :
  NoDup d -> NoDup l -> (forall x, x ∈ d -> x ∈ l) ->
  length (filter P d) = length (filter P l) ->
  forall x, x ∈ l -> P x -> x ∈ d.
Proof.
  intros Hd Hl Hsub Hlen x Hx HP.
  assert (filter P d ⊆+ filter P l) as Hsm.
  { apply NoDup_submseteq; [by apply NoDup_filter|].
    intros y [? ?]%list_elem_of_filter. apply list_elem_of_filter. auto. }
  apply submseteq_length_Permutation in Hsm; [|lia].
  assert (x ∈ filter P d) as Hin.
  { rewrite Hsm. by apply list_elem_of_filter. }
  by apply list_elem_of_filter in Hin as [_ ?].
Qed.

Lemma filter_length_missing (P : addr -> Prop) `{!forall x, Decision (P x)} (d l : list addr) :
  NoDup d -> NoDup l -> (forall x, x ∈ d -> x ∈ l) ->
  length (filter P d) <> length (filter P l) ->
  exists x, x ∈ l /\ P x /\ x ∉ d.
Proof.
  intros Hd Hl Hsub Hlen.
  destruct (decide (Exists (fun x => P x /\ x ∉ d) l)) as [He|Hne].
  - apply Exists_exists in He as (x & ? & ? & ?). eauto.
  - exfalso. apply Hlen. apply filter_length_eq; [done..|].
    intros x Hx HP. destruct (decide (x ∈ d)) as [|Hnot]; [done|].
    exfalso. apply Hne. apply Exists_exists. eauto.
Qed.

Section layers.
Variables (h : heap) (population : list addr).
Hypothesis Hids : NoDup (cid ∘ h <$> population).

(** The dominators of a candidate of the current front are in the fronts
    already processed. *)
Lemma current_front_layered i st q p :
  sort_inv h population i st -> q ∈ nth i (fronts st) [] ->
  p ∈ population -> edge h p q = true ->
  exists j' Fj', (j' < i)%nat /\ fronts st !! j' = Some Fj' /\ p ∈ Fj'.
Proof using Hids.
  intros (Fs & F & Hf & Hlen & Hd & HS & Hnd & Hsub & Hn & Hiff & Hdone & Hrk) Hq Hp He.
  assert (nth i (fronts st) [] = F) as HF.
  { rewrite Hf, app_nth2 by lia. by replace (i - length Fs)%nat with 0%nat by lia. }
  rewrite HF in Hq.
  assert (q ∈ population) as Hqp by (apply Hsub, elem_of_app; by right).
  apply (Hiff q Hqp) in Hq as [_ Hz]. rewrite (Hn q Hqp) in Hz.
  apply NoDup_app in Hnd as (HndD & _ & _).
  assert (p ∈ concat Fs) as HpD.
  { apply (filter_length_full (fun p => edge h p q) (concat Fs) population);
      [done|by apply population_NoDup with h| | |done|by rewrite He].
    - intros x Hx. apply Hsub, elem_of_app. by left.
    - unfold dominators in Hz. lia. }
  apply elem_of_concat in HpD as (Fj' & HpF & [j' Hj']%list_elem_of_lookup).
  exists j', Fj'. split_and!; [|by rewrite Hf; apply lookup_app_l_Some|done].
  apply lookup_lt_Some in Hj'. lia.
Qed.

(** A candidate that enters the next front has a dominator in the current
    one. *)
Lemma next_front_chained i st st1 next_front q :
  sort_inv h population i st ->
  fold_left (front_step i) (nth i (fronts st) []) (st, []) = (st1, next_front) ->
  q ∈ next_front ->
  exists p, p ∈ nth i (fronts st) [] /\ edge h p q = true.
Proof using Hids.
  intros Hinv Hfold Hq.
  pose proof (sort_inv_step h population Hids i st st1 next_front Hinv Hfold) as Hinv'.
  pose proof (front_fold_frame i (nth i (fronts st) []) st []) as Hframe.
  cbn zeta in Hframe. rewrite Hfold in Hframe. destruct Hframe as (_ & Hf1 & _).
  simpl in Hf1.
  remember {| S := S st1; n := n st1; fronts := fronts st1 ++ [next_front];
              hp := hp st1; calls := calls st1 |} as st2 eqn:E2.
  assert (fronts st2 = fronts st ++ [next_front]) as Hf2 by (by rewrite E2, <- Hf1).
  clear E2 Hf1.
  assert (nth (i + 1) (fronts st2) [] = next_front) as Hnext.
  { destruct Hinv as (Fs & F & Hf & Hlen & _). rewrite Hf2, Hf.
    rewrite app_nth2; rewrite length_app; simpl; [|lia].
    by replace (i + 1 - (length Fs + 1))%nat with 0%nat by lia. }
  assert (forall p, p ∈ population -> edge h p q = true ->
            exists j' Fj', (j' < i + 1)%nat /\ fronts st2 !! j' = Some Fj' /\ p ∈ Fj') as Hlay.
  { intros p Hp He. eapply current_front_layered; eauto. by rewrite Hnext. }
  destruct Hinv' as (Fs' & F' & Hf' & Hlen' & _ & _ & Hnd' & Hsub' & _ & Hiff' & _).
  destruct Hinv as (Fs & F & Hf & Hlen & Hd & HS & Hnd & Hsub & Hn & Hiff & Hdone & Hrk).
  assert (nth i (fronts st) [] = F) as HF.
  { rewrite Hf, app_nth2 by lia. by replace (i - length Fs)%nat with 0%nat by lia. }
  rewrite Hf2, Hf in Hf'. apply app_inj_tail in Hf' as [<- <-].
  rewrite HF in *.
  assert (q ∈ population) as Hqp by (apply Hsub', elem_of_app; by right).
  destruct (proj1 (Hiff' q Hqp) Hq) as [Hnew _].
  rewrite concat_app in Hnew. simpl in Hnew. rewrite app_nil_r in Hnew.
  apply not_elem_of_app in Hnew as [HqD HqF].
  assert (n_at st (cid (h q)) <> 0) as Hnz.
  { intros Hz. apply HqF. by apply Hiff. }
  rewrite (Hn q Hqp) in Hnz.
  apply NoDup_app in Hnd as (HndD & _ & _).
  destruct (filter_length_missing (fun p => edge h p q) (concat Fs) population)
    as (p & Hp & He & HpD); [done|by apply population_NoDup with h| | |].
  { intros x Hx. apply Hsub, elem_of_app. by left. }
  { unfold dominators in Hnz. lia. }
  apply Is_true_true in He. exists p. split; [|done].
  destruct (Hlay p Hp He) as (j' & Fj' & Hj' & Hlook & HpF).
  rewrite Hf2, Hf in Hlook.
  apply lookup_app_Some in Hlook as [Hlook|[Hge Hlook]].
  - apply lookup_app_Some in Hlook as [Hlook|[_ Hlook]].
    + exfalso. apply HpD. apply elem_of_concat. exists Fj'. split; [done|].
      by eapply list_elem_of_lookup_2.
    + by apply list_lookup_singleton_Some in Hlook as [_ <-].
  - rewrite length_app in Hge. simpl in Hge. lia.
Qed.

Lemma sort_inv_length i st :
  sort_inv h population i st -> length (fronts st) = Datatypes.S i.
Proof.
  intros (Fs & F & -> & <- & _). rewrite length_app. simpl. lia.
Qed.

Lemma sort_loop_layers fuel i st st' :
  sort_inv h population i st ->
  layered h population (fronts st) -> chained h (fronts st) ->
  sort_loop fuel i st = Some st' ->
  exists i', sort_inv h population i' st' /\ nth i' (fronts st') [] = [] /\
    layered h population (fronts st') /\ chained h (fronts st').
Proof using Hids.
  revert i st. induction fuel as [|fuel IH]; intros i st Hinv Hlay Hch Hrun; [done|].
  cbn [sort_loop] in Hrun.
  destruct (nth i (fronts st) []) as [|p0 front_i] eqn:Hi.
  { injection Hrun as <-. eauto. }
  destruct (fold_left (front_step i) (p0 :: front_i) (st, [])) as [st1 next_front] eqn:Hfold.
  rewrite <- Hi in Hfold.
  pose proof (sort_inv_step h population Hids i st st1 next_front Hinv Hfold) as Hinv'.
  pose proof (front_fold_frame i (nth i (fronts st) []) st []) as Hframe.
  cbn zeta in Hframe. rewrite Hfold in Hframe. destruct Hframe as (_ & Hf1 & _).
  simpl in Hf1. pose proof (sort_inv_length i st Hinv) as Hlen.
  eapply IH; [exact Hinv'| | |exact Hrun]; simpl; rewrite Hf1.
  - intros j Fj q p Hj Hq Hp He.
    apply lookup_app_Some in Hj as [Hj|[Hge Hj]].
    + destruct (Hlay j Fj q p Hj Hq Hp He) as (j' & Fj' & ? & ? & ?).
      exists j', Fj'. split_and!; [done|by apply lookup_app_l_Some|done].
    + apply list_lookup_singleton_Some in Hj as [Hj <-].
      assert (j = (i + 1)%nat) as -> by lia.
      destruct (current_front_layered (i + 1) _ q p Hinv') as (j' & Fj' & ? & Hl & ?);
        [|done|done|].
      * simpl. rewrite Hf1, app_nth2 by lia.
        by replace (i + 1 - length (fronts st))%nat with 0%nat by lia.
      * simpl in Hl. rewrite Hf1 in Hl. eauto.
  - intros j Fj q Hj Hq.
    apply lookup_app_Some in Hj as [Hj|[Hge Hj]].
    + destruct (Hch j Fj q Hj Hq) as (Fi & p & ? & ? & ?).
      exists Fi, p. split_and!; [by apply lookup_app_l_Some|done|done].
    + apply list_lookup_singleton_Some in Hj as [Hj <-].
      assert (j = i) as -> by lia.
      destruct (next_front_chained i st st1 next_front q Hinv Hfold Hq) as (p & Hp & He).
      exists (nth i (fronts st) []), p. split_and!; [|done|done].
      apply lookup_app_l_Some. rewrite nth_lookup.
      destruct (lookup_lt_is_Some_2 (fronts st) i) as [F ->]; [lia|done].
Qed.

(** The result of the sort for pairwise distinct ids, with its layers. *)
Lemma sort_layers :
  exists h' fs,
    fast_nondominated_sort h population = Some (h', fs) /\
    same_data h h' /\ concat fs ≡ₚ population /\
    (forall j Fj p, fs !! j = Some Fj -> p ∈ Fj -> rank (h' p) = Some j) /\
    layered h population fs /\ chained h fs.
Proof using Hids.
  unfold fast_nondominated_sort.
  destruct (sort_state_total h population) as [st Hst]. rewrite Hst.
  pose proof (sort_inv_init h population Hids) as Hinit.
  destruct (first_pass_closed h population) as (Hd0 & Hf0 & _).
  assert (layered h population (fronts (first_pass h population))) as Hlay0.
  { intros j Fj q p Hj Hq Hp He. rewrite Hf0 in Hj.
    apply list_lookup_singleton_Some in Hj as [-> <-].
    destruct (current_front_layered 0 _ q p Hinit) as (j' & ? & ? & _);
      [by rewrite Hf0|done|done|lia]. }
  assert (chained h (fronts (first_pass h population))) as Hch0.
  { intros j Fj q Hj. rewrite Hf0 in Hj. by destruct j. }
  destruct (sort_loop_layers _ _ _ _ Hinit Hlay0 Hch0 Hst) as (i & Hinv & Hi & Hlay & Hch).
  destruct (sort_inv_complete h population Hids i st Hinv Hi) as (Fs & Hf & Hperm & Hrk).
  destruct Hinv as (_ & _ & _ & _ & Hd & _).
  exists (hp st), (removelast (fronts st)). rewrite Hf, removelast_last in *.
  split_and!; [done|done|done|done| |].
  - intros j Fj q p Hj Hq Hp He.
    destruct (Hlay j Fj q p) as (j' & Fj' & Hlt & Hl & HpF); [by apply lookup_app_l_Some|done..|].
    exists j', Fj'. split_and!; [done| |done].
    apply lookup_lt_Some in Hj. rewrite lookup_app_l in Hl by lia. done.
  - intros j Fj q Hj Hq.
    destruct (Hch j Fj q) as (Fi & p & Hl & ? & ?); [by apply lookup_app_l_Some|done|].
    exists Fi, p. split_and!; [|done|done].
    apply lookup_lt_Some in Hj. rewrite lookup_app_l in Hl by lia. done.
Qed.

End layers.

(** With pairwise distinct ids the recorded dominators of a candidate of the
    population are its dominators. *)
Lemma edge_beats h population p q :
  NoDup (cid ∘ h <$> population) -> p ∈ population -> q ∈ population ->
  edge h p q = beats h p q.
Proof.
  intros Hids Hp Hq. unfold edge.
  destruct (beats h p q) eqn:Hb; [|apply andb_false_r].
  rewrite andb_true_r. apply rival_true. intros Heq.
  assert (p = q) as -> by (by eapply ids_inj).
  by rewrite beats_irrefl in Hb.
Qed.

Lemma layers_member (fs : list (list addr)) (population : list addr) p :
  concat fs ≡ₚ population -> p ∈ population ->
  exists j Fj, fs !! j = Some Fj /\ p ∈ Fj.
Proof.
  intros Hperm Hp. rewrite <- Hperm in Hp.
  apply elem_of_concat in Hp as (Fj & ? & [j ?]%list_elem_of_lookup). eauto.
Qed.

Lemma layers_population (fs : list (list addr)) (population : list addr) j Fj p :
  concat fs ≡ₚ population -> fs !! j = Some Fj -> p ∈ Fj -> p ∈ population.
Proof.
  intros Hperm Hj Hp. rewrite <- Hperm. apply elem_of_concat.
  exists Fj. split; [done|]. by eapply list_elem_of_lookup_2.
Qed.

(** X1.  With pairwise distinct ids, a candidate that dominates another one
    receives a strictly smaller rank. *)
Theorem dominance_lowers_rank (h : heap) (population : list addr) :
  NoDup (cid ∘ h <$> population) ->
  exists h' fs,
    fast_nondominated_sort h population = Some (h', fs) /\
    forall p q, p ∈ population -> q ∈ population ->
      dominates (objectives (h p)) (objectives (h q)) = true ->
      exists rp rq, rank (h' p) = Some rp /\ rank (h' q) = Some rq /\ (rp < rq)%nat.
Proof.
  intros Hids.
  destruct (sort_layers h population Hids) as (h' & fs & Hrun & _ & Hperm & Hrk & Hlay & _).
  exists h', fs. split; [done|]. intros p q Hp Hq Hdom.
  destruct (layers_member fs population q Hperm Hq) as (j & Fj & Hj & HqF).
  destruct (Hlay j Fj q p Hj HqF Hp) as (j' & Fj' & Hlt & Hj' & HpF).
  { by rewrite (edge_beats h population). }
  exists j', j. split_and!; [by eapply Hrk|by eapply Hrk|done].
Qed.

Lemma dominance_lowers_rank_witness :
  exists h' fs,
    fast_nondominated_sort scenario scenario_population = Some (h', fs) /\
    exists rp rq, rank (h' 0%nat) = Some rp /\ rank (h' 2%nat) = Some rq /\ (rp < rq)%nat.
Proof.
  destruct (dominance_lowers_rank scenario scenario_population) as (h' & fs & Hrun & H).
  { apply (bool_decide_unpack _). vm_compute. exact I. }
  exists h', fs. split; [exact Hrun|].
  apply (H 0%nat 2%nat); [left|right; right; left|reflexivity].
Defined.

(** X2.  With pairwise distinct ids, every candidate of a front after the
    first is dominated by a candidate of the front just before it. *)
Theorem front_dominated_by_previous (h : heap) (population : list addr) :
  NoDup (cid ∘ h <$> population) ->
  exists h' fs,
    fast_nondominated_sort h population = Some (h', fs) /\
    forall j Fj q, fs !! Datatypes.S j = Some Fj -> q ∈ Fj ->
      exists Fi p, fs !! j = Some Fi /\ p ∈ Fi /\
        dominates (objectives (h p)) (objectives (h q)) = true.
Proof.
  intros Hids.
  destruct (sort_layers h population Hids) as (h' & fs & Hrun & _ & Hperm & _ & _ & Hch).
  exists h', fs. split; [done|]. intros j Fj q Hj Hq.
  destruct (Hch j Fj q Hj Hq) as (Fi & p & Hi & Hp & He).
  exists Fi, p. split_and!; [done|done|].
  pose proof (layers_population fs population _ _ _ Hperm Hi Hp).
  pose proof (layers_population fs population _ _ _ Hperm Hj Hq).
  by rewrite (edge_beats h population) in He.
Qed.

Lemma front_dominated_by_previous_witness :
  exists h' fs,
    fast_nondominated_sort scenario scenario_population = Some (h', fs) /\
    exists Fi p, fs !! 1%nat = Some Fi /\ p ∈ Fi /\
      dominates (objectives (scenario p)) (objectives (scenario 3%nat)) = true.
Proof.
  destruct (front_dominated_by_previous scenario scenario_population)
    as (h' & fs & Hrun & H).
  { apply (bool_decide_unpack _). vm_compute. exact I. }
  exists h', fs. split; [exact Hrun|].
  vm_compute in Hrun. injection Hrun as <- <-.
  apply (H 1%nat [3%nat] 3%nat); [reflexivity|left].
Defined.

(** X3.  With pairwise distinct ids, the candidates of rank 0 are exactly
    the candidates that no candidate of the population dominates, and they
    are the members of the first returned front. *)
Theorem front0_is_pareto_set (h : heap) (population : list addr) :
  NoDup (cid ∘ h <$> population) ->
  exists h' fs,
    fast_nondominated_sort h population = Some (h', fs) /\
    forall p, p ∈ population ->
      (rank (h' p) = Some 0%nat <->
       forall q, q ∈ population ->
         dominates (objectives (h q)) (objectives (h p)) = false) /\
      (rank (h' p) = Some 0%nat <-> exists F0, fs !! 0%nat = Some F0 /\ p ∈ F0).
Proof.
  intros Hids.
  destruct (sort_layers h population Hids) as (h' & fs & Hrun & _ & Hperm & Hrk & Hlay & Hch).
  exists h', fs. split; [done|]. intros p Hp.
  destruct (layers_member fs population p Hperm Hp) as (j & Fj & Hj & HpF).
  pose proof (Hrk j Fj p Hj HpF) as Hrank. rewrite Hrank.
  assert (Some j = Some 0%nat <-> exists F0, fs !! 0%nat = Some F0 /\ p ∈ F0) as Hmem.
  { split.
    - intros [= ->]. eauto.
    - intros (F0 & H0 & Hp0). pose proof (Hrk _ _ _ H0 Hp0). congruence. }
  split; [|done]. split.
  - intros [= ->] q Hq.
    destruct (dominates _ _) eqn:Hdom; [exfalso|done].
    destruct (Hlay 0%nat Fj p q Hj HpF Hq) as (j' & _ & Hlt & _); [|lia].
    by rewrite (edge_beats h population).
  - intros Hnone. destruct j as [|j]; [done|exfalso].
    destruct (Hch j Fj p Hj HpF) as (Fi & q & Hi & Hq & He).
    pose proof (layers_population fs population _ _ _ Hperm Hi Hq) as Hqp.
    rewrite (edge_beats h population) in He by done.
    unfold beats in He. by rewrite Hnone in He.
Qed.

Lemma front0_is_pareto_set_witness :
  exists h' fs,
    fast_nondominated_sort scenario scenario_population = Some (h', fs) /\
    (rank (h' 1%nat) = Some 0%nat <->
     forall q, q ∈ scenario_population ->
       dominates (objectives (scenario q)) (objectives (scenario 1%nat)) = false).
Proof.
  destruct (front0_is_pareto_set scenario scenario_population) as (h' & fs & Hrun & H).
  { apply (bool_decide_unpack _). vm_compute. exact I. }
  exists h', fs. split; [exact Hrun|].
  apply (H 1%nat). right. left.
Defined.

(** *** The layers do not depend on the order of the population *)

Lemma layers_step_le h popA (fsA fsB : list (list addr)) (m : nat) :
  layered h popA fsA -> chained h fsB ->
  (forall j F p, fsB !! j = Some F -> p ∈ F -> p ∈ popA) ->
  (forall q a b Fa Fb, (a + b < m)%nat ->
     fsA !! a = Some Fa -> q ∈ Fa -> fsB !! b = Some Fb -> q ∈ Fb -> a = b) ->
  forall q a b Fa Fb, (a + b <= m)%nat ->
    fsA !! a = Some Fa -> q ∈ Fa -> fsB !! b = Some Fb -> q ∈ Fb -> (b <= a)%nat.
Proof.
  intros HlayA HchB HsubB IH q a b Fa Fb Hn Ha HqA Hb HqB.
  destruct b as [|k]; [lia|].
  destruct (HchB k Fb q Hb HqB) as (Fi & p & Hk & Hp & He).
  destruct (HlayA a Fa q p Ha HqA) as (a' & Fa' & Hlt & Ha' & HpA); [by eapply HsubB|done|].
  assert (a' = k) as ->; [|lia].
  eapply (IH p a' k); eauto. lia.
Qed.

Lemma layers_unique h popA popB (fsA fsB : list (list addr)) :
  popA ≡ₚ popB ->
  concat fsA ≡ₚ popA -> layered h popA fsA -> chained h fsA ->
  concat fsB ≡ₚ popB -> layered h popB fsB -> chained h fsB ->
  forall q a b Fa Fb,
    fsA !! a = Some Fa -> q ∈ Fa -> fsB !! b = Some Fb -> q ∈ Fb -> a = b.
Proof.
  intros Hperm HpA HlayA HchA HpB HlayB HchB.
  assert (forall j F p, fsB !! j = Some F -> p ∈ F -> p ∈ popA) as HsubB.
  { intros j F p Hj Hp. rewrite Hperm. by eapply layers_population. }
  assert (forall j F p, fsA !! j = Some F -> p ∈ F -> p ∈ popB) as HsubA.
  { intros j F p Hj Hp. rewrite <- Hperm. by eapply layers_population. }
  assert (forall m q a b Fa Fb, (a + b < m)%nat ->
            fsA !! a = Some Fa -> q ∈ Fa -> fsB !! b = Some Fb -> q ∈ Fb -> a = b) as Hall.
  { intros m. induction m as [|m IH]; intros q a b Fa Fb Hn Ha HqA Hb HqB; [lia|].
    assert (b <= a)%nat.
    { eapply (layers_step_le h popA fsA fsB m); eauto. lia. }
    assert (a <= b)%nat; [|lia].
    eapply (layers_step_le h popB fsB fsA m); eauto; [|lia].
    intros q' b' a' Fb' Fa' Hlt ? ? ? ?. symmetry. eapply (IH q' a' b'); eauto. lia. }
  intros q a b Fa Fb. by apply (Hall (Datatypes.S (a + b))); [lia|..].
Qed.

(** X4.  With pairwise distinct ids, the rank of a candidate does not depend
    on the order in which the population lists the candidates: two
    populations that are permutations of each other give every candidate
    the same rank, and fronts with the same members. *)
Theorem rank_order_independent (h : heap) (population1 population2 : list addr) :
  NoDup (cid ∘ h <$> population1) -> population1 ≡ₚ population2 ->
  exists h1 fs1 h2 fs2,
    fast_nondominated_sort h population1 = Some (h1, fs1) /\
    fast_nondominated_sort h population2 = Some (h2, fs2) /\
    (forall p, p ∈ population1 -> rank (h1 p) = rank (h2 p)) /\
    (forall j q, (exists F1, fs1 !! j = Some F1 /\ q ∈ F1) <->
                 (exists F2, fs2 !! j = Some F2 /\ q ∈ F2)).
Proof.
  intros Hids1 Hperm.
  assert (NoDup (cid ∘ h <$> population2)) as Hids2.
  { by rewrite <- Hperm. }
  destruct (sort_layers h population1 Hids1)
    as (h1 & fs1 & Hrun1 & _ & Hp1 & Hrk1 & Hlay1 & Hch1).
  destruct (sort_layers h population2 Hids2)
    as (h2 & fs2 & Hrun2 & _ & Hp2 & Hrk2 & Hlay2 & Hch2).
  pose proof (layers_unique h population1 population2 fs1 fs2
                Hperm Hp1 Hlay1 Hch1 Hp2 Hlay2 Hch2) as Huniq.
  exists h1, fs1, h2, fs2. split_and!; [done|done| |].
  - intros p Hp.
    destruct (layers_member fs1 population1 p Hp1 Hp) as (a & Fa & Ha & HpA).
    destruct (layers_member fs2 population2 p Hp2) as (b & Fb & Hb & HpB).
    { by rewrite <- Hperm. }
    rewrite (Hrk1 _ _ _ Ha HpA), (Hrk2 _ _ _ Hb HpB).
    f_equal. by eapply Huniq.
  - intros j q. split.
    + intros (F1 & H1 & Hq).
      destruct (layers_member fs2 population2 q Hp2) as (b & Fb & Hb & HqB).
      { rewrite <- Hperm. by eapply layers_population. }
      assert (j = b) as -> by (by eapply Huniq). eauto.
    + intros (F2 & H2 & Hq).
      destruct (layers_member fs1 population1 q Hp1) as (a & Fa & Ha & HqA).
      { rewrite Hperm. by eapply layers_population. }
      assert (a = j) as -> by (by eapply Huniq). eauto.
Qed.

Lemma rank_order_independent_witness :
  exists h1 fs1 h2 fs2,
    fast_nondominated_sort scenario scenario_population = Some (h1, fs1) /\
    fast_nondominated_sort scenario [3; 2; 1; 0]%nat = Some (h2, fs2) /\
    (forall p, p ∈ scenario_population -> rank (h1 p) = rank (h2 p)).
Proof.
  destruct (rank_order_independent scenario scenario_population [3; 2; 1; 0]%nat)
    as (h1 & fs1 & h2 & fs2 & H1 & H2 & Hrk & _).
  { apply (bool_decide_unpack _). vm_compute. exact I. }
  { change [3; 2; 1; 0]%nat with (rev scenario_population). apply Permutation_rev. }
  exists h1, fs1, h2, fs2. split_and!; [exact H1|exact H2|exact Hrk].
Defined.

(** *** The second phase, for any population *)

Lemma relax_fold_heap i l st nx :
  let r := fold_left (relax_step i) l (st, nx) in
  (forall a, hp r.1 a = hp st a \/
             (a ∈ r.2 /\ a ∈ l /\ rank (hp r.1 a) = Some (i + 1)%nat)) /\
  (forall x, x ∈ r.2 -> x ∈ nx \/ (x ∈ l /\ rank (hp r.1 x) = Some (i + 1)%nat)) /\
  (forall x, x ∈ nx -> x ∈ r.2).
Proof.
  revert st nx. induction l as [|q l IH]; intros st nx; cbn zeta; cbn [fold_left].
  { split_and!; auto. }
  rewrite relax_step_closed.
  set (qid := cid (hp st q)). set (hit := Z.eqb (n_at st qid - 1) 0).
  match goal with |- context [fold_left _ l (?s, ?x)] =>
    destruct (IH s x) as (Hh & Hx & Hm); set (r := fold_left _ l (s, x)) in * end.
  cbn [hp] in Hh.
  assert (forall a, hp r.1 a = hp st a \/
             (a ∈ r.2 /\ a ∈ q :: l /\ rank (hp r.1 a) = Some (i + 1)%nat)) as Hh'.
  { intros a. destruct (Hh a) as [E|(? & ? & ?)]; [|right; split_and!; [done|by right|done]].
    destruct hit; [|by left].
    destruct (decide (a = q)) as [->|Hne].
    - right. split_and!; [|left|by rewrite E, set_rank_same].
      apply Hm, elem_of_app. right. left.
    - left. by rewrite E, set_rank_other. }
  split_and!; [done| |].
  - intros x Hxr. destruct (Hx x Hxr) as [Hin|[? ?]]; [|right; split; [by right|done]].
    destruct hit; [|by left].
    apply elem_of_app in Hin as [?|Hq]; [by left|].
    apply list_elem_of_singleton in Hq as ->. right. split; [left|].
    destruct (Hh q) as [E|(_ & _ & ?)]; [|done]. by rewrite E, set_rank_same.
  - intros x Hxn. apply Hm. destruct hit; [|done]. apply elem_of_app. by left.
Qed.

Lemma first_pass_settled h population :
  settled h population 0 (first_pass h population).
Proof.
  destruct (first_pass_closed h population) as (_ & Hf & HS & _ & Hr & Ho & _).
  split_and!.
  - by rewrite Hf.
  - intros j F Hj. lia.
  - split.
    + intros k l x Hk Hx. rewrite HS in Hk.
      destruct (owner h population k); [|done]. injection Hk as <-.
      by apply elem_of_dominated_by in Hx as [_ ?].
    + intros F x HF Hx. rewrite Hf in HF. apply list_elem_of_singleton in HF as ->.
      by apply list_elem_of_filter in Hx as [_ ?].
  - intros k l x Hk Hx. rewrite HS in Hk.
    destruct (owner h population k) as [q|] eqn:E; [|done]. injection Hk as <-.
    apply elem_of_dominated_by in Hx as [? _]. apply owner_Some in E as [? _]. eauto.
  - intros j F x Hj. by rewrite Hf in Hj.
  - intros a Ha. apply Ho. apply Ha. rewrite Hf. left.
  - intros j F x Hj Hx. rewrite Hf in Hj.
    destruct j as [|j]; [|done]. injection Hj as <-.
    exists 0%nat, (filter (fun p => unbeaten h population p) population).
    split_and!; [by apply Hr|done|by rewrite Hf|done].
Qed.

Lemma sort_loop_settled h population fuel i st st' :
  settled h population i st -> sort_loop fuel i st = Some st' ->
  exists i', settled h population i' st' /\ fronts st' !! i' = Some [].
Proof.
  revert i st. induction fuel as [|fuel IH]; intros i st Hset Hrun; [done|].
  cbn [sort_loop] in Hrun.
  pose proof Hset as (Hlen & Hne & [HsupS HsupF] & Hdom & Hlate & Hout & Hrk).
  destruct (nth i (fronts st) []) as [|p front_i] eqn:Hi.
  { injection Hrun as <-. exists i. split; [done|].
    destruct (lookup_lt_is_Some_2 (fronts st) i) as [F HF]; [lia|].
    by rewrite (nth_lookup_Some _ _ [] _ HF) in Hi; subst. }
  assert (fronts st !! i = Some (p :: front_i)) as Hfi.
  { destruct (lookup_lt_is_Some_2 (fronts st) i) as [F HF]; [lia|].
    by rewrite (nth_lookup_Some _ _ [] _ HF) in Hi; subst. }
  rewrite front_fold_flat in Hrun.
  set (wl := (p :: front_i) ≫= _) in Hrun.
  assert (forall x, x ∈ wl -> exists k l, S st !! k = Some l /\ x ∈ l) as Hwl.
  { intros x (y & Hx & Hy)%list_elem_of_bind. unfold S_at in Hx.
    destruct (S st !! cid (hp st y)) as [s|] eqn:E; [|by apply elem_of_nil in Hx].
    eauto. }
  pose proof (relax_fold_frame i wl st []) as HF.
  pose proof (relax_fold_heap i wl st []) as HH. cbn zeta in HF, HH.
  destruct (fold_left (relax_step i) wl (st, [])) as [st1 next_front].
  destruct HF as (HS & Hf & _ & _ & _), HH as (Hh & Hx & _). simpl in HS, Hf, Hh, Hx.
  assert (forall a, a ∈ next_front ->
            a ∈ wl /\ rank (hp st1 a) = Some (i + 1)%nat /\
            (fronts st1 ++ [next_front]) !! (i + 1)%nat = Some next_front) as Hnew.
  { intros a Ha.
    destruct (Hx a Ha) as [Hnil|[? ?]]; [by apply elem_of_nil in Hnil|].
    split_and!; [done|done|].
    rewrite lookup_app_r; rewrite Hf, Hlen; [|lia].
    by replace (i + 1 - Datatypes.S i)%nat with 0%nat by lia. }
  eapply IH; [|exact Hrun]. split_and!; simpl.
  - rewrite length_app, Hf, Hlen. simpl. lia.
  - intros j F Hj HjF. rewrite Hf in HjF.
    destruct (decide (j = i)) as [->|Hji].
    + rewrite lookup_app_l in HjF by lia. rewrite Hfi in HjF. by injection HjF as <-.
    + apply (Hne j); [lia|]. rewrite lookup_app_l in HjF by lia. done.
  - split; simpl.
    + intros k l x. rewrite HS. apply HsupS.
    + intros F x [HF|HF]%elem_of_app HxF.
      * rewrite Hf in HF. by eapply HsupF.
      * apply list_elem_of_singleton in HF as ->.
        destruct (Hnew x HxF) as ((k & l & ? & ?)%Hwl & _). by eapply HsupS.
  - intros k l x. rewrite HS. apply Hdom.
  - intros j F x HjF HxF. rewrite Hf in HjF.
    apply lookup_app_Some in HjF as [HjF|[Hge HjF]]; [by eapply Hlate|].
    destruct (Datatypes.S j - length (fronts st))%nat; [|done]. injection HjF as <-.
    destruct (Hnew x HxF) as ((k & l & ? & ?)%Hwl & _). by eapply Hdom.
  - intros a Ha. destruct (Hh a) as [->|(Hin & _)].
    + apply Hout. intros F HF. apply Ha, elem_of_app. left. by rewrite Hf.
    + destruct (Ha next_front); [|done]. apply elem_of_app. right. left.
  - intros j F x HjF HxF. rewrite Hf in HjF.
    apply lookup_app_Some in HjF as [HjF|[Hge HjF]].
    + pose proof (lookup_lt_Some _ _ _ HjF) as Hlt.
      destruct (Hh x) as [E|(Hnx & _ & _)].
      * destruct (Hrk j F x HjF HxF) as (r & F' & Er & Hjr & HF' & HxF').
        exists r, F'. rewrite E, Hf. split_and!; [done|done| |done].
        by apply lookup_app_l_Some.
      * destruct (Hnew x Hnx) as (_ & ? & ?).
        exists (i + 1)%nat, next_front. split_and!; [done|lia|done|done].
    + rewrite Hlen in Hge, HjF.
      destruct (j - Datatypes.S i)%nat as [|k] eqn:Ek; [|done].
      injection HjF as <-.
      destruct (Hnew x HxF) as (_ & ? & ?).
      exists (i + 1)%nat, next_front. split_and!; [done|lia|done|done].
Qed.

Lemma front0_nonempty h population :
  population <> [] -> filter (fun p => unbeaten h population p) population <> [].
Proof.
  intros Hne. destruct (beats_minimal h population Hne) as (m & Hm & Hmin).
  assert (m ∈ filter (fun p => unbeaten h population p) population) as Hin.
  { apply elem_of_front0. split; [done|]. intros q Hq _. by apply Hmin. }
  intros E. rewrite E in Hin. by apply elem_of_nil in Hin.
Qed.

(** The result of the sort on any population. *)
Lemma sort_general h population :
  exists h' fs,
    fast_nondominated_sort h population = Some (h', fs) /\
    (forall F, F ∈ fs -> F <> []) /\
    (forall F p, F ∈ fs -> p ∈ F -> p ∈ population) /\
    (fs = [] <-> population = []) /\
    (forall F0, fs !! 0%nat = Some F0 <->
                F0 = filter (fun p => unbeaten h population p) population /\ F0 <> []) /\
    (forall j F p, fs !! Datatypes.S j = Some F -> p ∈ F ->
       exists q, q ∈ population /\ edge h q p = true) /\
    (forall a, (forall F, F ∈ fs -> a ∉ F) -> h' a = h a) /\
    (forall j F p, fs !! j = Some F -> p ∈ F ->
       exists r F', rank (h' p) = Some r /\ (j <= r)%nat /\
                    fs !! r = Some F' /\ p ∈ F').
Proof.
  destruct (sort_result_closed h population) as (h0 & fs0 & Hrun0 & _ & H0).
  revert Hrun0. unfold fast_nondominated_sort.
  destruct (sort_state_total h population) as [st Hst]. rewrite Hst.
  intros [= <- <-].
  exists (hp st), (removelast (fronts st)). split; [done|].
  destruct (sort_loop_settled h population _ _ _ _ (first_pass_settled h population) Hst)
    as (i & (Hlen & Hne & [_ HsupF] & _ & Hlate & Hout & Hrk) & Hlast).
  assert (fronts st = removelast (fronts st) ++ [[]]) as Hsplit.
  { destruct (fronts st) as [|F fs] using rev_ind; [done|].
    rewrite removelast_last. rewrite length_app in Hlen. simpl in Hlen.
    rewrite lookup_app_r in Hlast by lia.
    replace (i - length fs)%nat with 0%nat in Hlast by lia.
    simpl in Hlast. by injection Hlast as ->. }
  assert (length (removelast (fronts st)) = i) as Hlen'.
  { rewrite Hsplit, length_app in Hlen. simpl in Hlen. lia. }
  split_and!.
  - intros F [j Hj]%list_elem_of_lookup.
    pose proof (lookup_lt_Some _ _ _ Hj) as Hlt.
    apply (Hne j); [lia|]. by apply lookup_removelast.
  - intros F p [j Hj]%list_elem_of_lookup Hp.
    eapply HsupF; [|exact Hp]. eapply list_elem_of_lookup_2. by apply lookup_removelast.
  - split.
    + intros E. destruct population as [|x l]; [done|exfalso].
      pose proof (front0_nonempty h (x :: l)) as Hf0.
      pose proof (proj2 (H0 _) (conj eq_refl (Hf0 ltac:(done)))) as HF0.
      by rewrite E in HF0.
    + intros ->. destruct (removelast (fronts st)) as [|F0 fs] eqn:E; [done|exfalso].
      by destruct (proj1 (H0 F0) eq_refl) as [-> ?].
  - done.
  - intros j F p Hj Hp. eapply Hlate; [|exact Hp]. by apply lookup_removelast.
  - intros a Ha. apply Hout. intros F HF. rewrite Hsplit in HF.
    apply elem_of_app in HF as [HF|HF]; [by apply Ha|].
    apply list_elem_of_singleton in HF as ->. apply not_elem_of_nil.
  - intros j F p Hj Hp.
    destruct (Hrk j F p (lookup_removelast _ _ _ Hj) Hp) as (r & F' & Er & Hjr & HF' & HpF').
    exists r, F'. split_and!; [done|done| |done].
    rewrite Hsplit in HF'. apply lookup_app_Some in HF' as [?|[Hge HF']]; [done|].
    destruct (r - length (removelast (fronts st)))%nat; [|done].
    injection HF' as <-. by apply elem_of_nil in HpF'.
Qed.

(** *** What the sort guarantees for any population *)

Lemma dominates_nan_l a b : has_nan a -> dominates a b = false.
Proof.
  intros Hn. destruct (dominates a b) eqn:E; [exfalso|done].
  apply dominates_spec in E as (la & ea & ta & lb & eb & tb & -> & _).
  by destruct Hn as [?|[?|?]].
Qed.

Lemma dominates_nan_r a b : has_nan b -> dominates a b = false.
Proof.
  intros Hn. destruct (dominates a b) eqn:E; [exfalso|done].
  apply dominates_spec in E as (la & ea & ta & lb & eb & tb & _ & -> & _).
  by destruct Hn as [?|[?|?]].
Qed.

(** X5.  For any population, also one with repeated ids,
    [fast_nondominated_sort] returns; no returned front is empty, every
    front holds candidates of the population only, and the result is the
    empty list exactly when the population is empty. *)
Theorem fronts_nonempty_within_population (h : heap) (population : list addr) :
  exists h' fs,
    fast_nondominated_sort h population = Some (h', fs) /\
    (forall F, F ∈ fs -> F <> []) /\
    (forall F p, F ∈ fs -> p ∈ F -> p ∈ population) /\
    (fs = [] <-> population = []).
Proof.
  destruct (sort_general h population) as (h' & fs & Hrun & Hne & Hsub & Hnil & _).
  by exists h', fs.
Qed.

(** X6.  The sort changes nothing but the rank of the candidates it lists:
    a candidate that no returned front lists (so every candidate outside
    the population) is left as it was, rank included, and a candidate
    listed in front [j] ends with a rank [r >= j] such that front [r] lists
    it. *)
Theorem sort_writes_listed_ranks_only (h : heap) (population : list addr) :
  exists h' fs,
    fast_nondominated_sort h population = Some (h', fs) /\
    same_data h h' /\
    (forall a, (forall F, F ∈ fs -> a ∉ F) -> h' a = h a) /\
    (forall a, a ∉ population -> h' a = h a) /\
    (forall j F p, fs !! j = Some F -> p ∈ F ->
       exists r F', rank (h' p) = Some r /\ (j <= r)%nat /\
                    fs !! r = Some F' /\ p ∈ F').
Proof.
  destruct (sort_general h population)
    as (h' & fs & Hrun & _ & Hsub & _ & _ & _ & Hout & Hrk).
  destruct (sort_result_closed h population) as (h0 & fs0 & Hrun0 & Hd & _).
  rewrite Hrun in Hrun0. injection Hrun0 as <- <-.
  exists h', fs. split_and!; [done|done|done| |done].
  intros a Ha. apply Hout. intros F HF HaF. apply Ha. by eapply Hsub.
Qed.

(** X7.  For any population, a candidate listed in a front after the first
    is dominated by a candidate of the population that carries another
    id. *)
Theorem later_front_has_dominator (h : heap) (population : list addr) :
  exists h' fs,
    fast_nondominated_sort h population = Some (h', fs) /\
    forall j F p, fs !! Datatypes.S j = Some F -> p ∈ F ->
      exists q, q ∈ population /\ cid (h q) <> cid (h p) /\
                dominates (objectives (h q)) (objectives (h p)) = true.
Proof.
  destruct (sort_general h population)
    as (h' & fs & Hrun & _ & _ & _ & _ & Hlate & _).
  exists h', fs. split; [done|]. intros j F p Hj Hp.
  destruct (Hlate j F p Hj Hp) as (q & Hq & He).
  unfold edge in He. apply andb_true_iff in He as [Hr Hb].
  exists q. split_and!; [done|by apply rival_true|done].
Qed.

(** X8.  A candidate of the population with a NaN objective is compared as
    neither better nor worse than any other: it is listed in the first
    front and in no later one, and its rank is 0. *)
Theorem nan_objective_ranks_first (h : heap) (population : list addr) (p : addr) :
  p ∈ population -> has_nan (objectives (h p)) ->
  exists h' fs F0,
    fast_nondominated_sort h population = Some (h', fs) /\
    fs !! 0%nat = Some F0 /\ p ∈ F0 /\
    (forall j F, fs !! Datatypes.S j = Some F -> p ∉ F) /\
    rank (h' p) = Some 0%nat.
Proof.
  intros Hp Hnan.
  destruct (sort_general h population)
    as (h' & fs & Hrun & _ & _ & _ & H0 & Hlate & _ & Hrk).
  set (F0 := filter (fun p => unbeaten h population p) population).
  assert (p ∈ F0) as HpF0.
  { apply elem_of_front0. split; [done|]. intros q _ _. by apply dominates_nan_r. }
  assert (fs !! 0%nat = Some F0) as HF0.
  { apply H0. split; [done|]. intros E. rewrite E in HpF0. by apply elem_of_nil in HpF0. }
  assert (forall j F, fs !! Datatypes.S j = Some F -> p ∉ F) as Hnot.
  { intros j F Hj HpF. destruct (Hlate j F p Hj HpF) as (q & _ & He).
    unfold edge, beats in He. rewrite (dominates_nan_r _ _ Hnan), andb_false_r in He. done. }
  exists h', fs, F0. split_and!; [done|done|done|done|].
  destruct (Hrk 0%nat F0 p HF0 HpF0) as (r & F' & Er & _ & HF' & HpF').
  destruct r as [|r]; [done|]. by destruct (Hnot r F' HF').
Qed.

Lemma nan_objective_ranks_first_witness :
  exists h' fs F0,
    fast_nondominated_sort unmeasured unmeasured_population = Some (h', fs) /\
    fs !! 0%nat = Some F0 /\ 4%nat ∈ F0 /\ rank (h' 4%nat) = Some 0%nat.
Proof.
  destruct (nan_objective_ranks_first unmeasured unmeasured_population 4%nat)
    as (h' & fs & F0 & Hrun & HF0 & Hin & _ & Hrk).
  { apply (bool_decide_unpack _). vm_compute. exact I. }
  { left. reflexivity. }
  exists h', fs, F0. split_and!; [exact Hrun|exact HF0|exact Hin|exact Hrk].
Defined.

(** X9.  [dominates] is a strict partial order on objective vectors:
    irreflexive, asymmetric and transitive; a vector with a NaN objective
    neither dominates nor is dominated. *)
Theorem dominates_strict_order :
  (forall a, dominates a a = false) /\
  (forall a b, dominates a b = true -> dominates b a = false) /\
  (forall a b c, dominates a b = true -> dominates b c = true -> dominates a c = true) /\
  (forall a b, has_nan a \/ has_nan b -> dominates a b = false).
Proof.
  split_and!.
  - apply dominates_irrefl.
  - apply dominates_asym.
  - apply dominates_trans.
  - intros a b [H|H]; [by apply dominates_nan_l|by apply dominates_nan_r].
Qed.

(** ** Further facts about the trajectory synthesis *)

Import TrajectoryExamples.

(** Every segment contributes at least one sample. *)
Lemma forward_xs_length_ge (m : mote) (steps : Z) :
  (length (functionPath m) <= length (forward_xs m steps))%nat.
Proof.
  unfold forward_xs. induction (functionPath m) as [|s l IH]; [done|].
  simpl. rewrite length_app, length_resample.
  pose proof (seg_steps_positive (total_distance m) steps (seg_dist s)). lia.
Qed.

Lemma round_trip_length_ge (flag : bool) (v : list Q) :
  (length v <= length (round_trip flag v))%nat.
Proof. destruct flag; simpl; [rewrite length_app|]; lia. Qed.

Lemma length_full (m : mote) (steps : Z) :
  length (x_full m steps) = length (y_full m steps) /\
  (length (functionPath m) <= length (x_full m steps))%nat.
Proof.
  unfold x_full, y_full. split.
  - pose proof (length_forward m steps) as H.
    destruct (isRoundTrip m); simpl; rewrite ?length_app, ?length_rev; lia.
  - pose proof (forward_xs_length_ge m steps).
    pose proof (round_trip_length_ge (isRoundTrip m) (forward_xs m steps)). lia.
Qed.

Lemma x_full_nil (m : mote) (steps : Z) :
  functionPath m = [] -> x_full m steps = [].
Proof.
  intros E. unfold x_full, forward_xs. rewrite E. simpl. by destruct (isRoundTrip m).
Qed.

(** A mote on which the loop body raises. *)
Lemma mote_step_fails (st : gen_state) (m : mote) :
  (speed m == 0)%Q \/ (timeStep m == 0)%Q \/ functionPath m = [] ->
  mote_step st m = None.
Proof.
  intros Hbad. unfold mote_step, total_steps.
  destruct (Qeq_bool (speed m) 0) eqn:Es; simpl; [done|].
  destruct (Qeq_bool (timeStep m) 0) eqn:Et; simpl; [done|].
  destruct Hbad as [H|[H|H]].
  - apply Qeq_bool_iff in H. congruence.
  - apply Qeq_bool_iff in H. congruence.
  - destruct (Binary64.finite _); [|done]. destruct (Binary64.finite _); [|done].
    destruct (existsb _ _); [done|]. by rewrite (x_full_nil m _ H).
Qed.

Lemma mote_loop_fails (motes : list mote) (st : gen_state) (m : mote) :
  m ∈ motes ->
  (speed m == 0)%Q \/ (timeStep m == 0)%Q \/ functionPath m = [] ->
  mote_loop st motes = None.
Proof.
  intros Hin Hbad. revert st.
  induction motes as [|m' motes IH]; intros st; [by apply elem_of_nil in Hin|].
  simpl. apply elem_of_cons in Hin as [->|Hin].
  - by rewrite (mote_step_fails st m' Hbad).
  - destruct (mote_step st m'); [by apply IH|done].
Qed.

(** The start positions are the first samples of the trajectories, none of
    which is empty. *)
Lemma mote_loop_starts (motes : list mote) (st st' : gen_state) :
  mote_loop st motes = Some st' ->
  Forall2 (fun p t => exists xr yr, xs t = p.1 :: xr /\ ys t = p.2 :: yr)
          (mobile_start_positions st) (mobile_trajectories st) ->
  Forall2 (fun p t => exists xr yr, xs t = p.1 :: xr /\ ys t = p.2 :: yr)
          (mobile_start_positions st') (mobile_trajectories st').
Proof.
  revert st. induction motes as [|m motes IH]; intros st; simpl.
  { by intros [= <-]. }
  destruct (mote_step st m) as [st1|] eqn:E; [|done]. intros Hrun Hst.
  apply (IH st1 Hrun). unfold mote_step in E.
  destruct (total_steps m) as [steps|]; [|done].
  destruct (existsb _ (functionPath m)); [done|].
  destruct (x_full m steps) as [|x0 xr] eqn:Ex; [done|].
  destruct (y_full m steps) as [|y0 yr] eqn:Ey; [done|].
  injection E as <-. simpl. apply Forall2_app; [done|].
  constructor; [|constructor]. simpl. eauto.
Qed.

(** The block of step 0 holds one sample per trajectory, in order. *)
Lemma block_0 (starts : list (Q * Q)) (trajs : list trajectory) :
  Forall2 (fun p t => exists xr yr, xs t = p.1 :: xr /\ ys t = p.2 :: yr) starts trajs ->
  block trajs 0 =
    map (fun t => {| s_id := mote_id t; s_time := inject_Z (Z.of_nat 0) * dt t;
                     s_x := nth 0 (xs t) 0%Q; s_y := nth 0 (ys t) 0%Q |}) trajs.
Proof.
  induction 1 as [|p t starts trajs (xr & yr & Hx & Hy) _ IH]; [done|].
  rewrite block_cons, IH. unfold emit. cbn [map]. rewrite Hx. reflexivity.
Qed.

(** X10.  A mobile mote with speed 0, with time step 0 or with an empty
    path makes [generate_positions_from_json] raise, whatever the other
    motes are. *)
Theorem degenerate_mote_fails (fixedMotes : list (Q * Q)) (mobileMotes : list mote)
    (m : mote) :
  m ∈ mobileMotes ->
  (speed m == 0)%Q \/ (timeStep m == 0)%Q \/ functionPath m = [] ->
  generate_positions_from_json fixedMotes mobileMotes = None.
Proof.
  intros Hin Hbad. unfold generate_positions_from_json.
  by rewrite (mote_loop_fails mobileMotes _ m Hin Hbad).
Qed.

Lemma degenerate_mote_fails_witness :
  generate_positions_from_json [(0, 0)%Q] [there_and_back; stalled] = None.
Proof.
  apply (degenerate_mote_fails [(0, 0)%Q] [there_and_back; stalled] stalled).
  - right. left.
  - left. reflexivity.
Defined.

(** X11.  Every synthesized trajectory has as many [y] as [x] coordinates
    and at least one sample for each segment of its path, so at least one:
    the merge never reads a coordinate that is not there. *)
Theorem coordinates_paired (fixedMotes : list (Q * Q)) (mobileMotes : list mote)
    (r : positions) (k : nat) (m : mote) :
  generate_positions_from_json fixedMotes mobileMotes = Some r ->
  mobileMotes !! k = Some m ->
  exists t,
    trajectories r !! k = Some t /\
    length (xs t) = length (ys t) /\
    (1 <= length (functionPath m) <= length (xs t))%nat /\
    forall step s, s ∈ emit step t ->
      (step < length (xs t))%nat /\ (step < length (ys t))%nat /\
      xs t !! step = Some (s_x s) /\ ys t !! step = Some (s_y s).
Proof.
  unfold generate_positions_from_json.
  destruct (mote_loop _ mobileMotes) as [st|] eqn:Hloop; [|done].
  intros [= <-] Hm. simpl.
  assert (functionPath m <> []) as Hpath.
  { intros E. assert (mote_loop (mkGen (length fixedMotes) 0 [] []) mobileMotes = None) as HN.
    { apply (mote_loop_fails _ _ m); [by eapply list_elem_of_lookup_2|auto]. }
    congruence. }
  apply mote_loop_closed in Hloop as (_ & Hk & _). simpl in Hk.
  destruct (Hk k m Hm) as (steps & Hsteps & _ & Hlook).
  eexists. split; [exact Hlook|]. simpl.
  destruct (length_full m steps) as [Hlen Hge].
  split_and!; [done| |done|].
  - destruct (functionPath m); [done|simpl; lia].
  - intros step s. unfold emit. cbn [xs ys mote_id dt].
    destruct (Nat.ltb_spec step (length (x_full m steps))) as [Hlt|]; [|by intros ?%elem_of_nil].
    intros ->%list_elem_of_singleton. cbn [s_x s_y].
    split_and!; [done|lia| |].
    + by destruct (nth_lookup_or_length (x_full m steps) step 0%Q); [|lia].
    + by destruct (nth_lookup_or_length (y_full m steps) step 0%Q); [|lia].
Qed.

Lemma coordinates_paired_witness :
  exists r t,
    generate_positions_from_json [(0, 0)%Q] [there_and_back; three_legs] = Some r /\
    trajectories r !! 1%nat = Some t /\ length (xs t) = length (ys t).
Proof.
  eexists.
  match goal with |- exists t, ?g = Some ?r /\ _ =>
    assert (g = Some r) as Hrun by (vm_compute; reflexivity);
    destruct (coordinates_paired [(0, 0)%Q] [there_and_back; three_legs] r 1 three_legs
                Hrun eq_refl) as (t & Ht & Hlen & _)
  end.
  exists t. split_and!; [exact Hrun|exact Ht|exact Hlen].
Defined.

(** What [generate_positions_from_json] returns, in terms of the loop. *)
Lemma generate_closed (fixedMotes : list (Q * Q)) (mobileMotes : list mote)
    (r : positions) :
  generate_positions_from_json fixedMotes mobileMotes = Some r ->
  fixed_positions r = fixedMotes /\
  length (start_positions r) = length mobileMotes /\
  length (trajectories r) = length mobileMotes /\
  Forall2 (fun p t => exists xr yr, xs t = p.1 :: xr /\ ys t = p.2 :: yr)
          (start_positions r) (trajectories r) /\
  trace r = merge (step_bound r) (trajectories r) /\
  forall k m, mobileMotes !! k = Some m ->
    exists steps,
      (1 <= steps <= step_bound r)%Z /\
      trajectories r !! k =
        Some {| mote_id := (length fixedMotes + k)%nat; xs := x_full m steps;
                ys := y_full m steps; dt := timeStep m |}.
Proof.
  unfold generate_positions_from_json.
  destruct (mote_loop _ mobileMotes) as [st|] eqn:Hloop; [|done].
  intros [= <-]. simpl.
  pose proof (mote_loop_starts _ _ _ Hloop (List.Forall2_nil _)) as Hstarts.
  apply mote_loop_closed in Hloop as (Hlen & Hk & _). simpl in Hlen, Hk.
  pose proof (Forall2_length _ _ _ Hstarts) as Hlen2.
  split_and!; [done|lia|lia|done|done|].
  intros k m Hm. destruct (Hk k m Hm) as (steps & Hsteps & Hle & Hlook).
  apply total_steps_positive in Hsteps. exists steps. split; [lia|done].
Qed.

(** The samples of step 0. *)
Lemma step_0_lookup (fixedMotes : list (Q * Q)) (mobileMotes : list mote)
    (r : positions) (k : nat) (m : mote) :
  generate_positions_from_json fixedMotes mobileMotes = Some r ->
  mobileMotes !! k = Some m ->
  exists x y t,
    start_positions r !! k = Some (x, y) /\
    trajectories r !! k = Some t /\ mote_id t = (length fixedMotes + k)%nat /\
    trace r !! 0%nat = Some (block (trajectories r) 0) /\
    length (block (trajectories r) 0) = length mobileMotes /\
    block (trajectories r) 0 !! k =
      Some {| s_id := mote_id t; s_time := inject_Z (Z.of_nat 0) * dt t;
              s_x := x; s_y := y |}.
Proof.
  intros Hrun Hm.
  destruct (generate_closed _ _ _ Hrun) as (_ & _ & Hlen & Hstarts & Htrace & Hk).
  destruct (Hk k m Hm) as (steps & Hsteps & Hlook).
  destruct (Forall2_lookup_r _ _ _ _ _ Hstarts Hlook) as ([x y] & Hp & xr & yr & Hx & Hy).
  simpl in Hx, Hy.
  eexists x, y, _. split_and!; [done|exact Hlook|done| | |].
  - rewrite Htrace. apply merge_lookup. lia.
  - rewrite (block_0 _ _ Hstarts), length_map. lia.
  - rewrite (block_0 _ _ Hstarts). change map with (@fmap list _).
    rewrite list_lookup_fmap, Hlook. cbn [fmap option_fmap option_map xs ys].
    by rewrite Hx, Hy.
Qed.

(** X12.  The start position returned for a mobile mote is the position
    written for it at step 0: the block of step 0 holds one sample for each
    mobile mote, in order, at elapsed time 0 and under the id
    [len(fixed_positions) + k]. *)
Theorem start_positions_at_step_0 (fixedMotes : list (Q * Q)) (mobileMotes : list mote)
    (r : positions) (k : nat) (m : mote) :
  generate_positions_from_json fixedMotes mobileMotes = Some r ->
  mobileMotes !! k = Some m ->
  length (start_positions r) = length mobileMotes /\
  exists x y b s,
    start_positions r !! k = Some (x, y) /\
    trace r !! 0%nat = Some b /\ length b = length mobileMotes /\
    b !! k = Some s /\
    s_id s = (length fixedMotes + k)%nat /\ (s_time s == 0)%Q /\
    s_x s = x /\ s_y s = y.
Proof.
  intros Hrun Hm.
  destruct (generate_closed _ _ _ Hrun) as (_ & Hlen & _).
  destruct (step_0_lookup _ _ _ _ _ Hrun Hm) as (x & y & t & Hp & _ & Hid & Hb & Hlb & Hs).
  split; [done|]. eexists x, y, _, _.
  split_and!; [done|exact Hb|done|exact Hs|done| |done|done].
  cbn [s_time]. simpl. ring.
Qed.

Lemma start_positions_at_step_0_witness :
  exists r x y b s,
    generate_positions_from_json [(0, 0)%Q] [there_and_back; three_legs] = Some r /\
    start_positions r !! 1%nat = Some (x, y) /\
    trace r !! 0%nat = Some b /\ b !! 1%nat = Some s /\
    s_id s = 2%nat /\ s_x s = x /\ s_y s = y.
Proof.
  eexists.
  match goal with |- exists x y b s, ?g = Some ?r /\ _ =>
    assert (g = Some r) as Hrun by (vm_compute; reflexivity);
    destruct (start_positions_at_step_0 [(0, 0)%Q] [there_and_back; three_legs] r 1
                three_legs Hrun eq_refl)
      as (_ & x & y & b & s & Hp & Hb & _ & Hs & Hid & _ & Hx & Hy)
  end.
  exists x, y, b, s. split_and!;
    [exact Hrun|exact Hp|exact Hb|exact Hs|exact Hid|exact Hx|exact Hy].
Defined.

(** *** Paths of one segment *)

(** The product of a segment that is the whole path: the proportion is
    1.0 and the product is the step budget. *)
Lemma single_segment_product (seg : Q) (steps : Z) :
  (Binary64.float_of_int steps == inject_Z steps)%Q ->
  (seg_product seg steps seg == inject_Z steps)%Q.
Proof.
  intros Hsteps. unfold seg_product.
  destruct (Qle_bool seg 0) eqn:E; cbn [negb]; [reflexivity|].
  assert (~ seg == 0)%Q as Hne.
  { intros H. assert (Qle_bool seg 0 = true); [|congruence].
    apply Qle_bool_iff. rewrite H. discriminate. }
  unfold Binary64.fmul, Binary64.fdiv.
  rewrite (round53_comp (seg / seg) (inject_Z 1)) by (by field).
  rewrite (round53_comp _ (inject_Z steps)).
  - exact Hsteps.
  - rewrite (round53_inject_small 1) by (by vm_compute).
    rewrite Hsteps. change (inject_Z 1) with 1%Q. ring.
Qed.

Lemma single_segment_steps (m : mote) (s : segment) (steps : Z) :
  functionPath m = [s] -> total_steps m = Some steps ->
  seg_steps (total_distance m) steps (seg_dist s) = steps.
Proof.
  intros Hp Hs. unfold seg_steps, total_distance. rewrite Hp.
  rewrite (py_int_comp _ (inject_Z steps)).
  - rewrite py_int_inject. apply total_steps_positive in Hs. lia.
  - apply single_segment_product. by eapply total_steps_float.
Qed.

Lemma elem_of_block (trajs : list trajectory) (step : nat) (t : trajectory) (s : sample) :
  t ∈ trajs -> s ∈ emit step t -> s ∈ block trajs step.
Proof.
  intros Ht Hs. unfold block. apply list_elem_of_In, in_flat_map.
  exists t. by rewrite <- !list_elem_of_In.
Qed.

(** X13.  A mobile mote whose path has a single segment is sampled at
    exactly [total_steps] points ([2 * total_steps] with the round trip),
    and every one of its samples is written to the trace. *)
Theorem single_segment_fully_emitted (fixedMotes : list (Q * Q))
    (mobileMotes : list mote) (r : positions) (k : nat) (m : mote) (sg : segment) :
  generate_positions_from_json fixedMotes mobileMotes = Some r ->
  mobileMotes !! k = Some m -> functionPath m = [sg] ->
  exists steps t,
    total_steps m = Some steps /\ trajectories r !! k = Some t /\
    length (xs t) =
      (if isRoundTrip m then 2 * Z.to_nat steps else Z.to_nat steps)%nat /\
    forall step, (step < length (xs t))%nat ->
      exists b, trace r !! step = Some b /\
        {| s_id := (length fixedMotes + k)%nat;
           s_time := inject_Z (Z.of_nat step) * timeStep m;
           s_x := nth step (xs t) 0%Q; s_y := nth step (ys t) 0%Q |} ∈ b.
Proof.
  unfold generate_positions_from_json.
  destruct (mote_loop _ mobileMotes) as [st|] eqn:Hloop; [|done].
  intros [= <-] Hm Hp. simpl.
  apply mote_loop_closed in Hloop as (_ & Hk & _). simpl in Hk.
  destruct (Hk k m Hm) as (steps & Hsteps & Hle & Hlook).
  pose proof (total_steps_positive _ _ Hsteps) as Hpos.
  eexists steps, _. split; [done|]. split; [exact Hlook|]. cbn [xs ys].
  assert (length (forward_xs m steps) = Z.to_nat steps) as Hfw.
  { unfold forward_xs. rewrite Hp. simpl.
    by rewrite app_nil_r, length_resample, (single_segment_steps m sg steps Hp Hsteps). }
  assert (length (x_full m steps) =
          (if isRoundTrip m then 2 * Z.to_nat steps else Z.to_nat steps)%nat) as Hlen.
  { unfold x_full. destruct (isRoundTrip m); simpl; [|done].
    rewrite length_app, length_rev. lia. }
  split; [done|]. intros step Hstep.
  exists (block (mobile_trajectories st) step). split.
  - apply merge_lookup. destruct (isRoundTrip m); lia.
  - eapply elem_of_block; [by eapply list_elem_of_lookup_2|].
    unfold emit. cbn [xs ys mote_id dt].
    apply Nat.ltb_lt in Hstep as ->. left.
Qed.

Lemma single_segment_fully_emitted_witness :
  exists r steps t,
    generate_positions_from_json [(0, 0)%Q] [there_and_back; three_legs] = Some r /\
    total_steps there_and_back = Some steps /\ trajectories r !! 0%nat = Some t /\
    length (xs t) = (2 * Z.to_nat steps)%nat.
Proof.
  eexists.
  match goal with |- exists steps t, ?g = Some ?r /\ _ =>
    assert (g = Some r) as Hrun by (vm_compute; reflexivity);
    destruct (single_segment_fully_emitted [(0, 0)%Q] [there_and_back; three_legs] r 0
                there_and_back (straight 0 1) Hrun eq_refl eq_refl)
      as (steps & t & Hs & Ht & Hlen & _)
  end.
  exists steps, t. split_and!; [exact Hrun|exact Hs|exact Ht|exact Hlen].
Defined.

(** *** The ids of a block *)

Lemma block_ids_sublist (trajs : list trajectory) (step : nat) :
  sublist (s_id <$> block trajs step) (mote_id <$> trajs).
Proof.
  induction trajs as [|t trajs IH]; [done|].
  rewrite block_cons, fmap_app, fmap_cons. unfold emit.
  destruct (Nat.ltb step (length (xs t))); simpl; by constructor.
Qed.

Lemma trajectory_ids (fixedMotes : list (Q * Q)) (mobileMotes : list mote)
    (r : positions) :
  generate_positions_from_json fixedMotes mobileMotes = Some r ->
  mote_id <$> trajectories r = seq (length fixedMotes) (length mobileMotes).
Proof.
  intros Hrun. destruct (generate_closed _ _ _ Hrun) as (_ & _ & Hlen & _ & _ & Hk).
  apply list_eq. intros k. rewrite list_lookup_fmap.
  destruct (mobileMotes !! k) as [m|] eqn:Em.
  - destruct (Hk k m Em) as (steps & _ & ->). simpl.
    by rewrite lookup_seq_lt by (by eapply lookup_lt_Some).
  - apply lookup_ge_None in Em.
    rewrite lookup_seq_ge by done.
    rewrite (proj2 (lookup_ge_None _ _)); [done|lia].
Qed.

(** X14.  Every block of the trace lists the mobile motes in the order of
    the configuration, each at most once, under the ids that follow those
    of the fixed motes; none of its lines is for a fixed mote. *)
Theorem trace_blocks_in_mote_order (fixedMotes : list (Q * Q))
    (mobileMotes : list mote) (r : positions) (step : nat) (b : list sample) :
  generate_positions_from_json fixedMotes mobileMotes = Some r ->
  trace r !! step = Some b ->
  sublist (s_id <$> b) (seq (length fixedMotes) (length mobileMotes)) /\
  NoDup (s_id <$> b) /\
  forall s, s ∈ b ->
    (length fixedMotes <= s_id s < length fixedMotes + length mobileMotes)%nat.
Proof.
  intros Hrun Hb.
  assert (sublist (s_id <$> b) (seq (length fixedMotes) (length mobileMotes))) as Hsub.
  { rewrite <- (trajectory_ids _ _ _ Hrun).
    destruct (generate_closed _ _ _ Hrun) as (_ & _ & _ & _ & Htrace & _).
    rewrite Htrace in Hb. unfold merge in Hb.
    change map with (@fmap list _) in Hb. rewrite list_lookup_fmap in Hb.
    destruct (seq 0 _ !! step) as [i|]; [|done]. injection Hb as <-.
    apply block_ids_sublist. }
  split_and!; [done| |].
  - eapply sublist_NoDup; [|exact Hsub]. apply NoDup_ListNoDup, List.seq_NoDup.
  - intros s Hs.
    assert (s_id s ∈ seq (length fixedMotes) (length mobileMotes)) as Hin.
    { eapply elem_of_sublist; [|exact Hsub]. by apply list_elem_of_fmap_2. }
    apply elem_of_seq in Hin. lia.
Qed.

Lemma trace_blocks_in_mote_order_witness :
  exists r b,
    generate_positions_from_json [(0, 0)%Q] [there_and_back; three_legs] = Some r /\
    trace r !! 1%nat = Some b /\ NoDup (s_id <$> b).
Proof.
  eexists. eexists.
  match goal with |- ?g = Some ?r /\ ?t = Some ?b /\ _ =>
    assert (g = Some r) as Hrun by (vm_compute; reflexivity);
    assert (t = Some b) as Hb by (vm_compute; reflexivity);
    destruct (trace_blocks_in_mote_order [(0, 0)%Q] [there_and_back; three_legs] r 1 b
                Hrun Hb) as (_ & Hnd & _)
  end.
  split_and!; [exact Hrun|exact Hb|exact Hnd].
Defined.

(** ** Further facts about the objectives *)




(** Two sorted lists with the same rows are equal when no two different
    rows share a slot. *)
Lemma sorted_rows_unique node_col time_col l1 l2 :
  sorted_rows node_col time_col l1 -> sorted_rows node_col time_col l2 ->
  Permutation l1 l2 ->
  (forall r1 r2, In r1 l1 -> In r2 l1 -> same_slot node_col time_col r1 r2 -> r1 = r2) ->
  l1 = l2.
Proof.
  revert l2. induction l1 as [|a l1 IH]; intros l2 Hs1 Hs2 Hperm Huniq.
  { by apply Permutation_nil in Hperm. }
  destruct l2 as [|b l2]; [by apply Permutation_sym, Permutation_nil in Hperm|].
  destruct Hs1 as [Ha Hs1], Hs2 as [Hb Hs2].
  assert (a = b) as ->.
  { assert (In b (a :: l1)) as Hb1.
    { eapply Permutation_in; [symmetry; exact Hperm|by left]. }
    assert (In a (b :: l2)) as Ha2.
    { eapply Permutation_in; [exact Hperm|by left]. }
    destruct Hb1 as [?|Hb1]; [done|]. destruct Ha2 as [?|Ha2]; [done|].
    apply Huniq; [by left|by right|].
    apply row_le_antisym; [by apply Ha|by apply Hb]. }
  f_equal. apply IH; [done|done|by eapply Permutation_cons_inv|].
  intros r1 r2 H1 H2. apply Huniq; by right.
Qed.

Lemma has_column_columns (df1 df2 : DataFrame) col :
  columns df1 = columns df2 -> has_column df1 col = has_column df2 col.
Proof. unfold has_column. by intros ->. Qed.

(** X16.  The throughput does not depend on the order of the rows of the
    table, provided no two different rows carry the same node and the same
    time: two tables with the same columns and the same rows in any order
    give the same result. *)
Theorem throughput_row_order (df1 df2 : DataFrame)
    (value_col node_col time_col : string) :
  columns df1 = columns df2 -> Permutation (rows df1) (rows df2) ->
  (forall r1 r2, In r1 (rows df1) -> In r2 (rows df1) ->
     same_slot node_col time_col r1 r2 -> r1 = r2) ->
  sum_last_minus_first df1 value_col node_col time_col =
  sum_last_minus_first df2 value_col node_col time_col.
Proof.
  intros Hcols Hperm Huniq. unfold sum_last_minus_first, per_node.
  rewrite !(has_column_columns df1 df2) by done.
  replace (sort_values node_col time_col (rows df2))
    with (sort_values node_col time_col (rows df1)); [done|].
  apply (sorted_rows_unique node_col time_col); try apply sort_values_sorted.
  - by rewrite !sort_values_perm.
  - intros r1 r2 H1 H2. apply Huniq; by eapply In_sort_values.
Qed.

Lemma throughput_row_order_witness :
  sum_last_minus_first mixed_table "server_received" "node" "root_time_now" =
  sum_last_minus_first mixed_table_reversed "server_received" "node" "root_time_now".
Proof.
  apply throughput_row_order.
  - reflexivity.
  - apply Permutation_rev.
  - intros r1 r2 H1 H2 [Hn Ht].
    simpl in H1, H2.
    destruct H1 as [<-|[<-|[<-|[<-|[]]]]], H2 as [<-|[<-|[<-|[<-|[]]]]];
      try reflexivity; vm_compute in Hn, Ht; discriminate.
Defined.

(** ** Facts about the loaders *)

Import Loaders.

Lemma alloc_addresses (l : list candidate) : alloc l <$> addresses l = l.
Proof.
  apply list_eq. intros i. unfold addresses. rewrite list_lookup_fmap.
  destruct (l !! i) as [x|] eqn:E.
  - rewrite lookup_seq_lt by (by eapply lookup_lt_Some). simpl.
    unfold alloc. by rewrite (nth_lookup_Some _ _ _ _ E).
  - rewrite lookup_seq_ge; [done|]. by apply lookup_ge_None.
Qed.

Lemma ids_alloc (l : list candidate) : cid ∘ alloc l <$> addresses l = cid <$> l.
Proof. by rewrite list_fmap_compose, alloc_addresses. Qed.

Lemma ids_load_milp_population (case_dirs : case_listing) :
  NoDup case_dirs.*1 ->
  NoDup (cid <$> load_milp_population case_dirs) /\
  forall k, k ∈ cid <$> load_milp_population case_dirs ->
    exists name, name ∈ case_dirs.*1 /\ k = ("MILP-" ++ name)%string.
Proof.
  induction case_dirs as [|[name o] l IH]; simpl.
  { intros _. split; [constructor|]. by intros k ?%elem_of_nil. }
  intros [Hfresh Hnd]%NoDup_cons. destruct (IH Hnd) as [IH1 IH2].
  destruct o as [o|]; simpl.
  - split.
    + apply NoDup_cons. split; [|done]. intros (name' & Hin & Heq)%IH2.
      simplify_eq/=. done.
    + intros k [->|Hk]%elem_of_cons; [exists name; split; [left|done]|].
      destruct (IH2 k Hk) as (name' & ? & ?). exists name'. split; [by right|done].
  - split; [done|]. intros k Hk.
    destruct (IH2 k Hk) as (name' & ? & ?). exists name'. split; [by right|done].
Qed.

Lemma ids_load_milp_only (case_dirs : case_listing) :
  NoDup case_dirs.*1 ->
  NoDup (cid <$> load_milp_only case_dirs) /\
  forall k, k ∈ cid <$> load_milp_only case_dirs -> k ∈ case_dirs.*1.
Proof.
  induction case_dirs as [|[name o] l IH]; simpl.
  { intros _. split; [constructor|]. by intros k ?%elem_of_nil. }
  intros [Hfresh Hnd]%NoDup_cons. destruct (IH Hnd) as [IH1 IH2].
  destruct o as [o|]; simpl.
  - split.
    + apply NoDup_cons. split; [|done]. by intros ?%IH2.
    + intros k [->|Hk]%elem_of_cons; [left|right; by apply IH2].
  - split; [done|]. intros k Hk. right. by apply IH2.
Qed.

Lemma ids_load_simlab_population (data : simlab_data) :
  cid <$> load_simlab_population data = simulation_ids data.
Proof.
  unfold load_simlab_population, simulation_ids.
  induction data as [|[g inds] data IH]; simpl; [done|].
  rewrite fmap_app, IH. f_equal.
  change (@fmap list _) with map. rewrite map_map. done.
Qed.

Lemma load_milp_only_nil (case_dirs : case_listing) :
  load_milp_only case_dirs = [] <-> forall c, c ∈ case_dirs -> c.2 = None.
Proof.
  induction case_dirs as [|[name o] l IH]; simpl.
  { split; [|done]. by intros _ c ?%elem_of_nil. }
  destruct o as [o|]; simpl.
  - split; [done|]. intros H. by specialize (H (name, Some o) ltac:(left)).
  - rewrite IH. split.
    + intros H c [->|Hc]%elem_of_cons; [done|by apply H].
    + intros H c Hc. apply H. by right.
Qed.

(** X17.  In [pareto_global.py], when the SimLab file gives each
    individual its own [simulation_id] and none of them starts with
    ["MILP-"], the candidates loaded from the two sources carry pairwise
    distinct ids (the case directories have distinct names), so [main]
    ranks every loaded candidate: each one is listed in exactly one front
    and its rank is the index of that front. *)
Theorem main_ranks_every_candidate (case_dirs : case_listing) (data : simlab_data) :
  NoDup case_dirs.*1 -> NoDup (simulation_ids data) ->
  (forall sid, sid ∈ simulation_ids data -> String.prefix "MILP-" sid = false) ->
  NoDup (cid <$> main_population case_dirs data) /\
  exists h' fs,
    main case_dirs data = Some (h', fs) /\
    concat fs ≡ₚ addresses (main_population case_dirs data) /\
    forall j F a, fs !! j = Some F -> a ∈ F -> rank (h' a) = Some j.
Proof.
  intros Hdirs Hsim Hpre.
  assert (NoDup (cid <$> main_population case_dirs data)) as Hids.
  { unfold main_population. rewrite fmap_app, ids_load_simlab_population.
    destruct (ids_load_milp_population case_dirs Hdirs) as [Hnd Hshape].
    apply NoDup_app. split_and!; [done| |done].
    intros k (name & _ & ->)%Hshape Hk%Hpre. simpl in Hk. by destruct name. }
  split; [done|].
  destruct (sort_layers (alloc (main_population case_dirs data))
                        (addresses (main_population case_dirs data)))
    as (h' & fs & Hrun & _ & Hperm & Hrk & _).
  { by rewrite ids_alloc. }
  by exists h', fs.
Qed.

Lemma main_ranks_every_candidate_witness :
  exists h' fs,
    main two_cases two_generations = Some (h', fs) /\
    concat fs ≡ₚ [0; 1; 2; 3]%nat.
Proof.
  destruct (main_ranks_every_candidate two_cases two_generations)
    as (_ & h' & fs & Hrun & Hperm & _).
  { apply (bool_decide_unpack _). vm_compute. exact I. }
  { apply (bool_decide_unpack _). vm_compute. exact I. }
  { intros sid Hsid. simpl in Hsid.
    apply elem_of_cons in Hsid as [->|Hsid]; [reflexivity|].
    apply list_elem_of_singleton in Hsid as ->. reflexivity. }
  exists h', fs. split; [exact Hrun|exact Hperm].
Defined.

(** X18.  In [pareto_analysis.py] the ids are the names of the case
    directories, which are distinct: [main] returns early exactly when no
    case has an objectives file, and otherwise lists every loaded
    candidate in exactly one front, with the index of the front as rank. *)
Theorem main_milp_ranks_every_candidate (case_dirs : case_listing) :
  NoDup case_dirs.*1 ->
  (main_milp case_dirs = None <-> forall c, c ∈ case_dirs -> c.2 = None) /\
  forall res, main_milp case_dirs = Some res ->
    exists h' fs,
      res = Some (h', fs) /\ fs <> [] /\
      concat fs ≡ₚ addresses (load_milp_only case_dirs) /\
      forall j F a, fs !! j = Some F -> a ∈ F -> rank (h' a) = Some j.
Proof.
  intros Hdirs. unfold main_milp. rewrite <- load_milp_only_nil.
  destruct (ids_load_milp_only case_dirs Hdirs) as [Hnd _].
  destruct (load_milp_only case_dirs) as [|c population] eqn:E.
  { split; [done|]. by intros res. }
  split; [done|]. intros res [= <-].
  destruct (sort_layers (alloc (c :: population)) (addresses (c :: population)))
    as (h' & fs & Hrun & _ & Hperm & Hrk & _).
  { by rewrite ids_alloc. }
  exists h', fs. split_and!; [done| |done|done].
  intros ->. apply Permutation_length in Hperm. done.
Qed.

Lemma main_milp_ranks_every_candidate_witness :
  exists h' fs, main_milp two_cases = Some (Some (h', fs)) /\ fs <> [].
Proof.
  destruct (main_milp_ranks_every_candidate two_cases) as (_ & H).
  { apply (bool_decide_unpack _). vm_compute. exact I. }
  destruct (H _ eq_refl) as (h' & fs & Hres & Hne & _).
  exists h', fs. split; [|exact Hne]. by rewrite <- Hres.
Defined.

(** ** Facts about the simulation files *)

Import CoojaFiles.

Lemma add_motes_full (root_motes : list nat) (ps : list (Q * Q)) (i : nat) :
  length (add_motes full_template root_motes i ps) = length ps /\
  forall j p, ps !! j = Some p ->
    add_motes full_template root_motes i ps !! j =
      Some {| xm_type := if existsb (Nat.eqb (i + j + 1)) root_motes
                         then Server else Client;
              xm_pos := p; xm_id := (i + j + 1)%nat |}.
Proof.
  revert i. induction ps as [|p ps IH]; intros i; [done|].
  destruct (IH (Datatypes.S i)) as [IHlen IHk].
  assert (add_motes full_template root_motes i (p :: ps) =
          {| xm_type := if existsb (Nat.eqb (i + 1)) root_motes then Server else Client;
             xm_pos := p; xm_id := (i + 1)%nat |}
          :: add_motes full_template root_motes (Datatypes.S i) ps) as ->.
  { cbn [add_motes]. unfold add_mote.
    by destruct (existsb (Nat.eqb (i + 1)) root_motes). }
  split; [simpl; lia|]. intros [|j] q Hq; simpl in Hq.
  - injection Hq as <-. by rewrite Nat.add_0_r.
  - rewrite lookup_cons. rewrite (IHk j q Hq).
    by replace (Datatypes.S i + j + 1)%nat with (i + Datatypes.S j + 1)%nat by lia.
Qed.

Lemma first_is_root (i : nat) :
  existsb (Nat.eqb (i + 1)) [1%nat] = true <-> i = 0%nat.
Proof.
  simpl. rewrite orb_false_r, Nat.eqb_eq. lia.
Qed.

(** X19.  With a template that has both mote types,
    [convert_simulation_files] writes one mote for each fixed and each
    mobile mote, in this order, numbered from 1; the first of them is the
    only server.  A mobile mote is placed where the positions file puts it
    at step 0, and its id in the simulation file is its id in the
    positions file plus one.  The positions file and the mobility plugin
    are kept exactly when there is a mobile mote. *)
Theorem xml_motes_follow_positions (fixedMotes : list (Q * Q))
    (mobileMotes : list mote) (duration : Q) (out : simulation_files) :
  convert_simulation_files full_template fixedMotes mobileMotes duration = Some out ->
  length (motes (simulation_csc out)) = (length fixedMotes + length mobileMotes)%nat /\
  (forall i mt, motes (simulation_csc out) !! i = Some mt ->
     xm_id mt = (i + 1)%nat /\ (xm_type mt = Server <-> i = 0%nat)) /\
  (forall j p, fixedMotes !! j = Some p ->
     exists mt, motes (simulation_csc out) !! j = Some mt /\ xm_pos mt = p) /\
  (forall k m, mobileMotes !! k = Some m ->
     exists mt r b s,
       motes (simulation_csc out) !! (length fixedMotes + k)%nat = Some mt /\
       positions_dat out = Some r /\ trace r !! 0%nat = Some b /\ b !! k = Some s /\
       xm_id mt = (s_id s + 1)%nat /\ xm_pos mt = (s_x s, s_y s)) /\
  (positions_dat out = None <-> mobileMotes = []) /\
  (mobility_plugin (simulation_csc out) = false <-> mobileMotes = []).
Proof.
  unfold convert_simulation_files.
  destruct (generate_positions_from_json fixedMotes mobileMotes) as [r|] eqn:Hrun; [|done].
  intros [= <-]. cbn [simulation_csc positions_dat update_simulation_xml motes mobility_plugin].
  destruct (generate_closed _ _ _ Hrun) as (Hfixed & Hlen & _).
  rewrite Hfixed.
  destruct (add_motes_full [1%nat] (fixedMotes ++ start_positions r) 0) as [Hlm Hm].
  assert (start_positions r = [] <-> mobileMotes = []) as Hnil.
  { destruct (start_positions r), mobileMotes; simpl in Hlen; try done. }
  split_and!.
  - rewrite Hlm, length_app. lia.
  - intros i mt Hi.
    destruct (lookup_lt_is_Some_2 (fixedMotes ++ start_positions r) i) as [p Hp].
    { rewrite <- Hlm. by eapply lookup_lt_Some. }
    rewrite (Hm i p Hp) in Hi. injection Hi as <-. cbn [xm_id xm_type].
    split; [done|]. rewrite <- (first_is_root i).
    change (0 + i + 1)%nat with (i + 1)%nat.
    cbn [existsb]. destruct (_ || _); split; done.
  - intros j p Hj. eexists. split; [apply Hm; by apply lookup_app_l_Some|done].
  - intros k m Hk.
    destruct (step_0_lookup _ _ _ _ _ Hrun Hk) as (x & y & t & Hp & _ & Hid & Hb & _ & Hs).
    eexists _, r, _, _. split_and!.
    + apply Hm. rewrite lookup_app_r by lia.
      replace (length fixedMotes + k - length fixedMotes)%nat with k by lia. exact Hp.
    + destruct (start_positions r); [done|done].
    + exact Hb.
    + exact Hs.
    + cbn [xm_id s_id]. rewrite Hid. lia.
    + done.
  - rewrite <- Hnil. destruct (start_positions r); split; done.
  - rewrite <- Hnil. destruct (start_positions r); split; done.
Qed.

Lemma xml_motes_follow_positions_witness :
  exists out,
    convert_simulation_files full_template [(0, 0)%Q] [there_and_back; three_legs] 10
      = Some out /\
    length (motes (simulation_csc out)) = 3%nat /\
    exists mt s b r,
      motes (simulation_csc out) !! 2%nat = Some mt /\
      positions_dat out = Some r /\ trace r !! 0%nat = Some b /\ b !! 1%nat = Some s /\
      xm_id mt = (s_id s + 1)%nat.
Proof.
  eexists.
  match goal with |- ?g = Some ?out /\ _ =>
    assert (g = Some out) as Hrun by (vm_compute; reflexivity);
    destruct (xml_motes_follow_positions [(0, 0)%Q] [there_and_back; three_legs] 10 out
                Hrun) as (Hlen & _ & _ & Hk & _)
  end.
  split; [exact Hrun|]. split; [exact Hlen|].
  destruct (Hk 1%nat three_legs eq_refl) as (mt & r & b & s & Hmt & Hr & Hb & Hs & Hid & _).
  exists mt, s, b, r. split_and!; [exact Hmt|exact Hr|exact Hb|exact Hs|exact Hid].
Defined.

(** X20.  A mote whose mote type is missing from the template is not
    written, and the other motes keep their numbers: the motes written
    for any template are those written for a full template whose type the
    template has.  Without the server type, mote 1 is lost. *)
Theorem missing_mote_type_drops_motes (tpl : template) (fixed mobile : list (Q * Q))
    (root_motes : list nat) (simulation_time : Q) :
  motes (update_simulation_xml tpl fixed mobile root_motes simulation_time) =
  filter (fun mt => present tpl (xm_type mt) = true)
         (motes (update_simulation_xml full_template fixed mobile root_motes
                                       simulation_time)).
Proof.
  cbn [update_simulation_xml motes]. generalize 0%nat.
  induction (fixed ++ mobile) as [|p ps IH]; intros i; [done|].
  cbn [add_motes]. rewrite filter_app, <- IH. f_equal.
  unfold add_mote. set (t := if existsb _ _ then Server else Client).
  assert (present full_template t = true) as -> by (by destruct t).
  destruct (present tpl t) eqn:E.
  - by rewrite filter_cons_True.
  - rewrite filter_cons_False; [done|]. simpl. congruence.
Qed.

(** *** The blank lines of the simulation file *)

Section blank_lines_facts.
Variable line : Type.
Variables (has_cdata_open has_cdata_close is_blank : line -> bool).

(** The lines kept from [ls] when the loop starts with the flag [inside]. *)
Lemma blank_fold_closed (ls : list line) (inside : bool) (out : list line) :
  exists kept inside',
    fold_left (blank_step line has_cdata_open has_cdata_close is_blank) ls (inside, out) = (inside', out ++ kept) /\
    sublist kept ls /\
    filter (fun l => is_blank l = false) kept = filter (fun l => is_blank l = false) ls /\
    (inside = false -> (forall l, l ∈ ls -> has_cdata_open l = false) ->
     kept = filter (fun l => is_blank l = false) ls) /\
    forall out', fold_left (blank_step line has_cdata_open has_cdata_close is_blank)
                         kept (inside, out') = (inside', out' ++ kept).
Proof.
  revert inside out. induction ls as [|l ls IH]; intros inside out.
  { exists [], inside. simpl. rewrite app_nil_r.
    split_and!; [done|done|done|done|]. intros out'. by rewrite app_nil_r. }
  cbn [fold_left]. unfold blank_step at 2.
  set (inside1 := if has_cdata_open l then true else inside).
  set (inside2 := if has_cdata_close l then false else inside1).
  destruct (inside1 || negb (is_blank l)) eqn:Ek.
  - destruct (IH inside2 (out ++ [l])) as (kept & inside' & Hrun & Hsub & Hfil & Hno & Hidem).
    exists (l :: kept), inside'. split_and!.
    + by rewrite Hrun, <- app_assoc.
    + by constructor.
    + rewrite !filter_cons, Hfil. done.
    + intros -> Hall.
      assert (has_cdata_open l = false) as Ho by (apply Hall; left).
      assert (inside1 = false) as E1 by (subst inside1; by rewrite Ho).
      rewrite E1 in Ek. simpl in Ek. apply negb_true_iff in Ek.
      rewrite filter_cons_True by done. f_equal. apply Hno.
      * subst inside2. rewrite E1. by destruct (has_cdata_close l).
      * intros x Hx. apply Hall. by right.
    + intros out'. cbn [fold_left]. unfold blank_step at 2.
      fold inside1. rewrite Ek. fold inside2.
      by rewrite Hidem, <- app_assoc.
  - apply orb_false_iff in Ek as [E1 Eb]. apply negb_false_iff in Eb.
    assert (inside = false /\ has_cdata_open l = false) as [-> Ho].
    { subst inside1. by destruct (has_cdata_open l), inside. }
    assert (inside2 = false) as ->.
    { subst inside2. rewrite E1. by destruct (has_cdata_close l). }
    destruct (IH false out) as (kept & inside' & Hrun & Hsub & Hfil & Hno & Hidem).
    exists kept, inside'. split_and!; [done|by constructor| |  |done].
    + rewrite Hfil, filter_cons_False; [done|]. congruence.
    + intros _ Hall. rewrite filter_cons_False by congruence. apply Hno; [done|].
      intros x Hx. apply Hall. by right.
Qed.

End blank_lines_facts.

(** X21.  The loop that strips the blank lines keeps a sublist of the
    lines, with every line that is not blank, in order; when no line opens
    a CDATA section it keeps exactly the lines that are not blank; applied
    to its own result it changes nothing. *)
Theorem remove_blank_lines_closed (line : Type)
    (has_cdata_open has_cdata_close is_blank : line -> bool) (ls : list line) :
  sublist (remove_blank_lines line has_cdata_open has_cdata_close is_blank ls) ls /\
  filter (fun l => is_blank l = false)
         (remove_blank_lines line has_cdata_open has_cdata_close is_blank ls) =
    filter (fun l => is_blank l = false) ls /\
  ((forall l, l ∈ ls -> has_cdata_open l = false) ->
   remove_blank_lines line has_cdata_open has_cdata_close is_blank ls =
     filter (fun l => is_blank l = false) ls) /\
  remove_blank_lines line has_cdata_open has_cdata_close is_blank
    (remove_blank_lines line has_cdata_open has_cdata_close is_blank ls) =
  remove_blank_lines line has_cdata_open has_cdata_close is_blank ls.
Proof.
  unfold remove_blank_lines.
  destruct (blank_fold_closed line has_cdata_open has_cdata_close is_blank ls false [])
    as (kept & inside' & Hrun & Hsub & Hfil & Hno & Hidem).
  rewrite Hrun. simpl. rewrite (Hidem []). simpl.
  split_and!; [done|done|by apply Hno|done].
Qed.
